(** * PicoManager: a shallow embedding of [Source/PicoManager.c]

    The manager keeps a catalog of position independent code objects
    (PICOs) in a caller-owned array, sizes and fills one shared
    executable block, and gives every module a writable block of its own.

    Conventions of the embedding.
    - [DWORD] and [SIZE_T] values are naturals of type [N]; every
      arithmetic operation of the source is followed by the wrap-around
      of its C type ([wrapD] for 32 bits, [wrapS] for the 64 bits of an
      x64 build).
    - A pointer is either [NULL] or a block identifier with a byte offset,
      so that [base + offset] of a non-null base is never null.
    - The [entries] array lives inside the manager record: the list is the
      caller's array, its length the number of slots really there.  A read
      outside the list yields the all-zero entry and a write outside it is
      dropped; the C program has no defined behaviour there, and the
      general theorems assume the catalog fits the array when they need it.
    - The manager is passed by value, so the [if (!manager)] guards are
      outside the model; nullable strings are [option]s.
    - [KERNEL32$VirtualAlloc], [KERNEL32$VirtualFree] and LibTcg's
      [PicoLoad] act on a [World]; LibTcg's pure measurements are the
      fields of a [LibTcg] record. *)

From Stdlib Require Import NArith ZArith Ascii String List Lia Bool.
From stdpp Require Import base list.
Import ListNotations.

Local Open Scope N_scope.

(** ** Machine integers *)

Definition wrapD (n : N) : N := n mod 2 ^ 32.
Definition wrapS (n : N) : N := n mod 2 ^ 64.

(** [a - b] on DWORDs. *)
Definition subD (a b : N) : N := wrapD (a + 2 ^ 32 - wrapD b).

(** Conversion of a C [int] to [SIZE_T]. *)
Definition int_to_SIZE_T (z : Z) : N := Z.to_N (z mod 2 ^ 64).

(** [(DWORD)-1] *)
Definition DWORD_MINUS_ONE : N := 2 ^ 32 - 1.

Definition PICO_NAME_MAX_LENGTH : nat := 32.

(** ** Pointers *)

Inductive ptr : Type :=
| NULL : ptr
| Ptr (block : N) (ofs : N) : ptr.

Definition is_null (p : ptr) : bool :=
  match p with NULL => true | Ptr _ _ => false end.

(** [p + n] for a [char*]; the source only adds to a pointer it has
    checked against [NULL]. *)
Definition ptr_add (p : ptr) (n : N) : ptr :=
  match p with
  | NULL => NULL
  | Ptr b o => Ptr b (wrapS (o + n))
  end.

(** ** C strings

    A [const char*] argument is the list of characters found at the
    address; the string ends at the first NUL, or at the end of the list. *)

Definition is_nul (c : ascii) : bool := Ascii.eqb c zero.

Fixpoint strlen (s : list ascii) : nat :=
  match s with
  | [] => O
  | c :: s' => if is_nul c then O else S (strlen s')
  end.

Definition char_at (s : list ascii) (i : nat) : ascii := nth i s zero.

Fixpoint strncmp (s1 s2 : list ascii) (count : nat) : Z :=
  match count with
  | O => 0%Z
  | S count' =>
      let c1 := char_at s1 0 in
      let c2 := char_at s2 0 in
      if Ascii.eqb c1 c2
      then if is_nul c1 then 0%Z else strncmp (tl s1) (tl s2) count'
      else (Z.of_N (N_of_ascii c1) - Z.of_N (N_of_ascii c2))%Z
  end.

(** [strncpy] returns the [count] bytes it writes: the characters of
    [src] up to its NUL, then NUL padding. *)
Fixpoint strncpy (src : list ascii) (count : nat) : list ascii :=
  match count with
  | O => []
  | S count' =>
      let c := char_at src 0 in
      if is_nul c then repeat zero (S count') else c :: strncpy (tl src) count'
  end.

(** The string held by a buffer. *)
Definition cstr (s : list ascii) : list ascii := firstn (strlen s) s.

(** ** Structures of [Include/PicoManager.h] *)

Record PICO_ENTRY : Type := mkEntry {
  id : N;
  name : list ascii;
  code : ptr;
  codeSize : N;
  data : ptr;
  dataSize : N;
  entryPoint : ptr;
  vault : ptr
}.

Record PICO_MANAGER : Type := mkManager {
  baseAddress : ptr;
  blockSize : N;
  usedSize : N;
  entries : list PICO_ENTRY;
  entryCount : N;
  entryCapacity : N;
  interPicoPadding : N
}.

(** What [memset(&entry, 0, sizeof(PICO_ENTRY))] leaves. *)
Definition zero_entry : PICO_ENTRY :=
  mkEntry 0 (repeat zero PICO_NAME_MAX_LENGTH) NULL 0 NULL 0 NULL NULL.

Definition set_id (e : PICO_ENTRY) (v : N) : PICO_ENTRY :=
  mkEntry v (name e) (code e) (codeSize e) (data e) (dataSize e) (entryPoint e) (vault e).
Definition set_code (e : PICO_ENTRY) (p : ptr) : PICO_ENTRY :=
  mkEntry (id e) (name e) p (codeSize e) (data e) (dataSize e) (entryPoint e) (vault e).
Definition set_data (e : PICO_ENTRY) (p : ptr) : PICO_ENTRY :=
  mkEntry (id e) (name e) (code e) (codeSize e) p (dataSize e) (entryPoint e) (vault e).
Definition set_entryPoint (e : PICO_ENTRY) (p : ptr) : PICO_ENTRY :=
  mkEntry (id e) (name e) (code e) (codeSize e) (data e) (dataSize e) p (vault e).

Definition set_entries (m : PICO_MANAGER) (es : list PICO_ENTRY) : PICO_MANAGER :=
  mkManager (baseAddress m) (blockSize m) (usedSize m) es (entryCount m)
            (entryCapacity m) (interPicoPadding m).
Definition set_entryCount (m : PICO_MANAGER) (n : N) : PICO_MANAGER :=
  mkManager (baseAddress m) (blockSize m) (usedSize m) (entries m) n
            (entryCapacity m) (interPicoPadding m).
Definition set_usedSize (m : PICO_MANAGER) (n : N) : PICO_MANAGER :=
  mkManager (baseAddress m) (blockSize m) n (entries m) (entryCount m)
            (entryCapacity m) (interPicoPadding m).
Definition set_baseAddress (m : PICO_MANAGER) (p : ptr) : PICO_MANAGER :=
  mkManager p (blockSize m) (usedSize m) (entries m) (entryCount m)
            (entryCapacity m) (interPicoPadding m).
Definition set_blockSize (m : PICO_MANAGER) (n : N) : PICO_MANAGER :=
  mkManager (baseAddress m) n (usedSize m) (entries m) (entryCount m)
            (entryCapacity m) (interPicoPadding m).
Definition set_interPicoPadding (m : PICO_MANAGER) (n : N) : PICO_MANAGER :=
  mkManager (baseAddress m) (blockSize m) (usedSize m) (entries m) (entryCount m)
            (entryCapacity m) n.

(** [entries[i]] as an rvalue. *)
Definition entry_at (es : list PICO_ENTRY) (i : nat) : PICO_ENTRY :=
  default zero_entry (es !! i).

(** ** The outside world *)

Inductive protection : Type := PAGE_READWRITE | PAGE_EXECUTE_READWRITE.

Record region : Type := mkRegion {
  r_block : N;
  r_size : N;
  r_prot : protection
}.

(** One relocation performed by [PicoLoad(funcs, src, dstCode, dstData)]. *)
Record relocation : Type := mkRelocation {
  rl_funcs : ptr;
  rl_src : ptr;
  rl_dstCode : ptr;
  rl_dstData : ptr
}.

(** [oracle k] tells whether the [k]-th call of [VirtualAlloc] is granted;
    [allocs] counts the calls made, [live] lists the regions reserved and
    not yet released, [relocated] logs the calls of [PicoLoad]. *)
Record World : Type := mkWorld {
  oracle : nat -> bool;
  allocs : nat;
  live : list region;
  relocated : list relocation
}.

Definition VirtualAlloc (dwSize : N) (flProtect : protection) (w : World)
  : ptr * World :=
  if oracle w (allocs w)
  then let b := N.of_nat (S (allocs w)) in
       (Ptr b 0,
        mkWorld (oracle w) (S (allocs w))
                (mkRegion b dwSize flProtect :: live w) (relocated w))
  else (NULL, mkWorld (oracle w) (S (allocs w)) (live w) (relocated w)).

Definition is_block (b : N) (r : region) : bool := r_block r =? b.

(** [VirtualFree(p, 0, MEM_RELEASE)]: releases the region whose base
    address is [p]; any other address is refused and nothing changes. *)
Definition VirtualFree (lpAddress : ptr) (w : World) : World :=
  match lpAddress with
  | Ptr b 0 =>
      mkWorld (oracle w) (allocs w)
              (List.filter (fun r => negb (is_block b r)) (live w)) (relocated w)
  | _ => w
  end.

Definition PicoLoad (funcs src dstCode dstData : ptr) (w : World) : World :=
  mkWorld (oracle w) (allocs w) (live w)
          (relocated w ++ [mkRelocation funcs src dstCode dstData]).

Record LibTcg : Type := mkLibTcg {
  PicoCodeSize : ptr -> Z;
  PicoDataSize : ptr -> Z;
  PicoEntryPoint : ptr -> ptr -> ptr;
  PicoGetExport : ptr -> ptr -> Z -> ptr
}.

(** ** Initialization *)

Definition PicoManagerInit (entries : list PICO_ENTRY) (entryCapacity : N)
  : PICO_MANAGER :=
  mkManager NULL 0 0 entries 0 entryCapacity 0.

Definition AddPico (tcg : LibTcg) (manager : PICO_MANAGER)
           (name : option (list ascii)) (vault : ptr) : bool * PICO_MANAGER :=
  match name with
  | None => (false, manager)
  | Some name =>
      if is_null vault then (false, manager)
      else if entryCapacity manager <=? entryCount manager then (false, manager)
      else
        let entry :=
          mkEntry (entryCount manager)
                  (strncpy name (PICO_NAME_MAX_LENGTH - 1) ++ [zero])
                  NULL
                  (int_to_SIZE_T (PicoCodeSize tcg vault))
                  NULL
                  (int_to_SIZE_T (PicoDataSize tcg vault))
                  NULL
                  vault in
        (true,
         set_entryCount
           (set_entries manager
              (<[N.to_nat (entryCount manager) := entry]> (entries manager)))
           (wrapD (entryCount manager + 1)))
  end.

(** ** Lookup

    A returned [&manager->entries[i]] is the position [i]. *)

Definition GetPicoById (manager : PICO_MANAGER) (id : N) : option nat :=
  if entryCount manager <=? id then None else Some (N.to_nat id).

(** The [for] loop of [GetPicoByName]: [n] iterations are left and [i] is
    the loop variable. *)
Fixpoint GetPicoByName_loop (es : list PICO_ENTRY) (name' : list ascii)
         (nameLen : nat) (n i : nat) : option nat :=
  match n with
  | O => None
  | S n' =>
      if (strncmp (name (entry_at es i)) name' nameLen =? 0)%Z
         && is_nul (char_at (name (entry_at es i)) nameLen)
      then Some i
      else GetPicoByName_loop es name' nameLen n' (S i)
  end.

Definition GetPicoByName (manager : PICO_MANAGER) (name : option (list ascii))
  : option nat :=
  match name with
  | None => None
  | Some name =>
      let nameLen := strlen name in
      let nameLen :=
        if (PICO_NAME_MAX_LENGTH <=? nameLen)%nat
        then (PICO_NAME_MAX_LENGTH - 1)%nat else nameLen in
      GetPicoByName_loop (entries manager) name nameLen
                         (N.to_nat (entryCount manager)) 0
  end.

(** ** Removal *)

(** The compaction loop of [RemovePicoById]: [entries[i] = entries[i + 1]]
    followed by [entries[i].id = i], for [n] more iterations. *)
Fixpoint shift_loop (n i : nat) (es : list PICO_ENTRY) : list PICO_ENTRY :=
  match n with
  | O => es
  | S n' =>
      shift_loop n' (S i) (<[i := set_id (entry_at es (S i)) (N.of_nat i)]> es)
  end.

Definition RemovePicoById (manager : PICO_MANAGER) (id : N) (w : World)
  : bool * PICO_MANAGER * World :=
  if entryCount manager <=? id then (false, manager, w)
  else
    let k := N.to_nat id in
    let entry := entry_at (entries manager) k in
    let '(es1, w1) :=
      if is_null (data entry) then (entries manager, w)
      else (<[k := set_data entry NULL]> (entries manager),
            VirtualFree (data entry) w) in
    let last := subD (entryCount manager) 1 in
    let es2 := shift_loop (N.to_nat last - k) k es1 in
    let es3 := <[N.to_nat last := zero_entry]> es2 in
    (true, set_entryCount (set_entries manager es3) last, w1).

Definition RemovePicoByName (manager : PICO_MANAGER)
           (name : option (list ascii)) (w : World)
  : bool * PICO_MANAGER * World :=
  match name with
  | None => (false, manager, w)
  | Some _ =>
      match GetPicoByName manager name with
      | None => (false, manager, w)
      | Some i => RemovePicoById manager (wrapD (N.of_nat i)) w
      end
  end.

(** ** Allocation and loading *)

(** The loop of [TotalCodeSize], with [totalSize] as accumulator. *)
Fixpoint TotalCodeSize_loop (manager : PICO_MANAGER) (n i : nat) (totalSize : N)
  : N :=
  match n with
  | O => totalSize
  | S n' =>
      let entry := entry_at (entries manager) i in
      if is_null (vault entry) then TotalCodeSize_loop manager n' (S i) totalSize
      else
        let totalSize := wrapS (totalSize + codeSize entry) in
        let totalSize :=
          if N.of_nat i <? subD (entryCount manager) 1
          then wrapS (totalSize + interPicoPadding manager)
          else totalSize in
        TotalCodeSize_loop manager n' (S i) totalSize
  end.

Definition TotalCodeSize (manager : PICO_MANAGER) : N :=
  TotalCodeSize_loop manager (N.to_nat (entryCount manager)) 0 0.

Definition PicoManagerAlloc (manager : PICO_MANAGER) (finalPadding : N)
           (w : World) : bool * PICO_MANAGER * World :=
  let totalCodeSize := TotalCodeSize manager in
  let paddingSize :=
    if 0 <? entryCount manager
    then wrapS (interPicoPadding manager * subD (entryCount manager) 1)
    else 0 in
  let requiredBlockSize :=
    wrapS (wrapS (totalCodeSize + paddingSize) + finalPadding) in
  let '(p, w') := VirtualAlloc requiredBlockSize PAGE_EXECUTE_READWRITE w in
  let manager := set_baseAddress manager p in
  if is_null p then (false, manager, w')
  else (true, set_usedSize (set_blockSize manager requiredBlockSize) 0, w').

(** Which [return] of [LoadPico] was taken; the C function returns
    [TRUE] for [LoadOk] and [FALSE] for the other three. *)
Inductive LoadOutcome : Type :=
| LoadOk
| NotAllocated
| InsufficientSpace
| AllocationFailed.

Definition BOOL_of (o : LoadOutcome) : bool :=
  match o with LoadOk => true | _ => false end.

(** The loop of [LoadPico]: [n] iterations are left, [i] is the loop
    variable and [codeOffset] the running offset. *)
Fixpoint LoadPico_loop (tcg : LibTcg) (manager : PICO_MANAGER)
         (finalPadding : N) (funcs : ptr) (n i : nat) (codeOffset : N)
         (es : list PICO_ENTRY) (w : World)
  : LoadOutcome * N * list PICO_ENTRY * World :=
  match n with
  | O => (LoadOk, codeOffset, es, w)
  | S n' =>
      let entry := entry_at es i in
      if negb (is_null (code entry)) then
        LoadPico_loop tcg manager finalPadding funcs n' (S i)
          (wrapS (codeOffset + wrapS (codeSize entry + interPicoPadding manager)))
          es w
      else if is_null (vault entry) then
        LoadPico_loop tcg manager finalPadding funcs n' (S i) codeOffset es w
      else
        let requiredSize := wrapS (codeSize entry + interPicoPadding manager) in
        if blockSize manager <? wrapS (wrapS (codeOffset + requiredSize) + finalPadding)
        then (InsufficientSpace, codeOffset, es, w)
        else
          let entry := set_code entry (ptr_add (baseAddress manager) codeOffset) in
          let '(p, w) := VirtualAlloc (dataSize entry) PAGE_READWRITE w in
          let entry := set_data entry p in
          if is_null p then (AllocationFailed, codeOffset, <[i := entry]> es, w)
          else
            let w := PicoLoad funcs (vault entry) (code entry) (data entry) w in
            let entry :=
              set_entryPoint entry (PicoEntryPoint tcg (vault entry) (code entry)) in
            LoadPico_loop tcg manager finalPadding funcs n' (S i)
              (wrapS (codeOffset + wrapS (codeSize entry + interPicoPadding manager)))
              (<[i := entry]> es) w
  end.

Definition LoadPico (tcg : LibTcg) (manager : PICO_MANAGER) (upToEntryId : N)
           (finalPadding : N) (funcs : ptr) (w : World)
  : LoadOutcome * PICO_MANAGER * World :=
  if is_null (baseAddress manager) || (blockSize manager =? 0)
  then (NotAllocated, manager, w)
  else
    let loadUpTo :=
      if upToEntryId =? DWORD_MINUS_ONE then entryCount manager
      else wrapD (upToEntryId + 1) in
    let '(o, codeOffset, es, w') :=
      LoadPico_loop tcg manager finalPadding funcs
        (N.to_nat (N.min loadUpTo (entryCount manager))) 0 0
        (entries manager) w in
    match o with
    | LoadOk => (LoadOk, set_usedSize (set_entries manager es) codeOffset, w')
    | _ => (o, set_entries manager es, w')
    end.

(** ** Export lookup *)

Definition GetPicoExportById (tcg : LibTcg) (manager : PICO_MANAGER) (id : N)
           (tag : Z) : ptr :=
  if entryCount manager <=? id then NULL
  else
    let entry := entry_at (entries manager) (N.to_nat id) in
    if is_null (vault entry) || is_null (code entry) then NULL
    else PicoGetExport tcg (vault entry) (code entry) tag.

Definition GetPicoExportByName (tcg : LibTcg) (manager : PICO_MANAGER)
           (name : option (list ascii)) (tag : Z) : ptr :=
  match GetPicoByName manager name with
  | None => NULL
  | Some i =>
      let entry := entry_at (entries manager) i in
      if is_null (vault entry) || is_null (code entry) then NULL
      else PicoGetExport tcg (vault entry) (code entry) tag
  end.

(** ** Duplication and teardown *)

(** The copy loop of [DuplicateManager]; [false] is the early
    [return FALSE] after a refused [AddPico].  The array of the new
    manager is a different array from the one being read. *)
Fixpoint DuplicateManager_loop (tcg : LibTcg) (manager : PICO_MANAGER)
         (n i : nat) (newManager : PICO_MANAGER) : bool * PICO_MANAGER :=
  match n with
  | O => (true, newManager)
  | S n' =>
      let entry := entry_at (entries manager) i in
      if negb (is_null (vault entry)) then
        let '(ok, newManager') :=
          AddPico tcg newManager (Some (name entry)) (vault entry) in
        if ok then DuplicateManager_loop tcg manager n' (S i) newManager'
        else (false, newManager')
      else DuplicateManager_loop tcg manager n' (S i) newManager
  end.

(** [picoBlock] is the value held by the output cell [*picoBlock]; the
    result carries the value it holds afterwards. *)
Definition DuplicateManager (tcg : LibTcg) (manager : PICO_MANAGER)
           (entries : list PICO_ENTRY) (entryCapacity : N) (picoBlock : ptr)
           (w : World) : bool * PICO_MANAGER * ptr * World :=
  let newManager := PicoManagerInit entries entryCapacity in
  let newManager := set_interPicoPadding newManager (interPicoPadding manager) in
  let '(ok, newManager) :=
    DuplicateManager_loop tcg manager (N.to_nat (entryCount manager)) 0 newManager in
  if negb ok then (false, newManager, picoBlock, w)
  else
    let '(ok, newManager, w') :=
      PicoManagerAlloc newManager
        (wrapS (entryCount manager * interPicoPadding manager)) w in
    if negb ok then (false, newManager, picoBlock, w')
    else (true, newManager, baseAddress newManager, w').

Definition DestroyManager (manager : PICO_MANAGER) (picoBlock : ptr) (w : World)
  : bool * PICO_MANAGER * World :=
  let w' := if is_null picoBlock then w else VirtualFree picoBlock w in
  (true,
   set_entryCount
     (set_usedSize (set_blockSize (set_baseAddress manager NULL) 0) 0) 0,
   w').

(** ** Sequences of catalog operations *)

Inductive Op : Type :=
| Register (name : option (list ascii)) (vault : ptr)
| RemoveById (id : N)
| RemoveByName (name : option (list ascii)).

Definition apply_op (tcg : LibTcg) (op : Op) (s : PICO_MANAGER * World)
  : bool * (PICO_MANAGER * World) :=
  match op with
  | Register name vault =>
      let '(ok, m) := AddPico tcg (fst s) name vault in (ok, (m, snd s))
  | RemoveById id =>
      let '(ok, m, w) := RemovePicoById (fst s) id (snd s) in (ok, (m, w))
  | RemoveByName name =>
      let '(ok, m, w) := RemovePicoByName (fst s) name (snd s) in (ok, (m, w))
  end.

(** Runs the operations from left to right; the booleans are the values
    returned by the calls, in order. *)
Fixpoint run_ops (tcg : LibTcg) (ops : list Op) (s : PICO_MANAGER * World)
  : list bool * (PICO_MANAGER * World) :=
  match ops with
  | [] => ([], s)
  | op :: ops' =>
      let '(ok, s') := apply_op tcg op s in
      let '(oks, s'') := run_ops tcg ops' s' in
      (ok :: oks, s'')
  end.

Definition is_Register (op : Op) : bool :=
  match op with Register _ _ => true | _ => false end.

Definition successes (oks : list bool) : nat := List.length (List.filter (fun b => b) oks).

(** ** Vocabulary of the statements *)

(** [entryCount] is a DWORD and the catalog lies inside the array. *)
Definition fits (m : PICO_MANAGER) : Prop :=
  entryCount m < 2 ^ 32 /\ (N.to_nat (entryCount m) <= List.length (entries m))%nat.

(** The catalog invariant of the data model. *)
Definition catalog_inv (m : PICO_MANAGER) : Prop :=
  entryCount m <= entryCapacity m /\
  forall i : nat, (i < N.to_nat (entryCount m))%nat ->
    exists e, entries m !! i = Some e /\ id e = N.of_nat i.

(** What a successful [RemovePicoById] at position [k] does to the
    manager [m] and the world [w]. *)
Definition compacted (m : PICO_MANAGER) (k : N) (w : World)
           (m' : PICO_MANAGER) (w' : World) : Prop :=
  entryCount m' = entryCount m - 1 /\
  List.length (entries m') = List.length (entries m) /\
  (forall j, (j < N.to_nat k)%nat -> entries m' !! j = entries m !! j) /\
  (forall j, (N.to_nat k <= j < N.to_nat (entryCount m) - 1)%nat ->
     exists e, entries m !! (S j) = Some e /\
               entries m' !! j = Some (set_id e (N.of_nat j))) /\
  entries m' !! (N.to_nat (entryCount m) - 1)%nat = Some zero_entry /\
  (forall j, (N.to_nat (entryCount m) <= j)%nat ->
     entries m' !! j = entries m !! j) /\
  (baseAddress m', blockSize m', usedSize m', entryCapacity m',
   interPicoPadding m')
  = (baseAddress m, blockSize m, usedSize m, entryCapacity m,
     interPicoPadding m) /\
  w' = (if is_null (data (entry_at (entries m) (N.to_nat k))) then w
        else VirtualFree (data (entry_at (entries m) (N.to_nat k))) w) /\
  (forall b, data (entry_at (entries m) (N.to_nat k)) = Ptr b 0 ->
     forall r, In r (live w') -> r_block r <> b).

(** The array has room for [entryCapacity] entries, a DWORD. *)
Definition sized (m : PICO_MANAGER) : Prop :=
  entryCapacity m < 2 ^ 32 /\
  (N.to_nat (entryCapacity m) <= List.length (entries m))%nat.

(** An entry with a live vault. *)
Definition has_vault (e : PICO_ENTRY) : bool := negb (is_null (vault e)).

(** An entry that has been given a place in the shared block. *)
Definition placed (e : PICO_ENTRY) : bool := negb (is_null (code e)).

(** The occupied part of the array. *)
Definition catalog (m : PICO_MANAGER) : list PICO_ENTRY :=
  firstn (N.to_nat (entryCount m)) (entries m).

(** The entries of the catalog that have a vault, in catalog order. *)
Definition live_entries (m : PICO_MANAGER) : list PICO_ENTRY :=
  List.filter has_vault (catalog m).

(** The total code size in the words of the specification: the code
    sizes of the live entries, plus one padding between each adjacent
    pair of them. *)
Definition totalCodeSize_spec (m : PICO_MANAGER) : N :=
  let sizes := List.map codeSize (live_entries m) in
  wrapS (fold_right N.add 0 sizes
         + interPicoPadding m * (N.of_nat (List.length sizes) - 1)).

(** What the loop of [TotalCodeSize] adds over the [n] positions from
    [i]: the code size of every live entry, and one padding for every
    live entry that is not at the last position of the catalog. *)
Fixpoint tally (m : PICO_MANAGER) (n i : nat) : N :=
  match n with
  | O => 0
  | S n' =>
      (if has_vault (entry_at (entries m) i)
       then codeSize (entry_at (entries m) i)
            + (if N.of_nat i <? subD (entryCount m) 1
               then interPicoPadding m else 0)
       else 0)
      + tally m n' (S i)
  end.

(** The query as [GetPicoByName] compares it: cut after
    [PICO_NAME_MAX_LENGTH - 1] characters. *)
Definition name_matches (query : list ascii) (e : PICO_ENTRY) : Prop :=
  cstr (name e) = firstn (PICO_NAME_MAX_LENGTH - 1) (cstr query).

(** The entry [AddPico] writes at position [i] for a module. *)
Definition fresh_entry (tcg : LibTcg) (i : N) (nm : list ascii) (v : ptr)
  : PICO_ENTRY :=
  mkEntry i (strncpy nm (PICO_NAME_MAX_LENGTH - 1) ++ [zero]) NULL
          (int_to_SIZE_T (PicoCodeSize tcg v)) NULL
          (int_to_SIZE_T (PicoDataSize tcg v)) NULL v.

(** The entry written by the iteration of [LoadPico] that places [e] at
    the offset [off], with the data block [d]. *)
Definition loaded_entry (tcg : LibTcg) (m : PICO_MANAGER) (e : PICO_ENTRY)
           (off : N) (d : ptr) : PICO_ENTRY :=
  let c := ptr_add (baseAddress m) off in
  set_entryPoint (set_data (set_code e c) d) (PicoEntryPoint tcg (vault e) c).

(** The number of catalog positions [LoadPico] walks over. *)
Definition load_bound (m : PICO_MANAGER) (upToEntryId : N) : nat :=
  N.to_nat
    (N.min (if upToEntryId =? DWORD_MINUS_ONE then entryCount m
            else wrapD (upToEntryId + 1))
           (entryCount m)).

(** The running offset of [LoadPico] after it has walked over [es]:
    placed entries and entries it places advance it, empty slots do not. *)
Fixpoint replay (pad : N) (es : list PICO_ENTRY) (off : N) : N :=
  match es with
  | [] => off
  | e :: es' =>
      if placed e || has_vault e
      then replay pad es' (wrapS (off + wrapS (codeSize e + pad)))
      else replay pad es' off
  end.

(** ** Data of the worked examples *)

Definition str (s : string) : list ascii := list_ascii_of_string s.

Definition vaultA : ptr := Ptr 100 0.
Definition vaultB : ptr := Ptr 101 0.
Definition vaultC : ptr := Ptr 102 0.

(** A LibTcg whose modules A, B and C have 100, 200 and 50 bytes of code. *)
Definition tcg_ex : LibTcg :=
  mkLibTcg
    (fun v => match v with
              | Ptr 100 _ => 100%Z
              | Ptr 101 _ => 200%Z
              | Ptr 102 _ => 50%Z
              | _ => 0%Z
              end)
    (fun _ => 64%Z)
    (fun _ c => ptr_add c 4)
    (fun _ c _ => c).

Definition always (b : bool) : nat -> bool := fun _ => b.

Definition world_ex (grant : nat -> bool) : World := mkWorld grant 0 [] [].

(** [n] A's in a row. *)
Definition a_name (n : nat) : list ascii := repeat "a"%char n.

(** Three registered modules, padding 16, array of four slots. *)
Definition manager_ABC : PICO_MANAGER :=
  let m := set_interPicoPadding (PicoManagerInit (repeat zero_entry 4) 4) 16 in
  let m := snd (AddPico tcg_ex m (Some (str "A")) vaultA) in
  let m := snd (AddPico tcg_ex m (Some (str "B")) vaultB) in
  snd (AddPico tcg_ex m (Some (str "C")) vaultC).

(** The first call of [VirtualAlloc] is refused, the later ones granted. *)
Definition first_refused : nat -> bool := fun k => negb (k =? 0)%nat.

(** Two registered modules A and B, padding 16; the caller then clears
    the second slot of its array. *)
Definition manager_A_gap : PICO_MANAGER :=
  let m := set_interPicoPadding (PicoManagerInit (repeat zero_entry 2) 2) 16 in
  let m := snd (AddPico tcg_ex m (Some (str "A")) vaultA) in
  let m := snd (AddPico tcg_ex m (Some (str "B")) vaultB) in
  set_entries m (<[1%nat := zero_entry]> (entries m)).

(** The caller installs an executable block of [size] bytes. *)
Definition with_block (m : PICO_MANAGER) (base : ptr) (size : N) : PICO_MANAGER :=
  set_blockSize (set_baseAddress m base) size.

(** ** Vocabulary of the further properties *)

(** The bytes a walk of [LoadPico] spends on the entries [es]: the code
    and one padding each. *)
Definition footprint (pad : N) (es : list PICO_ENTRY) : N :=
  fold_right (fun e acc => codeSize e + pad + acc) 0 es.

(** The code sizes of [es], added up. *)
Definition code_total (es : list PICO_ENTRY) : N :=
  fold_right N.add 0 (List.map codeSize es).

(** A registered module that has not been placed. *)
Definition unloaded (e : PICO_ENTRY) : bool := has_vault e && negb (placed e).

(** The fields of an entry that only [AddPico] writes. *)
Definition identity_of (e : PICO_ENTRY) : N * list ascii * N * N * ptr :=
  (id e, name e, codeSize e, dataSize e, vault e).

(** Position [j] of a catalog from which position [k] has been removed,
    as a position of the catalog before the removal. *)
Definition before_removal (k j : nat) : nat := if (j <? k)%nat then j else S j.

(** How the lookups of [q] before and after the removal of position [k]
    are related. *)
Definition lookups_shift (m : PICO_MANAGER) (k : N) (m' : PICO_MANAGER)
           (q : list ascii) : Prop :=
  match GetPicoByName m (Some q) with
  | None => GetPicoByName m' (Some q) = None
  | Some i =>
      ((i < N.to_nat k)%nat -> GetPicoByName m' (Some q) = Some i) /\
      ((N.to_nat k < i)%nat -> GetPicoByName m' (Some q) = Some (i - 1)%nat) /\
      (i = N.to_nat k ->
       (forall j, (i < j < N.to_nat (entryCount m))%nat ->
          ~ name_matches q (entry_at (entries m) j)) ->
       GetPicoByName m' (Some q) = None) /\
      (i = N.to_nat k ->
       forall j, (i < j < N.to_nat (entryCount m))%nat ->
         name_matches q (entry_at (entries m) j) ->
         (forall j', (i < j' < j)%nat ->
            ~ name_matches q (entry_at (entries m) j')) ->
         GetPicoByName m' (Some q) = Some (j - 1)%nat)
  end.

(** Every catalog position holds a module: there is no empty slot. *)
Definition no_empty_slot (m : PICO_MANAGER) : Prop :=
  forall i, (i < N.to_nat (entryCount m))%nat ->
    has_vault (entry_at (entries m) i) = true.

(** * Properties *)

(** ** Machine integers and array cells *)

Lemma wrapD_small n : n < 2 ^ 32 -> wrapD n = n.
Proof. intros H. unfold wrapD. now apply N.mod_small. Qed.

Lemma wrapS_small n : n < 2 ^ 64 -> wrapS n = n.
Proof. intros H. unfold wrapS. now apply N.mod_small. Qed.

Lemma subD_one n : 0 < n -> n < 2 ^ 32 -> subD n 1 = n - 1.
Proof.
  intros H0 H1. unfold subD. rewrite (wrapD_small 1) by reflexivity.
  unfold wrapD. replace (n + 2 ^ 32 - 1) with ((n - 1) + 1 * 2 ^ 32) by lia.
  rewrite N.Div0.mod_add. apply N.mod_small. lia.
Qed.

Lemma entry_at_Some es i e : es !! i = Some e -> entry_at es i = e.
Proof. intros H. unfold entry_at. now rewrite H. Qed.

Lemma entry_at_None es i : es !! i = None -> entry_at es i = zero_entry.
Proof. intros H. unfold entry_at. now rewrite H. Qed.

Lemma lookup_entry_at es i :
  (i < List.length es)%nat -> es !! i = Some (entry_at es i).
Proof.
  intros H. destruct (lookup_lt_is_Some_2 es i H) as [e He].
  now rewrite (entry_at_Some _ _ _ He).
Qed.

Lemma entry_at_insert_eq es i e :
  (i < List.length es)%nat -> entry_at (<[i := e]> es) i = e.
Proof. intros H. apply entry_at_Some. now apply list_lookup_insert_eq. Qed.

Lemma entry_at_insert_ne es i j e :
  i <> j -> entry_at (<[i := e]> es) j = entry_at es j.
Proof. intros H. unfold entry_at. now rewrite list_lookup_insert_ne. Qed.

(** ** C strings *)

Section Strings.

Implicit Types (s q : list ascii) (c : ascii).

Lemma is_nul_true c : is_nul c = true <-> c = zero.
Proof. unfold is_nul. apply Ascii.eqb_eq. Qed.

Lemma cstr_cons c s :
  cstr (c :: s) = if is_nul c then [] else c :: cstr s.
Proof. unfold cstr. simpl. now destruct (is_nul c). Qed.

Lemma cstr_length s : List.length (cstr s) = strlen s.
Proof.
  induction s as [|c s IH]; [reflexivity|].
  rewrite cstr_cons. simpl. destruct (is_nul c); simpl; congruence.
Qed.

Lemma char_at_strlen s : is_nul (char_at s (strlen s)) = true.
Proof.
  induction s as [|c s IH]; [reflexivity|].
  simpl. destruct (is_nul c) eqn:Hc; [exact Hc | exact IH].
Qed.

Lemma char_at_before_strlen s i :
  (i < strlen s)%nat -> is_nul (char_at s i) = false.
Proof.
  revert i. induction s as [|c s IH]; intros i Hi; simpl in Hi; [lia|].
  destruct (is_nul c) eqn:Hc; [lia|].
  destruct i as [|i]; [exact Hc|]. apply IH. lia.
Qed.

Lemma char_diff_nonzero c1 c2 :
  Ascii.eqb c1 c2 = false ->
  (Z.of_N (N_of_ascii c1) - Z.of_N (N_of_ascii c2))%Z <> 0%Z.
Proof.
  intros Hne Hz. apply Ascii.eqb_neq in Hne. apply Hne.
  rewrite <- (ascii_N_embedding c1), <- (ascii_N_embedding c2).
  f_equal. lia.
Qed.

(** [strncmp] is zero exactly when the two strings agree on their
    first [n] characters. *)
Lemma strncmp_zero_iff s q n :
  strncmp s q n = 0%Z <-> firstn n (cstr s) = firstn n (cstr q).
Proof.
  revert s q. induction n as [|n IH]; intros s q; [simpl; tauto|].
  cbn [strncmp].
  assert (Hhd : forall t, cstr t = if is_nul (char_at t 0) then []
                                   else char_at t 0 :: cstr (tl t)).
  { intros [|c t]; [reflexivity | apply cstr_cons]. }
  rewrite (Hhd s), (Hhd q).
  destruct (Ascii.eqb (char_at s 0) (char_at q 0)) eqn:Heq.
  - apply Ascii.eqb_eq in Heq. rewrite <- Heq.
    destruct (is_nul (char_at s 0)); [tauto|].
    rewrite IH. cbn [firstn]. split; [congruence | now inversion 1].
  - split; [intros H; now apply char_diff_nonzero in H|].
    intros H. exfalso. apply Ascii.eqb_neq in Heq.
    destruct (is_nul (char_at s 0)) eqn:H1, (is_nul (char_at q 0)) eqn:H2;
      cbn [firstn] in H; try discriminate H.
    + apply is_nul_true in H1, H2. congruence.
    + inversion H. congruence.
Qed.

(** The test of [GetPicoByName] on one entry. *)
Lemma name_test_iff s q len :
  (len <= strlen q)%nat ->
  ((strncmp s q len =? 0)%Z && is_nul (char_at s len) = true
   <-> cstr s = firstn len (cstr q)).
Proof.
  intros Hlen. rewrite andb_true_iff, Z.eqb_eq, strncmp_zero_iff.
  split.
  - intros [Hpre Hnul].
    assert (Hl : List.length (firstn len (cstr s)) = len).
    { rewrite Hpre, length_firstn, cstr_length. lia. }
    rewrite length_firstn, cstr_length in Hl.
    destruct (Nat.lt_ge_cases len (strlen s)) as [Hlt|Hge].
    + rewrite (char_at_before_strlen _ _ Hlt) in Hnul. discriminate.
    + rewrite <- Hpre. symmetry. apply firstn_all2. rewrite cstr_length. lia.
  - intros Heq.
    assert (Hl : strlen s = len).
    { rewrite <- cstr_length, Heq, length_firstn, cstr_length. lia. }
    split.
    + rewrite <- Heq. apply firstn_all2. rewrite cstr_length. lia.
    + rewrite <- Hl. apply char_at_strlen.
Qed.

Lemma clamp_firstn q :
  let len := if (PICO_NAME_MAX_LENGTH <=? strlen q)%nat
             then (PICO_NAME_MAX_LENGTH - 1)%nat else strlen q in
  (len <= strlen q)%nat /\
  firstn len (cstr q) = firstn (PICO_NAME_MAX_LENGTH - 1) (cstr q).
Proof.
  unfold PICO_NAME_MAX_LENGTH. cbn zeta.
  destruct (32 <=? strlen q)%nat eqn:H.
  - apply Nat.leb_le in H. split; [lia | reflexivity].
  - apply Nat.leb_gt in H. split; [lia|].
    rewrite !firstn_all2; rewrite ?cstr_length; [reflexivity | lia | lia].
Qed.

(** A query shorter than the name field is compared as it is. *)
Lemma short_query_exact q e :
  (strlen q < PICO_NAME_MAX_LENGTH)%nat ->
  (name_matches q e <-> cstr (name e) = cstr q).
Proof.
  unfold name_matches, PICO_NAME_MAX_LENGTH. intros H.
  rewrite (firstn_all2 (cstr q)); [tauto | rewrite cstr_length; lia].
Qed.

End Strings.

(** ** Lookup by name *)

Section Lookup.

Variables (es : list PICO_ENTRY) (q : list ascii) (len : nat).

(** The loop returns the first position of its range that passes the
    test, and [None] when no position of the range passes it. *)
Lemma GetPicoByName_loop_first n i :
  match GetPicoByName_loop es q len n i with
  | Some j =>
      (i <= j < i + n)%nat /\
      (strncmp (name (entry_at es j)) q len =? 0)%Z
        && is_nul (char_at (name (entry_at es j)) len) = true /\
      forall j', (i <= j' < j)%nat ->
        (strncmp (name (entry_at es j')) q len =? 0)%Z
          && is_nul (char_at (name (entry_at es j')) len) = false
  | None =>
      forall j', (i <= j' < i + n)%nat ->
        (strncmp (name (entry_at es j')) q len =? 0)%Z
          && is_nul (char_at (name (entry_at es j')) len) = false
  end.
Proof.
  revert i. induction n as [|n IH]; intros i; cbn [GetPicoByName_loop].
  - intros j' Hj'. lia.
  - destruct ((strncmp (name (entry_at es i)) q len =? 0)%Z
              && is_nul (char_at (name (entry_at es i)) len)) eqn:Hi.
    + split; [lia|]. split; [exact Hi|]. intros j' Hj'. lia.
    + specialize (IH (S i)).
      destruct (GetPicoByName_loop es q len n (S i)) as [j|].
      * destruct IH as (Hr & Hj & Hfirst). split; [lia|]. split; [exact Hj|].
        intros j' Hj'. destruct (Nat.eq_dec j' i) as [->|Hne]; [exact Hi|].
        apply Hfirst. lia.
      * intros j' Hj'. destruct (Nat.eq_dec j' i) as [->|Hne]; [exact Hi|].
        apply IH. lia.
Qed.

End Lookup.

(** C5, as the code has it.  For every manager and every query string,
    [GetPicoByName] returns the first catalog position whose stored name
    equals the query cut to its first [PICO_NAME_MAX_LENGTH - 1] = 31
    characters (comparison of characters, hence case-sensitive), and
    returns nothing exactly when no catalog position holds such a name.
    For a query shorter than 32 characters the cut changes nothing, and
    the match is an exact match of length and content with the query. *)
Theorem GetPicoByName_truncated_match (m : PICO_MANAGER) (query : list ascii) :
  match GetPicoByName m (Some query) with
  | Some i =>
      (i < N.to_nat (entryCount m))%nat /\
      name_matches query (entry_at (entries m) i) /\
      (forall j, (j < i)%nat -> ~ name_matches query (entry_at (entries m) j)) /\
      ((strlen query < PICO_NAME_MAX_LENGTH)%nat ->
       cstr (name (entry_at (entries m) i)) = cstr query)
  | None =>
      forall j, (j < N.to_nat (entryCount m))%nat ->
        ~ name_matches query (entry_at (entries m) j)
  end.
Proof.
  unfold GetPicoByName.
  destruct (clamp_firstn query) as [Hlen Hcut].
  set (len := if (PICO_NAME_MAX_LENGTH <=? strlen query)%nat
              then (PICO_NAME_MAX_LENGTH - 1)%nat else strlen query) in *.
  assert (Htest : forall e,
             (strncmp (name e) query len =? 0)%Z && is_nul (char_at (name e) len) = true
             <-> name_matches query e).
  { intros e. unfold name_matches. rewrite <- Hcut. now apply name_test_iff. }
  pose proof (GetPicoByName_loop_first (entries m) query len
                (N.to_nat (entryCount m)) 0) as H.
  destruct (GetPicoByName_loop (entries m) query len (N.to_nat (entryCount m)) 0)
    as [i|].
  - destruct H as (Hr & Hi & Hfirst). split; [lia|].
    apply Htest in Hi. split; [exact Hi|]. split.
    + intros j Hj Hm. apply Htest in Hm. rewrite Hfirst in Hm by lia. discriminate.
    + intros Hshort. now apply short_query_exact.
  - intros j Hj Hm. apply Htest in Hm. rewrite H in Hm by lia. discriminate.
Qed.

(** C5 as stated fails for long queries: a module registered under a
    name of 31 letters is found by a query of 32 characters, which is not
    the stored name. *)
Lemma GetPicoByName_long_query_not_exact :
  let m := snd (AddPico tcg_ex
                  (PicoManagerInit (repeat zero_entry 4) 4)
                  (Some (a_name 31)) vaultA) in
  let query := a_name 31 ++ str "b" in
  GetPicoByName m (Some query) = Some 0%nat /\
  cstr (name (entry_at (entries m) 0)) = a_name 31 /\
  cstr query = a_name 31 ++ str "b" /\
  cstr (name (entry_at (entries m) 0)) <> cstr query.
Proof.
  cbv zeta. split; [vm_compute; reflexivity|].
  split; [vm_compute; reflexivity|].
  split; [vm_compute; reflexivity|].
  vm_compute. discriminate.
Qed.

(** ** Removal with compaction *)

Lemma shift_loop_length n : forall i es,
  List.length (shift_loop n i es) = List.length es.
Proof.
  induction n as [|n IH]; intros i es; cbn [shift_loop]; [reflexivity|].
  now rewrite IH, length_insert.
Qed.

(** After [n] iterations started at [i], the cells [i .. i+n-1] hold
    their right neighbours, renumbered; every other cell is as before. *)
Lemma shift_loop_lookup n : forall i es j,
  (i + n < List.length es)%nat ->
  shift_loop n i es !! j =
    if (j <? i)%nat then es !! j
    else if (j <? i + n)%nat
         then Some (set_id (entry_at es (S j)) (N.of_nat j))
         else es !! j.
Proof.
  induction n as [|n IH]; intros i es j Hlen; cbn [shift_loop].
  - destruct (Nat.ltb_spec j i), (Nat.ltb_spec j (i + 0)); try reflexivity; lia.
  - rewrite IH by (rewrite length_insert; lia).
    destruct (Nat.ltb_spec j (S i)), (Nat.ltb_spec j i),
             (Nat.ltb_spec j (S i + n)), (Nat.ltb_spec j (i + S n)); try lia.
    + now rewrite list_lookup_insert_ne by lia.
    + assert (j = i) as -> by lia. now rewrite list_lookup_insert_eq by lia.
    + now rewrite entry_at_insert_ne by lia.
    + now rewrite list_lookup_insert_ne by lia.
Qed.

Lemma VirtualFree_live_gone b w r :
  In r (live (VirtualFree (Ptr b 0) w)) -> r_block r <> b.
Proof.
  cbn. rewrite filter_In. intros [_ H] Heq.
  unfold is_block in H. apply negb_true_iff, N.eqb_neq in H. contradiction.
Qed.

Lemma VirtualFree_live_kept p w r :
  In r (live w) -> p <> Ptr (r_block r) 0 -> In r (live (VirtualFree p w)).
Proof.
  intros Hin Hne. destruct p as [|b [|o]]; cbn; try exact Hin.
  apply filter_In. split; [exact Hin|].
  unfold is_block. apply negb_true_iff, N.eqb_neq. congruence.
Qed.

Lemma VirtualFree_live_incl p w r :
  In r (live (VirtualFree p w)) -> In r (live w).
Proof.
  destruct p as [|b [|o]]; cbn; try tauto. rewrite filter_In. tauto.
Qed.

Lemma RemovePicoById_miss (m : PICO_MANAGER) (k : N) (w : World) :
  entryCount m <= k -> RemovePicoById m k w = (false, m, w).
Proof.
  intros Hk. unfold RemovePicoById.
  destruct (N.leb_spec (entryCount m) k) as [_|Hlt]; [reflexivity | lia].
Qed.

Lemma RemovePicoById_hit (m : PICO_MANAGER) (k : N) (w : World) :
  fits m -> k < entryCount m ->
  exists m' w', RemovePicoById m k w = (true, m', w') /\ compacted m k w m' w'.
Proof.
  intros [Hdw Hfit] Hk. unfold RemovePicoById, compacted.
  destruct (N.leb_spec (entryCount m) k) as [Hle|_]; [lia|].
  rewrite subD_one by lia.
  set (kn := N.to_nat k). set (e := entry_at (entries m) kn).
  set (es1w := if is_null (data e) then (entries m, w)
               else (<[kn := set_data e NULL]> (entries m), VirtualFree (data e) w)).
  assert (Hes1 : List.length (fst es1w) = List.length (entries m)
                 /\ (forall j, j <> kn -> fst es1w !! j = entries m !! j)
                 /\ snd es1w = (if is_null (data e) then w
                                else VirtualFree (data e) w)).
  { unfold es1w. destruct (is_null (data e)); cbn [fst snd].
    - now split.
    - split; [apply length_insert|]. split; [|reflexivity].
      intros j Hj. now apply list_lookup_insert_ne. }
  destruct es1w as [es1 w1]. cbn [fst snd] in Hes1.
  destruct Hes1 as (Hl1 & Hk1 & Hw1).
  replace (N.to_nat (entryCount m - 1)) with (N.to_nat (entryCount m) - 1)%nat
    by lia.
  set (n := N.to_nat (entryCount m)) in *.
  assert (Hkn : (kn < n)%nat) by (unfold kn, n; lia).
  eexists _, _. split; [reflexivity|]. cbn.
  assert (Hshift : forall j,
             shift_loop (n - 1 - kn) kn es1 !! j =
             if (j <? kn)%nat then es1 !! j
             else if (j <? kn + (n - 1 - kn))%nat
                  then Some (set_id (entry_at es1 (S j)) (N.of_nat j))
                  else es1 !! j).
  { intros j. apply shift_loop_lookup. lia. }
  split; [reflexivity|].
  split; [now rewrite length_insert, shift_loop_length|].
  split.
  { intros j Hj. rewrite list_lookup_insert_ne by lia. rewrite Hshift.
    destruct (Nat.ltb_spec j kn); [|lia]. apply Hk1. lia. }
  split.
  { intros j Hj. rewrite list_lookup_insert_ne by lia. rewrite Hshift.
    destruct (Nat.ltb_spec j kn); [lia|].
    destruct (Nat.ltb_spec j (kn + (n - 1 - kn))); [|lia].
    exists (entry_at (entries m) (S j)). split.
    - apply lookup_entry_at. lia.
    - unfold entry_at. now rewrite Hk1 by lia. }
  split.
  { apply list_lookup_insert_eq. rewrite shift_loop_length. lia. }
  split.
  { intros j Hj. rewrite list_lookup_insert_ne by lia. rewrite Hshift.
    destruct (Nat.ltb_spec j kn); [lia|].
    destruct (Nat.ltb_spec j (kn + (n - 1 - kn))); [lia|]. apply Hk1. lia. }
  split; [reflexivity|]. split; [exact Hw1|].
  intros b Hb r Hr. rewrite Hw1, Hb in Hr. cbn [is_null] in Hr.
  now apply VirtualFree_live_gone in Hr.
Qed.

(** C7.  On a catalog of [n = entryCount] entries that lies inside its
    array, [RemovePicoById] at a position [k < n] returns [TRUE]; the
    count becomes [n - 1]; the cells before [k] are untouched; every cell
    [j] with [k <= j < n - 1] holds the entry formerly at [j + 1] with its
    [id] set to [j]; the cell [n - 1] is all zero; the cells from [n] on
    and the other fields of the manager are untouched; the only effect on
    the world is the release of the removed entry's data block when it
    has one.  At a position [k >= n] the call returns [FALSE] and changes
    nothing. *)
Theorem RemovePicoById_compacts (m : PICO_MANAGER) (k : N) (w : World) :
  fits m ->
  (k < entryCount m ->
   exists m' w',
     RemovePicoById m k w = (true, m', w') /\
     entryCount m' = entryCount m - 1 /\
     List.length (entries m') = List.length (entries m) /\
     (forall j, (j < N.to_nat k)%nat -> entries m' !! j = entries m !! j) /\
     (forall j, (N.to_nat k <= j < N.to_nat (entryCount m) - 1)%nat ->
        exists e, entries m !! (S j) = Some e /\
                  entries m' !! j = Some (set_id e (N.of_nat j))) /\
     entries m' !! (N.to_nat (entryCount m) - 1)%nat = Some zero_entry /\
     (forall j, (N.to_nat (entryCount m) <= j)%nat ->
        entries m' !! j = entries m !! j) /\
     (baseAddress m', blockSize m', usedSize m', entryCapacity m',
      interPicoPadding m')
     = (baseAddress m, blockSize m, usedSize m, entryCapacity m,
        interPicoPadding m) /\
     w' = (if is_null (data (entry_at (entries m) (N.to_nat k))) then w
           else VirtualFree (data (entry_at (entries m) (N.to_nat k))) w) /\
     (forall b, data (entry_at (entries m) (N.to_nat k)) = Ptr b 0 ->
        forall r, In r (live w') -> r_block r <> b)) /\
  (entryCount m <= k -> RemovePicoById m k w = (false, m, w)).
Proof.
  intros Hfit. split.
  - intros Hk. exact (RemovePicoById_hit m k w Hfit Hk).
  - apply RemovePicoById_miss.
Qed.

Lemma RemovePicoById_compacts_witness :
  fits manager_ABC /\
  (exists m' w',
     RemovePicoById manager_ABC 1 (world_ex (always true)) = (true, m', w') /\
     entryCount m' = 2 /\
     entries m' !! 2%nat = Some zero_entry) /\
  RemovePicoById manager_ABC 3 (world_ex (always true))
  = (false, manager_ABC, world_ex (always true)).
Proof.
  assert (Hfit : fits manager_ABC).
  { split; [reflexivity | vm_compute; repeat constructor]. }
  destruct (RemovePicoById_compacts manager_ABC 1 (world_ex (always true)) Hfit)
    as [Hhit _].
  destruct (RemovePicoById_compacts manager_ABC 3 (world_ex (always true)) Hfit)
    as [_ Hmiss].
  split; [exact Hfit|]. split.
  - destruct Hhit as (m' & w' & Heq & Hcount & _ & _ & _ & Hlast & _);
      [reflexivity|].
    exists m', w'. split; [exact Heq|]. split; [exact Hcount | exact Hlast].
  - apply Hmiss. vm_compute. discriminate.
Defined.

(** ** The catalog invariant *)

Lemma sized_fits m : sized m -> catalog_inv m -> fits m.
Proof. intros [Hc Hl] [Hle _]. split; lia. Qed.

Lemma fresh_entry_id tcg i nm v : id (fresh_entry tcg i nm v) = i.
Proof. reflexivity. Qed.

Lemma AddPico_inv tcg m nm v ok m' :
  sized m -> catalog_inv m -> AddPico tcg m nm v = (ok, m') ->
  sized m' /\ catalog_inv m' /\
  entryCount m' = entryCount m + (if ok then 1 else 0).
Proof.
  intros Hs Hinv. pose proof Hs as [Hcap Hlen]. pose proof Hinv as [Hle Hid].
  unfold AddPico. destruct nm as [nm|].
  2:{ intros [= <- <-]. rewrite N.add_0_r. auto. }
  destruct (is_null v).
  { intros [= <- <-]. rewrite N.add_0_r. auto. }
  destruct (N.leb_spec (entryCapacity m) (entryCount m)) as [Hfull|Hroom].
  { intros [= <- <-]. rewrite N.add_0_r. auto. }
  change (mkEntry (entryCount m) _ NULL _ NULL _ NULL v)
    with (fresh_entry tcg (entryCount m) nm v).
  generalize (fresh_entry_id tcg (entryCount m) nm v).
  generalize (fresh_entry tcg (entryCount m) nm v). intros e He.
  intros [= <- <-]. unfold sized, catalog_inv.
  cbn [entryCount entries entryCapacity set_entryCount set_entries].
  rewrite wrapD_small by lia.
  split; [split; [exact Hcap | now rewrite length_insert]|].
  split; [|reflexivity].
  split; [lia|]. intros i Hi.
  destruct (Nat.eq_dec i (N.to_nat (entryCount m))) as [->|Hne].
  - eexists. split; [apply list_lookup_insert_eq; lia|]. rewrite He. lia.
  - rewrite list_lookup_insert_ne by lia. apply Hid. lia.
Qed.

Lemma RemovePicoById_inv m k w ok m' w' :
  sized m -> catalog_inv m -> RemovePicoById m k w = (ok, m', w') ->
  sized m' /\ catalog_inv m'.
Proof.
  intros Hs Hinv Hrun. pose proof Hs as [Hcap Hlen]. pose proof Hinv as [Hle Hid].
  destruct (N.lt_ge_cases k (entryCount m)) as [Hk|Hk].
  - destruct (RemovePicoById_hit m k w (sized_fits m Hs Hinv) Hk)
      as (m1 & w1 & Heq & Hc).
    rewrite Heq in Hrun. injection Hrun as <- <- <-.
    destruct Hc as (Hcount & Hlen' & Hbefore & Hshift & _ & _ & Hfields & _).
    injection Hfields as _ _ _ Hcap' _.
    split; [unfold sized; rewrite Hcap', Hlen'; exact Hs|].
    split; [rewrite Hcount, Hcap'; lia|].
    intros i Hi. rewrite Hcount in Hi.
    destruct (Nat.lt_ge_cases i (N.to_nat k)) as [Hlt|Hge].
    + rewrite Hbefore by exact Hlt. apply Hid. lia.
    + destruct (Hshift i) as (e & _ & He); [lia|].
      exists (set_id e (N.of_nat i)). split; [exact He | reflexivity].
  - rewrite (RemovePicoById_miss m k w Hk) in Hrun.
    injection Hrun as <- <- <-. auto.
Qed.

Lemma GetPicoByName_in_catalog m nm i :
  GetPicoByName m nm = Some i -> (i < N.to_nat (entryCount m))%nat.
Proof.
  unfold GetPicoByName. destruct nm as [q|]; [|discriminate].
  match goal with
  | |- GetPicoByName_loop ?es ?q ?len ?n 0 = _ -> _ =>
      pose proof (GetPicoByName_loop_first es q len n 0) as H
  end.
  intros Heq. rewrite Heq in H. lia.
Qed.

Lemma RemovePicoByName_inv m nm w ok m' w' :
  sized m -> catalog_inv m -> RemovePicoByName m nm w = (ok, m', w') ->
  sized m' /\ catalog_inv m'.
Proof.
  intros Hs Hinv. unfold RemovePicoByName.
  destruct nm as [q|]; [|intros [= <- <- <-]; auto].
  destruct (GetPicoByName m (Some q)) as [i|]; [|intros [= <- <- <-]; auto].
  now apply RemovePicoById_inv.
Qed.

Lemma apply_op_inv tcg op m w ok m' w' :
  sized m -> catalog_inv m -> apply_op tcg op (m, w) = (ok, (m', w')) ->
  sized m' /\ catalog_inv m'.
Proof.
  intros Hs Hinv. destruct op as [nm v|k|nm]; cbn [apply_op fst snd].
  - destruct (AddPico tcg m nm v) as [ok1 m1] eqn:Heq. intros [= <- <- <-].
    destruct (AddPico_inv _ _ _ _ _ _ Hs Hinv Heq) as (? & ? & _). auto.
  - destruct (RemovePicoById m k w) as [[ok1 m1] w1] eqn:Heq. intros [= <- <- <-].
    eapply RemovePicoById_inv; eauto.
  - destruct (RemovePicoByName m nm w) as [[ok1 m1] w1] eqn:Heq.
    intros [= <- <- <-]. eapply RemovePicoByName_inv; eauto.
Qed.

Lemma run_ops_inv tcg ops : forall m w oks m' w',
  sized m -> catalog_inv m -> run_ops tcg ops (m, w) = (oks, (m', w')) ->
  sized m' /\ catalog_inv m'.
Proof.
  induction ops as [|op ops IH]; intros m w oks m' w' Hs Hinv; cbn [run_ops].
  - intros [= <- <- <-]. auto.
  - destruct (apply_op tcg op (m, w)) as [ok [m1 w1]] eqn:Hop.
    destruct (run_ops tcg ops (m1, w1)) as [oks1 [m2 w2]] eqn:Hrun.
    intros [= <- <- <-].
    destruct (apply_op_inv _ _ _ _ _ _ _ Hs Hinv Hop) as [Hs1 Hinv1].
    eapply IH; eauto.
Qed.

Lemma run_registrations_count tcg ops : forall m w oks m' w',
  sized m -> catalog_inv m -> forallb is_Register ops = true ->
  run_ops tcg ops (m, w) = (oks, (m', w')) ->
  entryCount m' = entryCount m + N.of_nat (successes oks).
Proof.
  induction ops as [|op ops IH]; intros m w oks m' w' Hs Hinv Hall; cbn [run_ops].
  - intros [= <- <- <-]. cbn. lia.
  - cbn [forallb] in Hall. apply andb_true_iff in Hall as [Hop Hall].
    destruct op as [nm v| |]; try discriminate Hop. cbn [apply_op fst snd].
    destruct (AddPico tcg m nm v) as [ok m1] eqn:Hadd.
    destruct (run_ops tcg ops (m1, w)) as [oks1 [m2 w2]] eqn:Hrun.
    intros [= <- <- <-].
    destruct (AddPico_inv _ _ _ _ _ _ Hs Hinv Hadd) as (Hs1 & Hinv1 & Hc).
    rewrite (IH _ _ _ _ _ Hs1 Hinv1 Hall Hrun), Hc.
    unfold successes. destruct ok; cbn [List.filter List.length]; lia.
Qed.

Lemma PicoManagerInit_inv es cap :
  cap < 2 ^ 32 -> (N.to_nat cap <= List.length es)%nat ->
  sized (PicoManagerInit es cap) /\ catalog_inv (PicoManagerInit es cap).
Proof.
  intros Hcap Hlen. split; [split; assumption|].
  split; [cbn; lia|]. cbn. intros i Hi. lia.
Qed.

(** C8.  Start from [PicoManagerInit] on an array with room for the
    declared capacity (a DWORD), and run any sequence of [AddPico],
    [RemovePicoById] and [RemovePicoByName] calls, whatever their
    arguments and results.  The manager reached satisfies the catalog
    invariant: [entryCount <= entryCapacity], and every position
    [i < entryCount] holds an entry whose [id] is [i].  (The sequence is
    arbitrary, so this holds after each operation of a longer run.)  When
    the sequence consists of registrations only, [entryCount] is the
    number of calls that returned [TRUE]. *)
Theorem catalog_invariant_maintained (tcg : LibTcg) (es : list PICO_ENTRY)
        (cap : N) (w : World) (ops : list Op)
        (oks : list bool) (m' : PICO_MANAGER) (w' : World) :
  cap < 2 ^ 32 -> (N.to_nat cap <= List.length es)%nat ->
  run_ops tcg ops (PicoManagerInit es cap, w) = (oks, (m', w')) ->
  catalog_inv m' /\
  (forallb is_Register ops = true -> entryCount m' = N.of_nat (successes oks)).
Proof.
  intros Hcap Hlen Hrun.
  destruct (PicoManagerInit_inv es cap Hcap Hlen) as [Hs Hinv].
  split.
  - exact (proj2 (run_ops_inv tcg ops _ _ _ _ _ Hs Hinv Hrun)).
  - intros Hall.
    now rewrite (run_registrations_count tcg ops _ _ _ _ _ Hs Hinv Hall Hrun).
Qed.

Lemma catalog_invariant_maintained_witness :
  let ops := [Register (Some (str "A")) vaultA;
              Register (Some (str "B")) vaultB;
              Register None vaultC;
              RemoveByName (Some (str "A"));
              Register (Some (str "C")) vaultC;
              Register (Some (str "D")) vaultA;
              RemoveById 7] in
  let r := run_ops tcg_ex ops
             (PicoManagerInit (repeat zero_entry 2) 2, world_ex (always true)) in
  fst r = [true; true; false; true; true; false; false] /\
  catalog_inv (fst (snd r)).
Proof.
  intros ops r. split; [vm_compute; reflexivity|].
  refine (proj1 (catalog_invariant_maintained tcg_ex (repeat zero_entry 2) 2
                   (world_ex (always true)) ops
                   (fst r) (fst (snd r)) (snd (snd r)) _ _ _)).
  - reflexivity.
  - vm_compute. repeat constructor.
  - vm_compute. reflexivity.
Defined.

(** ** Teardown *)

(** C9.  [DestroyManager] returns [TRUE] with [baseAddress] null and
    [blockSize], [usedSize] and [entryCount] zero; the array of entries,
    with every data pointer and every vault pointer in it, is left as it
    was, and so are the capacity and the padding.  The only effect on the
    world is the release of the block handed in as [picoBlock]: no region
    is created, every region other than that block stays reserved (so
    every entry's data block does), and no relocation is performed. *)
Theorem DestroyManager_releases_only_block (m : PICO_MANAGER) (picoBlock : ptr)
        (w : World) :
  exists m' w',
    DestroyManager m picoBlock w = (true, m', w') /\
    baseAddress m' = NULL /\ blockSize m' = 0 /\ usedSize m' = 0 /\
    entryCount m' = 0 /\
    entries m' = entries m /\
    entryCapacity m' = entryCapacity m /\
    interPicoPadding m' = interPicoPadding m /\
    (forall r, In r (live w') -> In r (live w)) /\
    (forall r, In r (live w) -> picoBlock <> Ptr (r_block r) 0 ->
       In r (live w')) /\
    (forall b, picoBlock = Ptr b 0 ->
       forall r, In r (live w') -> r_block r <> b) /\
    (forall e, In e (entries m) -> data e <> NULL -> data e <> picoBlock ->
       forall r, In r (live w) -> data e = Ptr (r_block r) 0 ->
         In r (live w')) /\
    relocated w' = relocated w /\ allocs w' = allocs w.
Proof.
  unfold DestroyManager. eexists _, _. split; [reflexivity|].
  cbn [baseAddress blockSize usedSize entryCount entries entryCapacity
       interPicoPadding set_entryCount set_usedSize set_blockSize
       set_baseAddress].
  repeat (split; [reflexivity|]).
  assert (Hkept : forall r, In r (live w) -> picoBlock <> Ptr (r_block r) 0 ->
            In r (live (if is_null picoBlock then w else VirtualFree picoBlock w))).
  { intros r Hr Hne. destruct (is_null picoBlock); [exact Hr|].
    now apply VirtualFree_live_kept. }
  split.
  { intros r. destruct (is_null picoBlock); [tauto|]. apply VirtualFree_live_incl. }
  split; [exact Hkept|].
  split.
  { intros b -> r. cbn [is_null]. apply VirtualFree_live_gone. }
  split.
  { intros e _ _ Hne r Hr Hd. apply Hkept; [exact Hr | congruence]. }
  destruct picoBlock as [|b [|o]]; cbn; auto.
Qed.

(** ** The load loop *)

Lemma VirtualAlloc_grows size prot w p w' :
  VirtualAlloc size prot w = (p, w') ->
  (forall r, In r (live w) -> In r (live w')) /\
  relocated w' = relocated w /\ oracle w' = oracle w /\
  allocs w' = S (allocs w).
Proof.
  unfold VirtualAlloc. destruct (oracle w (allocs w)); intros [= <- <-]; cbn.
  - repeat split; auto.
  - repeat split; auto.
Qed.

Lemma VirtualAlloc_granted size prot w p w' :
  VirtualAlloc size prot w = (p, w') -> is_null p = false ->
  oracle w (allocs w) = true /\
  p = Ptr (N.of_nat (S (allocs w))) 0 /\
  In (mkRegion (N.of_nat (S (allocs w))) size prot) (live w').
Proof.
  unfold VirtualAlloc. destruct (oracle w (allocs w)); intros [= <- <-]; cbn.
  - intros _. repeat split; auto.
  - discriminate.
Qed.

Lemma VirtualAlloc_refused size prot w p w' :
  VirtualAlloc size prot w = (p, w') -> is_null p = true ->
  oracle w (allocs w) = false /\ p = NULL /\
  live w' = live w /\ relocated w' = relocated w.
Proof.
  unfold VirtualAlloc. destruct (oracle w (allocs w)); intros [= <- <-]; cbn.
  - discriminate.
  - intros _. repeat split; auto.
Qed.

Section LoadLoop.

Variables (tcg : LibTcg) (m : PICO_MANAGER) (fp : N) (funcs : ptr).

Local Abbreviation loop := (LoadPico_loop tcg m fp funcs).
Local Abbreviation pad := (interPicoPadding m).
Local Abbreviation loaded_entry := (loaded_entry tcg m).

(** One iteration, case by case. *)
Lemma loop_step n i off es w :
  loop (S n) i off es w =
  let e := entry_at es i in
  if placed e then loop n (S i) (wrapS (off + wrapS (codeSize e + pad))) es w
  else if negb (has_vault e) then loop n (S i) off es w
  else if blockSize m <? wrapS (wrapS (off + wrapS (codeSize e + pad)) + fp)
  then (InsufficientSpace, off, es, w)
  else
    let '(d, w1) := VirtualAlloc (dataSize e) PAGE_READWRITE w in
    if is_null d
    then (AllocationFailed, off,
          <[i := set_data (set_code e (ptr_add (baseAddress m) off)) d]> es, w1)
    else loop n (S i) (wrapS (off + wrapS (codeSize e + pad)))
              (<[i := loaded_entry e off d]> es)
              (PicoLoad funcs (vault e) (ptr_add (baseAddress m) off) d w1).
Proof.
  cbn [LoadPico_loop]. cbv zeta. unfold placed, has_vault.
  destruct (negb (is_null (code (entry_at es i)))); [reflexivity|].
  rewrite negb_involutive.
  destruct (is_null (vault (entry_at es i))); [reflexivity|].
  destruct (blockSize m <? _); [reflexivity|].
  cbn [dataSize set_code].
  destruct (VirtualAlloc _ _ _) as [d w1].
  reflexivity.
Qed.

(** The loop writes only the cells of its range, never shrinks the
    world and never changes the array length. *)
Lemma loop_frame n : forall i off es w o off' es' w',
  loop n i off es w = (o, off', es', w') ->
  List.length es' = List.length es /\
  (forall j, (j < i)%nat \/ (i + n <= j)%nat -> es' !! j = es !! j) /\
  (forall r, In r (live w) -> In r (live w')) /\
  (forall r, In r (relocated w) -> In r (relocated w')) /\
  oracle w' = oracle w.
Proof.
  induction n as [|n IH]; intros i off es w o off' es' w'.
  - intros [= <- <- <- <-]. auto.
  - rewrite loop_step. cbv zeta.
    destruct (placed (entry_at es i)).
    { intros H. apply IH in H as (Hl & Hf & Hrest). split; [exact Hl|].
      split; [|exact Hrest]. intros j Hj. apply Hf. lia. }
    destruct (negb (has_vault (entry_at es i))).
    { intros H. apply IH in H as (Hl & Hf & Hrest). split; [exact Hl|].
      split; [|exact Hrest]. intros j Hj. apply Hf. lia. }
    destruct (blockSize m <? _).
    { intros [= <- <- <- <-]. auto. }
    destruct (VirtualAlloc _ _ _) as [d w1] eqn:Ha.
    apply VirtualAlloc_grows in Ha as (Hlive & Hrel & Hor & _).
    destruct (is_null d).
    { intros [= <- <- <- <-]. split; [apply length_insert|].
      split; [intros j Hj; apply list_lookup_insert_ne; lia|].
      split; [exact Hlive|]. split; [|exact Hor]. now rewrite Hrel. }
    intros H. apply IH in H as (Hl & Hf & Hlive' & Hrel' & Hor').
    split; [now rewrite Hl, length_insert|].
    split; [intros j Hj; rewrite Hf by lia; apply list_lookup_insert_ne; lia|].
    split; [auto|].
    split; [|now rewrite Hor'].
    intros r Hr. apply Hrel'. cbn. rewrite Hrel. apply in_or_app. now left.
Qed.

Lemma occupied_in_array es i :
  placed (entry_at es i) || has_vault (entry_at es i) = true ->
  es !! i = Some (entry_at es i).
Proof.
  unfold entry_at. destruct (es !! i); [reflexivity|]. cbn. discriminate.
Qed.

(** Walking one entry further. *)
Lemma replay_step es i k off :
  replay pad (take (S k) (drop i es)) off =
  replay pad (take k (drop (S i) es))
         (if placed (entry_at es i) || has_vault (entry_at es i)
          then wrapS (off + wrapS (codeSize (entry_at es i) + pad))
          else off).
Proof.
  unfold entry_at. destruct (es !! i) as [x|] eqn:Hx.
  - rewrite (drop_S _ _ _ Hx). cbn.
    destruct (placed x || has_vault x); reflexivity.
  - apply lookup_ge_None in Hx.
    rewrite !drop_ge by lia. cbn. now rewrite take_nil.
Qed.

Lemma replay_insert_before es i x j k off :
  (i < j)%nat ->
  replay pad (take k (drop j (<[i := x]> es))) off =
  replay pad (take k (drop j es)) off.
Proof. intros H. now rewrite drop_insert_lt by lia. Qed.

(** A walk that ends in [LoadOk]: the final offset is the replayed
    one; placed entries and empty slots are left alone; every other
    entry of the range is loaded at its replayed offset, with a data
    block of its own and a relocation on record. *)
Lemma loop_ok n : forall i off es w off' es' w',
  loop n i off es w = (LoadOk, off', es', w') ->
  off' = replay pad (take n (drop i es)) off /\
  forall j, (i <= j < i + n)%nat ->
    let e := entry_at es j in
    let off_j := replay pad (take (j - i) (drop i es)) off in
    (placed e || negb (has_vault e) = true -> es' !! j = es !! j) /\
    (placed e = false -> has_vault e = true ->
     exists b,
       es' !! j = Some (loaded_entry e off_j (Ptr b 0)) /\
       In (mkRegion b (dataSize e) PAGE_READWRITE) (live w') /\
       In (mkRelocation funcs (vault e) (ptr_add (baseAddress m) off_j)
                        (Ptr b 0)) (relocated w')).
Proof.
  induction n as [|n IH]; intros i off es w off' es' w'.
  - intros [= <- <- <-]. split; [now rewrite take_0|]. intros j Hj. lia.
  - rewrite loop_step. cbv zeta. rewrite replay_step.
    destruct (placed (entry_at es i)) eqn:Hp; cbn [orb].
    { intros H. pose proof (loop_frame _ _ _ _ _ _ _ _ _ H) as (_ & Hf & _).
      apply IH in H as [Hoff Hj]. split; [exact Hoff|].
      intros j Hr. destruct (Nat.eq_dec j i) as [->|Hne].
      - rewrite Hp. cbn [orb]. split; [intros _; apply Hf; lia | discriminate].
      - specialize (Hj j ltac:(lia)). cbv zeta in Hj.
        replace (j - i)%nat with (S (j - S i)) by lia.
        rewrite replay_step, Hp. cbn [orb]. exact Hj. }
    destruct (has_vault (entry_at es i)) eqn:Hv; cbn [negb].
    2:{ intros H. pose proof (loop_frame _ _ _ _ _ _ _ _ _ H) as (_ & Hf & _).
        apply IH in H as [Hoff Hj]. split; [exact Hoff|].
        intros j Hr. destruct (Nat.eq_dec j i) as [->|Hne].
        - rewrite Hp, Hv. cbn [orb negb].
          split; [intros _; apply Hf; lia | discriminate].
        - specialize (Hj j ltac:(lia)). cbv zeta in Hj.
          replace (j - i)%nat with (S (j - S i)) by lia.
          rewrite replay_step, Hp, Hv. cbn [orb]. exact Hj. }
    destruct (blockSize m <? _); [discriminate|].
    destruct (VirtualAlloc _ _ _) as [d w1] eqn:Ha.
    destruct (is_null d) eqn:Hd; [discriminate|].
    apply VirtualAlloc_granted in Ha as (_ & -> & Hreg); [|exact Hd].
    intros H. pose proof (loop_frame _ _ _ _ _ _ _ _ _ H) as (_ & Hf & Hlive & Hrel & _).
    apply IH in H as [Hoff Hj].
    rewrite replay_insert_before in Hoff by lia.
    split; [exact Hoff|].
    assert (Hin : es !! i = Some (entry_at es i)).
    { apply occupied_in_array. now rewrite Hv, orb_true_r. }
    apply lookup_lt_Some in Hin.
    intros j Hr. destruct (Nat.eq_dec j i) as [->|Hne].
    + rewrite Hp, Hv. cbn [orb negb]. split; [discriminate|]. intros _ _.
      rewrite Nat.sub_diag, take_0. cbn [replay].
      eexists. split; [|split].
      * rewrite Hf by lia. now apply list_lookup_insert_eq.
      * apply Hlive. cbn. exact Hreg.
      * apply Hrel. cbn. apply in_or_app. right. now left.
    + specialize (Hj j ltac:(lia)). cbv zeta in Hj.
      rewrite entry_at_insert_ne in Hj by lia.
      rewrite replay_insert_before in Hj by lia.
      rewrite list_lookup_insert_ne in Hj by lia.
      replace (j - i)%nat with (S (j - S i)) by lia.
      rewrite replay_step, Hp, Hv. cbn [orb]. exact Hj.
Qed.

(** A walk that stops for lack of room has finished a shorter walk
    with [LoadOk], and stands before an unplaced module that does not
    fit at the offset reached. *)
Lemma loop_no_space n : forall i off es w off' es' w',
  loop n i off es w = (InsufficientSpace, off', es', w') ->
  exists k, (k < n)%nat /\
    loop k i off es w = (LoadOk, off', es', w') /\
    placed (entry_at es' (i + k)) = false /\
    has_vault (entry_at es' (i + k)) = true /\
    blockSize m <
      wrapS (wrapS (off' + wrapS (codeSize (entry_at es' (i + k)) + pad)) + fp).
Proof.
  induction n as [|n IH]; intros i off es w off' es' w'; [discriminate|].
  rewrite loop_step. cbv zeta.
  assert (Hnext : forall off1 es1 w1,
             loop n (S i) off1 es1 w1 = (InsufficientSpace, off', es', w') ->
             loop 1 i off es w = loop 0 (S i) off1 es1 w1 ->
             (forall k, loop (S k) i off es w = loop k (S i) off1 es1 w1) ->
             exists k, (k < S n)%nat /\
               loop k i off es w = (LoadOk, off', es', w') /\
               placed (entry_at es' (i + k)) = false /\
               has_vault (entry_at es' (i + k)) = true /\
               blockSize m <
               wrapS (wrapS (off' + wrapS (codeSize (entry_at es' (i + k)) + pad)) + fp)).
  { intros off1 es1 w1 H _ Hk. apply IH in H as (k & Hlt & Hrun & Hrest).
    exists (S k). split; [lia|]. rewrite Hk. split; [exact Hrun|].
    now replace (i + S k)%nat with (S i + k)%nat by lia. }
  destruct (placed (entry_at es i)) eqn:Hp.
  { intros H. eapply Hnext; [exact H | |];
      [|intros k]; rewrite loop_step; cbv zeta; now rewrite Hp. }
  destruct (has_vault (entry_at es i)) eqn:Hv; cbn [negb].
  2:{ intros H. eapply Hnext; [exact H | |];
        [|intros k]; rewrite loop_step; cbv zeta; now rewrite Hp, Hv. }
  destruct (blockSize m <? _) eqn:Hsp.
  { intros [= <- <- <-]. exists 0%nat. rewrite Nat.add_0_r.
    split; [lia|]. split; [reflexivity|]. split; [exact Hp|].
    split; [exact Hv|]. now apply N.ltb_lt. }
  destruct (VirtualAlloc _ _ _) as [d w1] eqn:Ha.
  destruct (is_null d) eqn:Hd; [discriminate|].
  intros H. eapply Hnext; [exact H | |];
    [|intros k]; rewrite loop_step; cbv zeta; now rewrite Hp, Hv, Hsp, Ha, Hd.
Qed.

(** Walking a second time over what a successful walk left changes
    nothing. *)
Lemma loop_again n : forall i off es w off' es' w',
  is_null (baseAddress m) = false ->
  loop n i off es w = (LoadOk, off', es', w') ->
  loop n i off es' w' = (LoadOk, off', es', w').
Proof.
  intros i off es w off' es' w' Hbase. revert i off es w.
  induction n as [|n IH]; intros i off es w.
  - now intros [= <- <- <-].
  - rewrite !loop_step. cbv zeta.
    destruct (placed (entry_at es i)) eqn:Hp.
    { intros H. pose proof (loop_frame _ _ _ _ _ _ _ _ _ H) as (_ & Hf & _).
      unfold entry_at at 1 2. rewrite Hf by lia. fold (entry_at es i).
      rewrite Hp. eapply IH, H. }
    destruct (has_vault (entry_at es i)) eqn:Hv; cbn [negb].
    2:{ intros H. pose proof (loop_frame _ _ _ _ _ _ _ _ _ H) as (_ & Hf & _).
        unfold entry_at at 1 2 3. rewrite Hf by lia. fold (entry_at es i).
        rewrite Hp, Hv. cbn [negb]. eapply IH, H. }
    destruct (blockSize m <? _); [discriminate|].
    destruct (VirtualAlloc _ _ _) as [d w1] eqn:Ha.
    destruct (is_null d) eqn:Hd; [discriminate|].
    intros H. pose proof (loop_frame _ _ _ _ _ _ _ _ _ H) as (_ & Hf & _).
    assert (Hin : es !! i = Some (entry_at es i)).
    { apply occupied_in_array. now rewrite Hv, orb_true_r. }
    apply lookup_lt_Some in Hin.
    assert (He : entry_at es' i = loaded_entry (entry_at es i) off d).
    { apply entry_at_Some. rewrite Hf by lia. now apply list_lookup_insert_eq. }
    rewrite He.
    assert (Hpl : placed (loaded_entry (entry_at es i) off d) = true).
    { unfold placed. cbn. destruct (baseAddress m); [discriminate | reflexivity]. }
    rewrite Hpl. eapply IH, H.
Qed.

End LoadLoop.

(** ** [LoadPico] *)

Section Load.

Variables (tcg : LibTcg) (fp : N) (funcs : ptr).

(** The loop reads three fields of the manager and nothing else. *)
Lemma loop_fields m1 m2 n : forall i off es w,
  baseAddress m1 = baseAddress m2 -> blockSize m1 = blockSize m2 ->
  interPicoPadding m1 = interPicoPadding m2 ->
  LoadPico_loop tcg m1 fp funcs n i off es w =
  LoadPico_loop tcg m2 fp funcs n i off es w.
Proof.
  intros i off es w Hb Hs Hp. revert i off es w.
  induction n as [|n IH]; intros i off es w; [reflexivity|].
  rewrite !loop_step. cbv zeta. rewrite Hb, Hs, Hp.
  destruct (placed (entry_at es i)); [apply IH|].
  destruct (negb (has_vault (entry_at es i))); [apply IH|].
  destruct (blockSize m2 <? _); [reflexivity|].
  destruct (VirtualAlloc _ _ _) as [d w1].
  destruct (is_null d); [reflexivity|].
  unfold loaded_entry. rewrite Hb. apply IH.
Qed.

(** [LoadPico] on a manager that has its block. *)
Lemma LoadPico_allocated m upTo w :
  is_null (baseAddress m) = false -> blockSize m <> 0 ->
  LoadPico tcg m upTo fp funcs w =
  let '(o, off, es, w') :=
    LoadPico_loop tcg m fp funcs (load_bound m upTo) 0 0 (entries m) w in
  match o with
  | LoadOk => (LoadOk, set_usedSize (set_entries m es) off, w')
  | _ => (o, set_entries m es, w')
  end.
Proof.
  intros Hb Hs. unfold LoadPico. rewrite Hb.
  apply N.eqb_neq in Hs. rewrite Hs. reflexivity.
Qed.

Lemma LoadPico_not_allocated m upTo w :
  is_null (baseAddress m) = true \/ blockSize m = 0 ->
  LoadPico tcg m upTo fp funcs w = (NotAllocated, m, w).
Proof.
  intros H. unfold LoadPico.
  destruct H as [-> | ->]; [reflexivity | now rewrite orb_true_r].
Qed.

Lemma LoadPico_cases m upTo w o m' w' :
  LoadPico tcg m upTo fp funcs w = (o, m', w') ->
  (o = NotAllocated /\ m' = m /\ w' = w) \/
  (is_null (baseAddress m) = false /\ blockSize m <> 0 /\
   exists off es,
     LoadPico_loop tcg m fp funcs (load_bound m upTo) 0 0 (entries m) w
     = (o, off, es, w') /\
     m' = (if BOOL_of o then set_usedSize (set_entries m es) off
           else set_entries m es)).
Proof.
  destruct (is_null (baseAddress m)) eqn:Hb.
  { rewrite LoadPico_not_allocated by now left. intros [= <- <- <-]. now left. }
  destruct (N.eq_dec (blockSize m) 0) as [Hs|Hs].
  { rewrite LoadPico_not_allocated by now right. intros [= <- <- <-]. now left. }
  rewrite LoadPico_allocated by assumption.
  destruct (LoadPico_loop _ _ _ _ _ _ _ _ _) as [[[o1 off] es] w1] eqn:Hloop.
  intros H. right. split; [reflexivity|]. split; [exact Hs|].
  exists off, es.
  destruct o1; injection H as <- <- <-; split; reflexivity.
Qed.

End Load.

(** C2.  When [LoadPico] leaves through the [return FALSE] of the space
    check, [usedSize] and the other scalar fields of the manager are what
    they were before the call, and there is a position [k] of the
    catalog such that: the entry at [k] is an unplaced module with a
    vault which does not fit at the offset replayed over the entries
    before it; no cell from [k] on has been written; and each entry
    before [k] is either untouched (it was already placed, or is an empty
    slot) or has been loaded by this call and keeps what the call gave it:
    its code pointer at the replayed offset, a data block that is still
    reserved, its entry point, and its relocation on record. *)
Theorem LoadPico_InsufficientSpace_keeps_progress
        (tcg : LibTcg) (m : PICO_MANAGER) (upToEntryId finalPadding : N)
        (funcs : ptr) (w : World) (m' : PICO_MANAGER) (w' : World) :
  LoadPico tcg m upToEntryId finalPadding funcs w = (InsufficientSpace, m', w') ->
  BOOL_of InsufficientSpace = false /\
  usedSize m' = usedSize m /\
  (baseAddress m', blockSize m', entryCount m', entryCapacity m',
   interPicoPadding m')
  = (baseAddress m, blockSize m, entryCount m, entryCapacity m,
     interPicoPadding m) /\
  exists k : nat,
    (k < N.to_nat (entryCount m))%nat /\
    placed (entry_at (entries m) k) = false /\
    has_vault (entry_at (entries m) k) = true /\
    blockSize m <
      wrapS (wrapS (replay (interPicoPadding m) (take k (entries m)) 0
                    + wrapS (codeSize (entry_at (entries m) k)
                             + interPicoPadding m))
             + finalPadding) /\
    (forall j, (k <= j)%nat -> entries m' !! j = entries m !! j) /\
    (forall j, (j < k)%nat ->
       let e := entry_at (entries m) j in
       let off_j := replay (interPicoPadding m) (take j (entries m)) 0 in
       (placed e || negb (has_vault e) = true ->
        entries m' !! j = entries m !! j) /\
       (placed e = false -> has_vault e = true ->
        exists b,
          entries m' !! j = Some (loaded_entry tcg m e off_j (Ptr b 0)) /\
          In (mkRegion b (dataSize e) PAGE_READWRITE) (live w') /\
          In (mkRelocation funcs (vault e) (ptr_add (baseAddress m) off_j)
                           (Ptr b 0)) (relocated w'))).
Proof.
  intros H. apply LoadPico_cases in H as [(Ho & _) | (Hb & Hs & off & es & Hloop & ->)];
    [discriminate|].
  cbn [BOOL_of]. split; [reflexivity|]. split; [reflexivity|].
  split; [reflexivity|]. cbn [entries set_entries].
  apply loop_no_space in Hloop as (k & Hk & Hrun & Hp & Hv & Hsp).
  pose proof (loop_frame _ _ _ _ _ _ _ _ _ _ _ _ _ Hrun) as (_ & Hf & _).
  apply loop_ok in Hrun as [Hoff Hj].
  rewrite drop_0 in Hoff. cbn [Nat.add] in Hp, Hv, Hsp.
  assert (Hek : entry_at es k = entry_at (entries m) k).
  { unfold entry_at. rewrite Hf by lia. reflexivity. }
  rewrite Hek in Hp, Hv, Hsp. rewrite Hoff in Hsp.
  exists k. split.
  { unfold load_bound in Hk. lia. }
  split; [exact Hp|]. split; [exact Hv|]. split; [exact Hsp|].
  split; [intros j Hge; apply Hf; lia|].
  intros j Hlt. specialize (Hj j ltac:(lia)).
  rewrite Nat.sub_0_r, drop_0 in Hj. exact Hj.
Qed.

Lemma LoadPico_InsufficientSpace_keeps_progress_witness :
  let m := with_block manager_ABC (Ptr 7 0) 381 in
  let r := LoadPico tcg_ex m DWORD_MINUS_ONE 0 NULL (world_ex (always true)) in
  fst (fst r) = InsufficientSpace /\
  usedSize (snd (fst r)) = usedSize m /\
  List.map code (entries (snd (fst r))) = [Ptr 7 0; Ptr 7 116; NULL; NULL].
Proof.
  intros m r. split; [vm_compute; reflexivity|].
  split; [|vm_compute; reflexivity].
  refine (proj1 (proj2 (LoadPico_InsufficientSpace_keeps_progress
                          tcg_ex m DWORD_MINUS_ONE 0 NULL (world_ex (always true))
                          (snd (fst r)) (snd r) _))).
  vm_compute. reflexivity.
Defined.

(** C6.  Whatever the manager and the world, when a call of [LoadPico]
    returns [TRUE], the same call repeated at once (same boundary, same
    final padding) returns [TRUE] as well and leaves the manager and the
    world exactly as the first call left them: no entry changes (so no
    code pointer, data pointer or entry point does), [usedSize] keeps the
    value the first call gave it, nothing is reserved and nothing is
    relocated. *)
Theorem LoadPico_twice_same (tcg : LibTcg) (m : PICO_MANAGER)
        (upToEntryId finalPadding : N) (funcs : ptr) (w : World)
        (m' : PICO_MANAGER) (w' : World) :
  LoadPico tcg m upToEntryId finalPadding funcs w = (LoadOk, m', w') ->
  exists m'' w'',
    LoadPico tcg m' upToEntryId finalPadding funcs w' = (LoadOk, m'', w'') /\
    entries m'' = entries m' /\
    usedSize m'' = usedSize m' /\
    m'' = m' /\ w'' = w'.
Proof.
  intros H. apply LoadPico_cases in H as [(Ho & _) | (Hb & Hs & off & es & Hloop & ->)];
    [discriminate|].
  cbn [BOOL_of]. exists (set_usedSize (set_entries m es) off), w'.
  split; [|auto].
  rewrite LoadPico_allocated by assumption.
  rewrite (loop_fields tcg finalPadding funcs
             (set_usedSize (set_entries m es) off) m) by reflexivity.
  replace (load_bound (set_usedSize (set_entries m es) off) upToEntryId)
    with (load_bound m upToEntryId) by reflexivity.
  cbn [entries set_usedSize set_entries].
  rewrite (loop_again _ _ _ _ _ _ _ _ _ _ _ _ Hb Hloop). reflexivity.
Qed.

Lemma LoadPico_twice_same_witness :
  let m := with_block manager_ABC (Ptr 7 0) 400 in
  let r := LoadPico tcg_ex m 1 0 NULL (world_ex (always true)) in
  fst (fst r) = LoadOk /\
  LoadPico tcg_ex (snd (fst r)) 1 0 NULL (snd r) = (LoadOk, snd (fst r), snd r).
Proof.
  intros m r. split; [vm_compute; reflexivity|].
  destruct (LoadPico_twice_same tcg_ex m 1 0 NULL (world_ex (always true))
              (snd (fst r)) (snd r))
    as (m'' & w'' & Heq & _ & _ & -> & ->).
  - vm_compute. reflexivity.
  - exact Heq.
Defined.

(** ** Duplication *)

Lemma AddPico_Some tcg m nm v :
  is_null v = false ->
  AddPico tcg m (Some nm) v =
  if entryCapacity m <=? entryCount m then (false, m)
  else (true,
        set_entryCount
          (set_entries m
             (<[N.to_nat (entryCount m) := fresh_entry tcg (entryCount m) nm v]>
                (entries m)))
          (wrapD (entryCount m + 1))).
Proof. intros H. unfold AddPico. rewrite H. reflexivity. Qed.

Section Duplicate.

Variables (tcg : LibTcg) (m : PICO_MANAGER).

Local Abbreviation dup := (DuplicateManager_loop tcg m).

(** The entries with a vault among the [n] source positions from [i]. *)
Local Abbreviation pending n i :=
  (List.filter has_vault (take n (drop i (entries m)))).

Lemma pending_step n i :
  pending (S n) i =
  if has_vault (entry_at (entries m) i)
  then entry_at (entries m) i :: pending n (S i)
  else pending n (S i).
Proof.
  unfold entry_at. destruct (entries m !! i) as [x|] eqn:Hx.
  - rewrite (drop_S _ _ _ Hx). reflexivity.
  - apply lookup_ge_None in Hx. rewrite !drop_ge by lia.
    cbn. now rewrite take_nil.
Qed.

(** The copy loop registers the pending entries in order, one cell
    each from the current count on, until it is done or the new catalog
    is full. *)
Lemma dup_loop_spec n : forall i nm ok nm',
  sized nm -> entryCount nm <= entryCapacity nm ->
  dup n i nm = (ok, nm') ->
  let c := (N.to_nat (entryCount nm') - N.to_nat (entryCount nm))%nat in
  entryCount nm <= entryCount nm' /\
  entryCount nm' <= entryCapacity nm' /\
  (baseAddress nm', blockSize nm', usedSize nm', entryCapacity nm',
   interPicoPadding nm')
  = (baseAddress nm, blockSize nm, usedSize nm, entryCapacity nm,
     interPicoPadding nm) /\
  List.length (entries nm') = List.length (entries nm) /\
  (forall j, (j < N.to_nat (entryCount nm))%nat ->
     entries nm' !! j = entries nm !! j) /\
  (forall t, (t < c)%nat ->
     exists e, pending n i !! t = Some e /\
       entries nm' !! (N.to_nat (entryCount nm) + t)%nat
       = Some (fresh_entry tcg (entryCount nm + N.of_nat t) (name e) (vault e))) /\
  (if ok then c = List.length (pending n i)
   else (c < List.length (pending n i))%nat /\
        entryCount nm' = entryCapacity nm').
Proof.
  induction n as [|n IH]; intros i nm ok nm' Hs Hle.
  - intros [= <- <-]. cbv zeta. rewrite Nat.sub_diag, take_0.
    split; [lia|]. split; [exact Hle|]. split; [reflexivity|].
    split; [reflexivity|]. split; [reflexivity|].
    split; [intros t Ht; lia | reflexivity].
  - cbn [DuplicateManager_loop]. rewrite pending_step.
    change (negb (is_null (vault (entry_at (entries m) i))))
      with (has_vault (entry_at (entries m) i)).
    destruct (has_vault (entry_at (entries m) i)) eqn:Hv.
    2:{ intros H. exact (IH _ _ _ _ Hs Hle H). }
    rewrite AddPico_Some by (now apply negb_true_iff in Hv).
    destruct (N.leb_spec (entryCapacity nm) (entryCount nm)) as [Hfull|Hroom].
    { intros [= <- <-]. cbv zeta. rewrite Nat.sub_diag.
      split; [lia|]. split; [exact Hle|]. split; [reflexivity|].
      split; [reflexivity|]. split; [reflexivity|].
      split; [intros t Ht; lia|]. cbn [List.length]. split; lia. }
    destruct Hs as [Hcap Hlen].
    set (nm1 := set_entryCount _ _).
    assert (Hc1 : entryCount nm1 = entryCount nm + 1).
    { unfold nm1. cbn [entryCount set_entryCount]. apply wrapD_small. lia. }
    assert (Hs1 : sized nm1).
    { split; [exact Hcap|]. unfold nm1.
      cbn [entries set_entryCount set_entries entryCapacity].
      now rewrite length_insert. }
    assert (Hle1 : entryCount nm1 <= entryCapacity nm1).
    { rewrite Hc1. unfold nm1. cbn [entryCapacity set_entryCount set_entries]. lia. }
    destruct (dup n (S i) nm1) as [ok1 nm2] eqn:Hrun.
    intros [= <- <-].
    destruct (IH _ _ _ _ Hs1 Hle1 Hrun)
      as (Hge & Hle2 & Hfields & Hlen2 & Hkeep & Hcells & Hend).
    cbv zeta. rewrite Hc1 in Hge, Hkeep, Hcells, Hend.
    split; [lia|]. split; [exact Hle2|].
    split; [exact Hfields|].
    split; [rewrite Hlen2; unfold nm1;
            cbn [entries set_entryCount set_entries]; apply length_insert|].
    split.
    { intros j Hj. rewrite Hkeep by lia. unfold nm1.
      cbn [entries set_entryCount set_entries].
      apply list_lookup_insert_ne. lia. }
    split.
    { intros [|t] Ht.
      - exists (entry_at (entries m) i). split; [reflexivity|].
        rewrite Nat.add_0_r, N.add_0_r, Hkeep by lia. unfold nm1.
        cbn [entries set_entryCount set_entries].
        apply list_lookup_insert_eq. lia.
      - destruct (Hcells t ltac:(lia)) as (e & He & Hcell).
        exists e. split; [exact He|].
        replace (N.to_nat (entryCount nm) + S t)%nat
          with (N.to_nat (entryCount nm + 1) + t)%nat by lia.
        rewrite Hcell. do 2 f_equal. lia. }
    cbn [List.length]. destruct ok1; [lia|].
    destruct Hend as [Hlt Hfull]. split; [lia | exact Hfull].
Qed.

End Duplicate.

(** C10.  Let the array handed to [DuplicateManager] have room for the
    capacity announced (a DWORD).  Whenever the call returns [FALSE], the
    output cell [*picoBlock] holds what it held before, the new manager
    is initialised with no executable block ([baseAddress] null,
    [blockSize] and [usedSize] zero), the padding of the source and the
    capacity announced, and its catalog holds the first [entryCount]
    live entries of the source, freshly registered in order: nothing is
    rolled back.  Either a registration was refused, and then the new
    catalog is full ([entryCount] equals the capacity, which is smaller
    than the number of live source entries) and no allocation was tried;
    or every live entry was registered and the allocation of the block
    was refused. *)
Theorem DuplicateManager_failure_no_rollback
        (tcg : LibTcg) (m : PICO_MANAGER) (es : list PICO_ENTRY) (cap : N)
        (picoBlock : ptr) (w : World)
        (newManager : PICO_MANAGER) (picoBlock' : ptr) (w' : World) :
  cap < 2 ^ 32 -> (N.to_nat cap <= List.length es)%nat ->
  DuplicateManager tcg m es cap picoBlock w
  = (false, newManager, picoBlock', w') ->
  picoBlock' = picoBlock /\
  baseAddress newManager = NULL /\ blockSize newManager = 0 /\
  usedSize newManager = 0 /\
  interPicoPadding newManager = interPicoPadding m /\
  entryCapacity newManager = cap /\
  (forall t, (t < N.to_nat (entryCount newManager))%nat ->
     exists e, live_entries m !! t = Some e /\
       entries newManager !! t
       = Some (fresh_entry tcg (N.of_nat t) (name e) (vault e))) /\
  ((entryCount newManager = cap /\
    (N.to_nat cap < List.length (live_entries m))%nat /\
    w' = w)
   \/
   (N.to_nat (entryCount newManager) = List.length (live_entries m) /\
    oracle w (allocs w) = false /\
    live w' = live w)).
Proof.
  intros Hcap Hlen. unfold DuplicateManager.
  set (nm0 := set_interPicoPadding (PicoManagerInit es cap) (interPicoPadding m)).
  assert (Hs0 : sized nm0) by (split; assumption).
  assert (Hle0 : entryCount nm0 <= entryCapacity nm0) by (cbn; lia).
  destruct (DuplicateManager_loop tcg m (N.to_nat (entryCount m)) 0 nm0)
    as [ok nm1] eqn:Hrun.
  destruct (dup_loop_spec tcg m _ _ _ _ _ Hs0 Hle0 Hrun)
    as (_ & _ & Hfields & _ & _ & Hcells & Hend).
  rewrite drop_0 in Hcells, Hend. fold (catalog m) in Hcells, Hend.
  fold (live_entries m) in Hcells, Hend.
  change (entryCount nm0) with 0 in Hcells, Hend.
  rewrite Nat.sub_0_r in Hcells, Hend.
  injection Hfields as Hb Hsz Hu Hc Hp.
  change (baseAddress nm0) with NULL in Hb. change (blockSize nm0) with 0 in Hsz.
  change (usedSize nm0) with 0 in Hu. change (entryCapacity nm0) with cap in Hc.
  change (interPicoPadding nm0) with (interPicoPadding m) in Hp.
  assert (Hcells' : forall t, (t < N.to_nat (entryCount nm1))%nat ->
            exists e, live_entries m !! t = Some e /\
              entries nm1 !! t = Some (fresh_entry tcg (N.of_nat t) (name e) (vault e))).
  { intros t Ht. destruct (Hcells t Ht) as (e & He & Hcell).
    exists e. split; [exact He|]. exact Hcell. }
  destruct ok; cbn [negb].
  - unfold PicoManagerAlloc.
    destruct (VirtualAlloc _ _ _) as [p w1] eqn:Ha.
    destruct (is_null p) eqn:Hnull; cbn [negb]; [|discriminate].
    apply VirtualAlloc_refused in Ha as (Hor & -> & Hlive & _); [|exact Hnull].
    intros [= <- <- <-].
    cbn [baseAddress blockSize usedSize interPicoPadding entryCapacity
         entryCount entries set_baseAddress].
    split; [reflexivity|]. split; [reflexivity|]. split; [exact Hsz|].
    split; [exact Hu|]. split; [exact Hp|]. split; [exact Hc|].
    split; [exact Hcells'|].
    right. auto.
  - intros [= <- <- <-].
    split; [reflexivity|]. split; [exact Hb|]. split; [exact Hsz|].
    split; [exact Hu|]. split; [exact Hp|]. split; [exact Hc|].
    split; [exact Hcells'|].
    left. destruct Hend as [Hlt Hfull]. split; [congruence|].
    split; [|reflexivity]. rewrite Hfull, Hc in Hlt. exact Hlt.
Qed.

Lemma DuplicateManager_failure_no_rollback_witness :
  let r := DuplicateManager tcg_ex manager_ABC (repeat zero_entry 2) 2
             (Ptr 9 9) (world_ex (always true)) in
  fst (fst (fst r)) = false /\
  snd (fst r) = Ptr 9 9 /\
  entryCount (snd (fst (fst r))) = 2 /\
  baseAddress (snd (fst (fst r))) = NULL.
Proof.
  intros r.
  pose proof (DuplicateManager_failure_no_rollback tcg_ex manager_ABC
                (repeat zero_entry 2) 2 (Ptr 9 9) (world_ex (always true))
                (snd (fst (fst r))) (snd (fst r)) (snd r)) as H.
  destruct H as (Hpb & Hbase & _).
  - reflexivity.
  - vm_compute. repeat constructor.
  - vm_compute. reflexivity.
  - split; [vm_compute; reflexivity|]. split; [exact Hpb|].
    split; [vm_compute; reflexivity | exact Hbase].
Defined.




(** The iteration that places a module when there is room and the
    allocation is granted. *)
Lemma loop_step_place tcg m fp funcs n i off es w e :
  es !! i = Some e -> placed e = false -> has_vault e = true ->
  wrapS (wrapS (off + wrapS (codeSize e + interPicoPadding m)) + fp)
    <= blockSize m ->
  oracle w (allocs w) = true ->
  LoadPico_loop tcg m fp funcs (S n) i off es w =
  let d := Ptr (N.of_nat (S (allocs w))) 0 in
  LoadPico_loop tcg m fp funcs n (S i)
    (wrapS (off + wrapS (codeSize e + interPicoPadding m)))
    (<[i := loaded_entry tcg m e off d]> es)
    (PicoLoad funcs (vault e) (ptr_add (baseAddress m) off) d
       (mkWorld (oracle w) (S (allocs w))
                (mkRegion (N.of_nat (S (allocs w))) (dataSize e) PAGE_READWRITE
                 :: live w)
                (relocated w))).
Proof.
  intros He Hp Hv Hroom Hor. rewrite loop_step. cbv zeta.
  rewrite (entry_at_Some _ _ _ He), Hp, Hv. cbn [negb].
  apply N.ltb_ge in Hroom. rewrite Hroom.
  unfold VirtualAlloc. rewrite Hor. reflexivity.
Qed.

(** ** The worked example

    C1, as the code has it.  Take any LibTcg that measures 100, 200 and
    50 bytes of code for three modules A, B and C, a fresh manager with
    padding 16 on an array of at least three slots, and register the
    three.  Then [TotalCodeSize] is 382.  Install an executable block of
    400 bytes at any base and call [LoadPico] with boundary [(DWORD)-1]
    and final padding 0 in a world that grants the three data blocks:
    the call returns [TRUE], A is placed at offset 0, B at 116, C at 332,
    and [usedSize] is 398, the offset after C and its padding
    (382 + 16). *)
Theorem example_ABC_layout (tcg : LibTcg) (es : list PICO_ENTRY) (cap : N)
        (nA nB nC : list ascii) (vA vB vC base funcs : ptr) (w : World) :
  (3 <= List.length es)%nat -> 3 <= cap ->
  is_null vA = false -> is_null vB = false -> is_null vC = false ->
  PicoCodeSize tcg vA = 100%Z -> PicoCodeSize tcg vB = 200%Z ->
  PicoCodeSize tcg vC = 50%Z ->
  is_null base = false ->
  oracle w (allocs w) = true -> oracle w (S (allocs w)) = true ->
  oracle w (S (S (allocs w))) = true ->
  exists mA mB mC m' w',
    AddPico tcg (set_interPicoPadding (PicoManagerInit es cap) 16) (Some nA) vA
    = (true, mA) /\
    AddPico tcg mA (Some nB) vB = (true, mB) /\
    AddPico tcg mB (Some nC) vC = (true, mC) /\
    TotalCodeSize mC = 382 /\
    LoadPico tcg (with_block mC base 400) DWORD_MINUS_ONE 0 funcs w
    = (LoadOk, m', w') /\
    code (entry_at (entries m') 0) = ptr_add base 0 /\
    code (entry_at (entries m') 1) = ptr_add base 116 /\
    code (entry_at (entries m') 2) = ptr_add base 332 /\
    usedSize m' = 398.
Proof.
  intros Hlen Hcap HvA HvB HvC HsA HsB HsC Hbase Ho0 Ho1 Ho2.
  destruct es as [|x0 [|x1 [|x2 rest]]]; cbn [List.length] in Hlen; try lia.
  clear Hlen.
  assert (Hroom : forall k, k < 3 -> (cap <=? k) = false).
  { intros k Hk. apply N.leb_gt. lia. }
  destruct vA as [|bA oA]; [discriminate|].
  destruct vB as [|bB oB]; [discriminate|].
  destruct vC as [|bC oC]; [discriminate|].
  destruct base as [|bb ob]; [discriminate|].
  pose (mC := mkManager NULL 0 0
                (fresh_entry tcg 0 nA (Ptr bA oA) :: fresh_entry tcg 1 nB (Ptr bB oB)
                 :: fresh_entry tcg 2 nC (Ptr bC oC) :: rest) 3 cap 16).
  exists (mkManager NULL 0 0 (fresh_entry tcg 0 nA (Ptr bA oA) :: x1 :: x2 :: rest) 1 cap 16),
         (mkManager NULL 0 0 (fresh_entry tcg 0 nA (Ptr bA oA)
                              :: fresh_entry tcg 1 nB (Ptr bB oB) :: x2 :: rest) 2 cap 16),
         mC.
  assert (HmC : TotalCodeSize mC = 382).
  { unfold mC, fresh_entry. rewrite HsA, HsB, HsC.
    generalize (strncpy nA (PICO_NAME_MAX_LENGTH - 1) ++ [zero]).
    generalize (strncpy nB (PICO_NAME_MAX_LENGTH - 1) ++ [zero]).
    generalize (strncpy nC (PICO_NAME_MAX_LENGTH - 1) ++ [zero]).
    generalize (int_to_SIZE_T (PicoDataSize tcg (Ptr bA oA))).
    generalize (int_to_SIZE_T (PicoDataSize tcg (Ptr bB oB))).
    generalize (int_to_SIZE_T (PicoDataSize tcg (Ptr bC oC))).
    intros. vm_compute. reflexivity. }
  assert (Hadd : forall k nm v xs ys z,
             k < 3 -> is_null v = false -> List.length xs = N.to_nat k ->
             AddPico tcg (mkManager NULL 0 0 (xs ++ z :: ys) k cap 16) (Some nm) v
             = (true, mkManager NULL 0 0 (xs ++ fresh_entry tcg k nm v :: ys)
                                (k + 1) cap 16)).
  { intros k nm v xs ys z Hk Hv Hxs. rewrite AddPico_Some by exact Hv.
    cbn [entryCapacity entryCount entries]. rewrite Hroom by exact Hk.
    unfold set_entryCount, set_entries.
    cbn [baseAddress blockSize usedSize entries entryCapacity interPicoPadding].
    rewrite wrapD_small by lia. rewrite <- Hxs.
    now rewrite insert_app_r_alt, Nat.sub_diag by lia. }
  set (w1 := PicoLoad funcs (Ptr bA oA) (ptr_add (Ptr bb ob) 0)
               (Ptr (N.of_nat (S (allocs w))) 0)
               (mkWorld (oracle w) (S (allocs w))
                  (mkRegion (N.of_nat (S (allocs w)))
                     (int_to_SIZE_T (PicoDataSize tcg (Ptr bA oA))) PAGE_READWRITE
                   :: live w) (relocated w))).
  set (w2 := PicoLoad funcs (Ptr bB oB) (ptr_add (Ptr bb ob) 116)
               (Ptr (N.of_nat (S (allocs w1))) 0)
               (mkWorld (oracle w1) (S (allocs w1))
                  (mkRegion (N.of_nat (S (allocs w1)))
                     (int_to_SIZE_T (PicoDataSize tcg (Ptr bB oB))) PAGE_READWRITE
                   :: live w1) (relocated w1))).
  set (w3 := PicoLoad funcs (Ptr bC oC) (ptr_add (Ptr bb ob) 332)
               (Ptr (N.of_nat (S (allocs w2))) 0)
               (mkWorld (oracle w2) (S (allocs w2))
                  (mkRegion (N.of_nat (S (allocs w2)))
                     (int_to_SIZE_T (PicoDataSize tcg (Ptr bC oC))) PAGE_READWRITE
                   :: live w2) (relocated w2))).
  set (mL := with_block mC (Ptr bb ob) 400).
  set (fA := fresh_entry tcg 0 nA (Ptr bA oA)).
  set (fB := fresh_entry tcg 1 nB (Ptr bB oB)).
  set (fC := fresh_entry tcg 2 nC (Ptr bC oC)).
  exists (set_usedSize
            (set_entries mL
               (loaded_entry tcg mL fA 0 (Ptr (N.of_nat (S (allocs w))) 0)
                :: loaded_entry tcg mL fB 116 (Ptr (N.of_nat (S (allocs w1))) 0)
                :: loaded_entry tcg mL fC 332 (Ptr (N.of_nat (S (allocs w2))) 0)
                :: rest))
            398), w3.
  split; [exact (Hadd 0 nA _ [] _ x0 ltac:(lia) HvA eq_refl)|].
  split; [exact (Hadd 1 nB _ [_] _ x1 ltac:(lia) HvB eq_refl)|].
  split; [exact (Hadd 2 nC _ [_; _] _ x2 ltac:(lia) HvC eq_refl)|].
  split; [exact HmC|].
  split; [|repeat split; reflexivity].
  assert (HcA : codeSize fA = 100) by (unfold fA, fresh_entry; cbn [codeSize]; now rewrite HsA).
  assert (HcB : codeSize fB = 200) by (unfold fB, fresh_entry; cbn [codeSize]; now rewrite HsB).
  assert (HcC : codeSize fC = 50) by (unfold fC, fresh_entry; cbn [codeSize]; now rewrite HsC).
  rewrite LoadPico_allocated by (reflexivity || discriminate).
  change (load_bound mL DWORD_MINUS_ONE) with 3%nat.
  change (entries mL) with (fA :: fB :: fC :: rest).
  rewrite (loop_step_place tcg mL 0 funcs 2 0 0 _ w fA);
    [| reflexivity | reflexivity | reflexivity | rewrite HcA; vm_compute; discriminate | exact Ho0].
  cbv zeta. rewrite HcA. change (interPicoPadding mL) with 16.
  change (wrapS (0 + wrapS (100 + 16))) with 116.
  change (vault fA) with (Ptr bA oA). change (baseAddress mL) with (Ptr bb ob).
  change (dataSize fA) with (int_to_SIZE_T (PicoDataSize tcg (Ptr bA oA))).
  fold w1.
  rewrite (loop_step_place tcg mL 0 funcs 1 1 116 _ w1 fB);
    [| reflexivity | reflexivity | reflexivity | rewrite HcB; vm_compute; discriminate | exact Ho1].
  cbv zeta. rewrite HcB. change (interPicoPadding mL) with 16.
  change (wrapS (116 + wrapS (200 + 16))) with 332.
  change (vault fB) with (Ptr bB oB). change (baseAddress mL) with (Ptr bb ob).
  change (dataSize fB) with (int_to_SIZE_T (PicoDataSize tcg (Ptr bB oB))).
  fold w2.
  rewrite (loop_step_place tcg mL 0 funcs 0 2 332 _ w2 fC);
    [| reflexivity | reflexivity | reflexivity | rewrite HcC; vm_compute; discriminate | exact Ho2].
  cbv zeta. rewrite HcC. change (interPicoPadding mL) with 16.
  change (wrapS (332 + wrapS (50 + 16))) with 398.
  change (vault fC) with (Ptr bC oC). change (baseAddress mL) with (Ptr bb ob).
  change (dataSize fC) with (int_to_SIZE_T (PicoDataSize tcg (Ptr bC oC))).
  fold w3.
  reflexivity.
Qed.

Lemma example_ABC_layout_witness :
  exists m' w',
    LoadPico tcg_ex (with_block manager_ABC (Ptr 7 0) 400) DWORD_MINUS_ONE 0 NULL
             (world_ex (always true))
    = (LoadOk, m', w') /\
    code (entry_at (entries m') 2) = Ptr 7 332 /\
    usedSize m' = 398.
Proof.
  destruct (example_ABC_layout tcg_ex (repeat zero_entry 4) 4
              (str "A") (str "B") (str "C") vaultA vaultB vaultC
              (Ptr 7 0) NULL (world_ex (always true)))
    as (mA & mB & mC & m' & w' & HA & HB & HC & _ & HL & _ & _ & H2 & HU);
    try reflexivity.
  - vm_compute. repeat constructor.
  - vm_compute. discriminate.
  - exists m', w'. split; [|split; [exact H2 | exact HU]].
    unfold manager_ABC. cbv zeta. rewrite HA. cbn [snd]. rewrite HB. cbn [snd].
    rewrite HC. exact HL.
Defined.

(** C1 as stated fails on its last figure: on the example the call
    succeeds and places A, B and C at 0, 116 and 332, but [usedSize] is
    398, not 382. *)
Lemma example_ABC_usedSize_is_398 :
  let r := LoadPico tcg_ex (with_block manager_ABC (Ptr 7 0) 400)
             DWORD_MINUS_ONE 0 NULL (world_ex (always true)) in
  TotalCodeSize manager_ABC = 382 /\
  fst (fst r) = LoadOk /\
  List.map code (entries (snd (fst r))) = [Ptr 7 0; Ptr 7 116; Ptr 7 332; NULL] /\
  usedSize (snd (fst r)) = 398 /\
  usedSize (snd (fst r)) <> 382.
Proof.
  cbv zeta. repeat split; try (vm_compute; reflexivity).
  vm_compute. discriminate.
Qed.

(** ** [TotalCodeSize] in general *)

Section Total.

Variable m : PICO_MANAGER.

Lemma wrapS_add_l a b : wrapS (wrapS a + b) = wrapS (a + b).
Proof. unfold wrapS. apply N.Div0.add_mod_idemp_l. Qed.

Lemma wrapS_lt a : wrapS a < 2 ^ 64.
Proof. unfold wrapS. apply N.mod_lt. discriminate. Qed.

Lemma TotalCodeSize_loop_tally n : forall i acc,
  wrapS (TotalCodeSize_loop m n i acc) = wrapS (acc + tally m n i).
Proof.
  induction n as [|n IH]; intros i acc; cbn [TotalCodeSize_loop tally].
  - now rewrite N.add_0_r.
  - unfold has_vault.
    destruct (is_null (vault (entry_at (entries m) i))); cbn [negb].
    + now rewrite IH.
    + rewrite IH. destruct (N.of_nat i <? subD (entryCount m) 1).
      * rewrite wrapS_add_l, <- N.add_assoc, wrapS_add_l. f_equal. lia.
      * rewrite wrapS_add_l. f_equal. lia.
Qed.

Lemma TotalCodeSize_loop_bounded n : forall i acc,
  acc < 2 ^ 64 -> TotalCodeSize_loop m n i acc < 2 ^ 64.
Proof.
  induction n as [|n IH]; intros i acc Hacc; cbn [TotalCodeSize_loop].
  - exact Hacc.
  - destruct (is_null (vault (entry_at (entries m) i))); [now apply IH|].
    apply IH. destruct (N.of_nat i <? subD (entryCount m) 1); apply wrapS_lt.
Qed.

(** What the code computes, on every manager: the code sizes of the live
    entries plus one padding for each live entry that is not at the last
    catalog position, modulo the width of [SIZE_T]. *)
Lemma TotalCodeSize_tally :
  TotalCodeSize m = wrapS (tally m (N.to_nat (entryCount m)) 0).
Proof.
  unfold TotalCodeSize.
  rewrite <- (wrapS_small (TotalCodeSize_loop m _ 0 0))
    by (apply TotalCodeSize_loop_bounded; reflexivity).
  now rewrite TotalCodeSize_loop_tally.
Qed.

Local Abbreviation pending n i :=
  (List.filter has_vault (take n (drop i (entries m)))).


Lemma pending_nonempty n : forall i,
  has_vault (entry_at (entries m) (i + n)) = true ->
  (0 < List.length (pending (S n) i))%nat.
Proof.
  induction n as [|n IH]; intros i Hlast; rewrite (pending_step m).
  - rewrite Nat.add_0_r in Hlast. rewrite Hlast. cbn. lia.
  - replace (i + S n)%nat with (S i + n)%nat in Hlast by lia.
    specialize (IH (S i) Hlast).
    destruct (has_vault (entry_at (entries m) i)); [cbn; lia | exact IH].
Qed.

(** When the walk ends on a live entry at the last catalog position, the
    tally is the sum of the live code sizes plus one padding less than
    there are live entries. *)
Lemma tally_last_live n : forall i,
  0 < entryCount m < 2 ^ 32 ->
  (i + S n = N.to_nat (entryCount m))%nat ->
  has_vault (entry_at (entries m) (i + n)) = true ->
  tally m (S n) i =
  fold_right N.add 0 (List.map codeSize (pending (S n) i))
  + interPicoPadding m * (N.of_nat (List.length (pending (S n) i)) - 1).
Proof.
  induction n as [|n IH]; intros i Hc Hi Hlast.
  - rewrite Nat.add_0_r in Hlast. rewrite (pending_step m).
    cbn [tally]. rewrite Hlast. rewrite subD_one by lia.
    destruct (N.ltb_spec (N.of_nat i) (entryCount m - 1)) as [Hlt|_]; [lia|].
    rewrite take_0. cbn [List.filter List.map fold_right List.length].
    change (N.of_nat 1 - 1) with 0. lia.
  - replace (i + S n)%nat with (S i + n)%nat in Hlast by lia.
    pose proof (pending_nonempty n (S i) Hlast) as Hne.
    specialize (IH (S i) Hc ltac:(lia) Hlast).
    rewrite (pending_step m).
    change (tally m (S (S n)) i) with
      ((if has_vault (entry_at (entries m) i)
        then codeSize (entry_at (entries m) i)
             + (if N.of_nat i <? subD (entryCount m) 1
                then interPicoPadding m else 0)
        else 0) + tally m (S n) (S i)).
    rewrite IH. rewrite subD_one by lia.
    destruct (N.ltb_spec (N.of_nat i) (entryCount m - 1)) as [_|Hge]; [|lia].
    destruct (has_vault (entry_at (entries m) i)); [|lia].
    cbn [List.map fold_right List.length]. nia.
Qed.

(** Where the code agrees with the specification: when the last catalog
    position holds a live entry (as in every catalog built by [AddPico]
    and [RemovePicoById]), [TotalCodeSize] is [totalCodeSize_spec]. *)
Lemma TotalCodeSize_spec_when_last_live :
  0 < entryCount m < 2 ^ 32 ->
  has_vault (entry_at (entries m) (N.to_nat (entryCount m) - 1)) = true ->
  TotalCodeSize m = totalCodeSize_spec m.
Proof.
  intros Hc Hlast. rewrite TotalCodeSize_tally. unfold totalCodeSize_spec.
  f_equal. unfold live_entries, catalog.
  rewrite length_map.
  assert (Hn : N.to_nat (entryCount m) = S (N.to_nat (entryCount m) - 1)) by lia.
  rewrite Hn.
  apply (tally_last_live (N.to_nat (entryCount m) - 1) 0 Hc);
    [lia | exact Hlast].
Qed.

End Total.

(** ** The refused data block, in general *)

(** A walk that stops on a refused allocation leaves the entry it was
    placing with its code pointer set and no data block. *)
Lemma loop_alloc_failed tcg m fp funcs n : forall i off es w off' es' w',
  LoadPico_loop tcg m fp funcs n i off es w = (AllocationFailed, off', es', w') ->
  exists k, (k < n)%nat /\
    placed (entry_at es (i + k)) = false /\
    has_vault (entry_at es (i + k)) = true /\
    es' !! (i + k)%nat
    = Some (set_data (set_code (entry_at es (i + k))
                               (ptr_add (baseAddress m) off')) NULL).
Proof.
  induction n as [|n IH]; intros i off es w off' es' w'; [discriminate|].
  rewrite loop_step. cbv zeta.
  assert (Hnext : forall off1 w1,
             LoadPico_loop tcg m fp funcs n (S i) off1 es w1
             = (AllocationFailed, off', es', w') ->
             exists k, (k < S n)%nat /\
               placed (entry_at es (i + k)) = false /\
               has_vault (entry_at es (i + k)) = true /\
               es' !! (i + k)%nat
               = Some (set_data (set_code (entry_at es (i + k))
                                          (ptr_add (baseAddress m) off')) NULL)).
  { intros off1 w1 H. apply IH in H as (k & Hk & Hrest).
    exists (S k). split; [lia|].
    now replace (i + S k)%nat with (S i + k)%nat by lia. }
  destruct (placed (entry_at es i)) eqn:Hp; [apply Hnext|].
  destruct (has_vault (entry_at es i)) eqn:Hv; cbn [negb]; [|apply Hnext].
  destruct (blockSize m <? _); [discriminate|].
  destruct (VirtualAlloc _ _ _) as [d w1] eqn:Ha.
  assert (Hin : es !! i = Some (entry_at es i)).
  { apply occupied_in_array. now rewrite Hv, orb_true_r. }
  apply lookup_lt_Some in Hin.
  destruct (is_null d) eqn:Hd.
  - intros [= <- <- <-]. exists 0%nat. rewrite Nat.add_0_r.
    split; [lia|]. split; [exact Hp|]. split; [exact Hv|].
    destruct d; [|discriminate]. now apply list_lookup_insert_eq.
  - intros H. apply IH in H as (k & Hk & Hpk & Hvk & Hcell).
    rewrite entry_at_insert_ne in Hpk, Hvk, Hcell by lia.
    exists (S k). split; [lia|].
    now replace (i + S k)%nat with (S i + k)%nat by lia.
Qed.

(** On every input: whenever [LoadPico] returns through the refused
    allocation, some catalog entry that was unplaced before the call is
    now marked as placed although it has no data block; its entry point
    is what it was, and a later call will walk past it. *)
Lemma LoadPico_AllocationFailed_marks_placed
      (tcg : LibTcg) (m : PICO_MANAGER) (upToEntryId finalPadding : N)
      (funcs : ptr) (w : World) (m' : PICO_MANAGER) (w' : World) :
  LoadPico tcg m upToEntryId finalPadding funcs w = (AllocationFailed, m', w') ->
  exists (k : nat) (e' : PICO_ENTRY),
    (k < N.to_nat (entryCount m))%nat /\
    placed (entry_at (entries m) k) = false /\
    has_vault (entry_at (entries m) k) = true /\
    entries m' !! k = Some e' /\
    placed e' = true /\ data e' = NULL /\
    entryPoint e' = entryPoint (entry_at (entries m) k).
Proof.
  intros H. apply LoadPico_cases in H as [(Ho & _) | (Hb & Hs & off & es & Hloop & ->)];
    [discriminate|].
  apply loop_alloc_failed in Hloop as (k & Hk & Hp & Hv & Hcell).
  cbn [Nat.add] in Hp, Hv, Hcell. cbn [BOOL_of entries set_entries].
  eexists k, _. split; [unfold load_bound in Hk; lia|].
  split; [exact Hp|]. split; [exact Hv|]. split; [exact Hcell|].
  split; [|split; reflexivity].
  unfold placed. cbn [code set_data set_code].
  destruct (baseAddress m); [discriminate | reflexivity].
Qed.

(** ** Two defects, run on concrete managers *)

(** C3 fails on the code.  The first data block is refused: [LoadPico]
    returns [FALSE] having already set the code pointer of A, which has
    no data block, no entry point and no relocation.  The next call, with
    every allocation granted, returns [TRUE], takes A for loaded and
    leaves it as it is: only B and C are relocated. *)
Theorem LoadPico_refused_data_block_leaves_code_set :
  let m := with_block manager_ABC (Ptr 7 0) 400 in
  let r1 := LoadPico tcg_ex m DWORD_MINUS_ONE 0 NULL (world_ex first_refused) in
  let m1 := snd (fst r1) in
  let r2 := LoadPico tcg_ex m1 DWORD_MINUS_ONE 0 NULL (snd r1) in
  let m2 := snd (fst r2) in
  fst (fst r1) = AllocationFailed /\
  code (entry_at (entries m1) 0) = Ptr 7 0 /\
  data (entry_at (entries m1) 0) = NULL /\
  entryPoint (entry_at (entries m1) 0) = NULL /\
  relocated (snd r1) = [] /\
  fst (fst r2) = LoadOk /\
  entry_at (entries m2) 0 = entry_at (entries m1) 0 /\
  List.map rl_src (relocated (snd r2)) = [vaultB; vaultC].
Proof.
  cbv zeta. repeat split; vm_compute; reflexivity.
Qed.

(** C4 fails on the code.  The catalog holds A (100 bytes of code) and
    an empty slot after it, with padding 16.  A is the only live entry,
    so the size the claim describes is 100; [TotalCodeSize] returns 116:
    it adds the padding after A because A is not at the last position. *)
Theorem TotalCodeSize_pads_before_trailing_empty_slot :
  entryCount manager_A_gap = 2 /\
  List.map codeSize (live_entries manager_A_gap) = [100] /\
  totalCodeSize_spec manager_A_gap = 100 /\
  TotalCodeSize manager_A_gap = 116.
Proof.
  repeat split; vm_compute; reflexivity.
Qed.

(** * Further properties *)

(** ** Name lookup, characterised *)

Lemma name_test_matches q e :
  (strncmp (name e) q
      (if (PICO_NAME_MAX_LENGTH <=? strlen q)%nat
       then (PICO_NAME_MAX_LENGTH - 1)%nat else strlen q) =? 0)%Z
  && is_nul (char_at (name e)
      (if (PICO_NAME_MAX_LENGTH <=? strlen q)%nat
       then (PICO_NAME_MAX_LENGTH - 1)%nat else strlen q)) = true
  <-> name_matches q e.
Proof.
  destruct (clamp_firstn q) as [Hlen Hcut]. unfold name_matches.
  rewrite <- Hcut. now apply name_test_iff.
Qed.

Lemma GetPicoByName_Some m q i :
  GetPicoByName m (Some q) = Some i <->
  (i < N.to_nat (entryCount m))%nat /\
  name_matches q (entry_at (entries m) i) /\
  (forall j, (j < i)%nat -> ~ name_matches q (entry_at (entries m) j)).
Proof.
  unfold GetPicoByName.
  set (len := if (PICO_NAME_MAX_LENGTH <=? strlen q)%nat
              then (PICO_NAME_MAX_LENGTH - 1)%nat else strlen q).
  pose proof (GetPicoByName_loop_first (entries m) q len
                (N.to_nat (entryCount m)) 0) as H.
  assert (Hno : forall j,
             (strncmp (name (entry_at (entries m) j)) q len =? 0)%Z
             && is_nul (char_at (name (entry_at (entries m) j)) len) = false ->
             ~ name_matches q (entry_at (entries m) j)).
  { intros j Hj Hm. apply name_test_matches in Hm. fold len in Hm. congruence. }
  destruct (GetPicoByName_loop (entries m) q len (N.to_nat (entryCount m)) 0)
    as [i'|].
  - destruct H as (Hr & Hi & Hfirst). apply name_test_matches in Hi.
    split.
    + intros [= <-]. split; [lia|]. split; [exact Hi|].
      intros j Hj. apply Hno, Hfirst. lia.
    + intros (Hlt & Hm & Hbefore).
      destruct (Nat.lt_trichotomy i' i) as [Hc|[->|Hc]]; [|reflexivity|].
      * now destruct (Hbefore i' Hc).
      * destruct (Hno i (Hfirst i ltac:(lia)) Hm).
  - split; [discriminate|]. intros (Hlt & Hm & _).
    destruct (Hno i (H i ltac:(lia)) Hm).
Qed.

Lemma GetPicoByName_None m q :
  GetPicoByName m (Some q) = None <->
  forall j, (j < N.to_nat (entryCount m))%nat ->
    ~ name_matches q (entry_at (entries m) j).
Proof.
  split.
  - intros Hnone j Hj Hm.
    assert (Hex : exists i, (i <= j)%nat /\
              GetPicoByName m (Some q) = Some i).
    { clear Hnone. induction j as [j IH] using lt_wf_ind.
      destruct (GetPicoByName m (Some q)) as [i|] eqn:Hg.
      - apply GetPicoByName_Some in Hg as (_ & _ & Hfirst).
        exists i. split; [|reflexivity].
        destruct (Nat.le_gt_cases i j) as [|Hgt]; [assumption|].
        now destruct (Hfirst j Hgt).
      - exfalso. clear IH. revert Hg. unfold GetPicoByName.
        set (len := if (PICO_NAME_MAX_LENGTH <=? strlen q)%nat
                    then (PICO_NAME_MAX_LENGTH - 1)%nat else strlen q).
        pose proof (GetPicoByName_loop_first (entries m) q len
                      (N.to_nat (entryCount m)) 0) as H.
        intros Hg. rewrite Hg in H.
        apply name_test_matches in Hm. fold len in Hm.
        rewrite H in Hm by lia. discriminate. }
    destruct Hex as (i & _ & Hi). congruence.
  - intros Hall. destruct (GetPicoByName m (Some q)) as [i|] eqn:Hg;
      [|reflexivity].
    apply GetPicoByName_Some in Hg as (Hlt & Hm & _).
    now destruct (Hall i Hlt).
Qed.

(** A lookup sees only the count and the names of the catalog. *)
Lemma GetPicoByName_names m1 m2 q :
  entryCount m1 = entryCount m2 ->
  (forall j, (j < N.to_nat (entryCount m1))%nat ->
     name (entry_at (entries m1) j) = name (entry_at (entries m2) j)) ->
  GetPicoByName m1 (Some q) = GetPicoByName m2 (Some q).
Proof.
  intros Hc Hn.
  assert (Hm : forall j, (j < N.to_nat (entryCount m1))%nat ->
             (name_matches q (entry_at (entries m1) j)
              <-> name_matches q (entry_at (entries m2) j))).
  { intros j Hj. unfold name_matches. now rewrite Hn. }
  destruct (GetPicoByName m2 (Some q)) as [i|] eqn:Hg.
  - apply GetPicoByName_Some in Hg as (Hlt & Hmi & Hfirst).
    apply GetPicoByName_Some. rewrite Hc. split; [exact Hlt|].
    rewrite <- Hc in Hlt. split; [now apply Hm|].
    intros j Hj Hmj. apply (Hfirst j Hj). apply Hm; [lia | exact Hmj].
  - apply GetPicoByName_None. intros j Hj Hmj.
    rewrite GetPicoByName_None in Hg. apply (Hg j); [now rewrite <- Hc|].
    now apply Hm.
Qed.

(** ** Registration *)

Lemma strncpy_length src n : List.length (strncpy src n) = n.
Proof.
  revert src. induction n as [|n IH]; intros src; [reflexivity|].
  cbn [strncpy]. cbv zeta. destruct (is_nul (char_at src 0)).
  - apply repeat_length.
  - cbn [List.length]. now rewrite IH.
Qed.

Lemma strncpy_cstr src n : cstr (strncpy src n ++ [zero]) = firstn n (cstr src).
Proof.
  revert src. induction n as [|n IH]; intros src.
  - reflexivity.
  - cbn [strncpy]. cbv zeta. destruct src as [|c src].
    + reflexivity.
    + change (char_at (c :: src) 0) with c. change (tl (c :: src)) with src.
      rewrite (cstr_cons c src). destruct (is_nul c) eqn:Hc.
      * reflexivity.
      * cbn [app firstn]. rewrite cstr_cons, Hc. now rewrite IH.
Qed.

Lemma fresh_entry_name tcg i nm v :
  List.length (name (fresh_entry tcg i nm v)) = PICO_NAME_MAX_LENGTH /\
  char_at (name (fresh_entry tcg i nm v)) (PICO_NAME_MAX_LENGTH - 1) = zero /\
  cstr (name (fresh_entry tcg i nm v)) = firstn (PICO_NAME_MAX_LENGTH - 1) (cstr nm).
Proof.
  unfold fresh_entry. cbn [name]. split; [|split].
  - rewrite length_app, strncpy_length. reflexivity.
  - unfold char_at. rewrite app_nth2; rewrite strncpy_length; [|lia].
    now rewrite Nat.sub_diag.
  - apply strncpy_cstr.
Qed.

Lemma fresh_entry_matches tcg i nm v : name_matches nm (fresh_entry tcg i nm v).
Proof. unfold name_matches. apply fresh_entry_name. Qed.

Lemma AddPico_success tcg m nm v :
  is_null v = false -> entryCount m < entryCapacity m ->
  entryCapacity m < 2 ^ 32 ->
  AddPico tcg m (Some nm) v =
  (true,
   mkManager (baseAddress m) (blockSize m) (usedSize m)
             (<[N.to_nat (entryCount m) := fresh_entry tcg (entryCount m) nm v]>
                (entries m))
             (entryCount m + 1) (entryCapacity m) (interPicoPadding m)).
Proof.
  intros Hv Hroom Hcap. rewrite AddPico_Some by exact Hv.
  destruct (N.leb_spec (entryCapacity m) (entryCount m)); [lia|].
  unfold set_entryCount, set_entries.
  cbn [baseAddress blockSize usedSize entries entryCapacity interPicoPadding].
  now rewrite wrapD_small by lia.
Qed.

(** X1.  A registration that finds room (vault not null, count below the
    capacity, a DWORD, and inside the array) returns [TRUE], raises the
    count by one and writes exactly one cell, the one at the old count:
    its [id] is that position, it is unplaced ([code], [data] and
    [entryPoint] null), it keeps the vault and the sizes LibTcg measures
    on it, and its name field has 32 bytes, ends in NUL and holds the
    first 31 characters of the name given.  Every other cell and every
    other field of the manager is as before. *)
Theorem AddPico_registers (tcg : LibTcg) (m : PICO_MANAGER) (nm : list ascii)
        (v : ptr) :
  is_null v = false -> entryCount m < entryCapacity m ->
  entryCapacity m < 2 ^ 32 ->
  (N.to_nat (entryCount m) < List.length (entries m))%nat ->
  exists m' e,
    AddPico tcg m (Some nm) v = (true, m') /\
    entryCount m' = entryCount m + 1 /\
    entries m' !! N.to_nat (entryCount m) = Some e /\
    id e = entryCount m /\ vault e = v /\
    code e = NULL /\ data e = NULL /\ entryPoint e = NULL /\
    codeSize e = int_to_SIZE_T (PicoCodeSize tcg v) /\
    dataSize e = int_to_SIZE_T (PicoDataSize tcg v) /\
    List.length (name e) = 32%nat /\
    char_at (name e) 31 = zero /\
    cstr (name e) = firstn 31 (cstr nm) /\
    (forall j, j <> N.to_nat (entryCount m) -> entries m' !! j = entries m !! j) /\
    (baseAddress m', blockSize m', usedSize m', entryCapacity m',
     interPicoPadding m')
    = (baseAddress m, blockSize m, usedSize m, entryCapacity m,
       interPicoPadding m).
Proof.
  intros Hv Hroom Hcap Hin.
  eexists _, (fresh_entry tcg (entryCount m) nm v).
  split; [now apply AddPico_success|].
  cbn [entryCount entries baseAddress blockSize usedSize entryCapacity
       interPicoPadding].
  split; [reflexivity|].
  split; [now apply list_lookup_insert_eq|].
  destruct (fresh_entry_name tcg (entryCount m) nm v) as (Hl & Hz & Hc).
  repeat (split; [first [reflexivity | assumption]|]).
  split; [|reflexivity].
  intros j Hj. apply list_lookup_insert_ne. congruence.
Qed.

Lemma AddPico_registers_witness :
  exists m', AddPico tcg_ex manager_ABC (Some (str "D")) vaultA = (true, m') /\
             entryCount m' = 4.
Proof.
  destruct (AddPico_registers tcg_ex manager_ABC (str "D") vaultA)
    as (m' & e & Heq & Hc & _); try reflexivity.
  - vm_compute. repeat constructor.
  - exists m'. split; [exact Heq | exact Hc].
Defined.

(** X2.  Register, then look up.  After a successful registration under
    the name [nm] the lookup of [nm] finds an entry, at a position not
    after the new one, and at the new one when no older entry bears that
    name (cut to 31 characters).  Every lookup that found an entry before
    the registration finds the same position after it, and the new
    position answers to its number. *)
Theorem AddPico_then_GetPicoByName (tcg : LibTcg) (m : PICO_MANAGER)
        (nm : list ascii) (v : ptr) (m' : PICO_MANAGER) :
  entryCount m < entryCapacity m -> entryCapacity m < 2 ^ 32 ->
  (N.to_nat (entryCount m) < List.length (entries m))%nat ->
  AddPico tcg m (Some nm) v = (true, m') ->
  (exists i, GetPicoByName m' (Some nm) = Some i /\
     (i <= N.to_nat (entryCount m))%nat /\
     ((forall j, (j < N.to_nat (entryCount m))%nat ->
         ~ name_matches nm (entry_at (entries m) j)) ->
      i = N.to_nat (entryCount m))) /\
  (forall q i, GetPicoByName m (Some q) = Some i ->
     GetPicoByName m' (Some q) = Some i) /\
  GetPicoById m' (entryCount m) = Some (N.to_nat (entryCount m)).
Proof.
  intros Hroom Hcap Hin Hadd.
  assert (Hv : is_null v = false).
  { unfold AddPico in Hadd. destruct (is_null v); [discriminate | reflexivity]. }
  rewrite (AddPico_success tcg m nm v Hv Hroom Hcap) in Hadd.
  injection Hadd as <-.
  set (es' := <[N.to_nat (entryCount m) := fresh_entry tcg (entryCount m) nm v]>
                (entries m)).
  set (m' := mkManager _ _ _ es' _ _ _).
  assert (Hold : forall j, (j < N.to_nat (entryCount m))%nat ->
             entry_at (entries m') j = entry_at (entries m) j).
  { intros j Hj. apply entry_at_insert_ne. lia. }
  assert (Hnew : entry_at (entries m') (N.to_nat (entryCount m))
                 = fresh_entry tcg (entryCount m) nm v).
  { now apply entry_at_insert_eq. }
  assert (Hcount : N.to_nat (entryCount m') = S (N.to_nat (entryCount m))).
  { cbn [m' entryCount]. lia. }
  split; [|split].
  - destruct (GetPicoByName m' (Some nm)) as [i|] eqn:Hg.
    + exists i. split; [reflexivity|].
      apply GetPicoByName_Some in Hg as (Hlt & Hm & Hfirst).
      split; [lia|]. intros Hnone.
      destruct (Nat.eq_dec i (N.to_nat (entryCount m))) as [|Hne];
        [assumption|].
      rewrite Hold in Hm by lia. now destruct (Hnone i ltac:(lia)).
    + rewrite GetPicoByName_None in Hg.
      destruct (Hg (N.to_nat (entryCount m)) ltac:(lia)).
      rewrite Hnew. apply fresh_entry_matches.
  - intros q i Hg. apply GetPicoByName_Some in Hg as (Hlt & Hm & Hfirst).
    apply GetPicoByName_Some. split; [lia|].
    split; [now rewrite Hold|].
    intros j Hj. rewrite Hold by lia. now apply Hfirst.
  - unfold GetPicoById. cbn [m' entryCount].
    destruct (N.leb_spec (entryCount m + 1) (entryCount m)); [lia | reflexivity].
Qed.

Lemma AddPico_then_GetPicoByName_witness :
  let m' := snd (AddPico tcg_ex manager_ABC (Some (str "D")) vaultA) in
  GetPicoByName m' (Some (str "D")) = Some 3%nat /\
  GetPicoById m' 3 = Some 3%nat.
Proof.
  intros m'.
  destruct (AddPico_then_GetPicoByName tcg_ex manager_ABC (str "D") vaultA m')
    as ((i & Hi & _ & Hnew) & _ & Hid); try reflexivity.
  - vm_compute. repeat constructor.
  - split; [|exact Hid]. rewrite Hi. f_equal. apply Hnew.
    intros j Hj Hm.
    assert (Hj3 : (j < 3)%nat) by exact Hj.
    destruct j as [|[|[|j]]]; [| | |lia]; vm_compute in Hm; discriminate Hm.
Defined.

(** ** Lookup by number *)

(** X3.  On every manager reached from [PicoManagerInit] by calls of
    [AddPico], [RemovePicoById] and [RemovePicoByName], [GetPicoById]
    answers a number below the count with the cell of that position,
    whose [id] field is the number asked for, and answers any other
    number with nothing. *)
Theorem GetPicoById_after_ops (tcg : LibTcg) (es : list PICO_ENTRY) (cap : N)
        (w : World) (ops : list Op) (oks : list bool) (m' : PICO_MANAGER)
        (w' : World) (k : N) :
  cap < 2 ^ 32 -> (N.to_nat cap <= List.length es)%nat ->
  run_ops tcg ops (PicoManagerInit es cap, w) = (oks, (m', w')) ->
  match GetPicoById m' k with
  | Some i => k < entryCount m' /\ i = N.to_nat k /\
              exists e, entries m' !! i = Some e /\ id e = k
  | None => entryCount m' <= k
  end.
Proof.
  intros Hcap Hlen Hrun.
  destruct (PicoManagerInit_inv es cap Hcap Hlen) as [Hs Hinv].
  destruct (run_ops_inv tcg ops _ _ _ _ _ Hs Hinv Hrun) as [_ [_ Hid]].
  unfold GetPicoById.
  destruct (N.leb_spec (entryCount m') k) as [Hle|Hlt]; [exact Hle|].
  split; [exact Hlt|]. split; [reflexivity|].
  destruct (Hid (N.to_nat k) ltac:(lia)) as (e & He & Hide).
  exists e. split; [exact He|]. rewrite Hide. lia.
Qed.

Lemma GetPicoById_after_ops_witness :
  let ops := [Register (Some (str "A")) vaultA;
              Register (Some (str "B")) vaultB;
              RemoveById 0] in
  let r := run_ops tcg_ex ops
             (PicoManagerInit (repeat zero_entry 2) 2, world_ex (always true)) in
  exists e, entries (fst (snd r)) !! 0%nat = Some e /\ id e = 0.
Proof.
  intros ops r.
  pose proof (GetPicoById_after_ops tcg_ex (repeat zero_entry 2) 2
                (world_ex (always true)) ops (fst r) (fst (snd r)) (snd (snd r)) 0)
    as H.
  change (GetPicoById (fst (snd r)) 0) with (Some 0%nat) in H.
  destruct H as (_ & _ & He).
  - reflexivity.
  - vm_compute. repeat constructor.
  - vm_compute. reflexivity.
  - exact He.
Defined.

(** ** Removal and the names left *)

Lemma compacted_names m k w m' w' :
  fits m -> k < entryCount m -> compacted m k w m' w' ->
  forall j, (j < N.to_nat (entryCount m'))%nat ->
    identity_of (set_id (entry_at (entries m') j) 0)
    = identity_of (set_id (entry_at (entries m) (before_removal (N.to_nat k) j)) 0).
Proof.
  intros [Hdw Hfit] Hk (Hcount & _ & Hbefore & Hshift & _) j Hj.
  rewrite Hcount in Hj. unfold before_removal.
  destruct (Nat.ltb_spec j (N.to_nat k)) as [Hlt|Hge].
  - unfold entry_at. now rewrite Hbefore.
  - destruct (Hshift j ltac:(lia)) as (e & He & He').
    now rewrite (entry_at_Some _ _ _ He), (entry_at_Some _ _ _ He').
Qed.

Lemma compacted_name m k w m' w' :
  fits m -> k < entryCount m -> compacted m k w m' w' ->
  forall j, (j < N.to_nat (entryCount m'))%nat ->
    name (entry_at (entries m') j)
    = name (entry_at (entries m) (before_removal (N.to_nat k) j)).
Proof.
  intros Hf Hk Hc j Hj.
  pose proof (compacted_names m k w m' w' Hf Hk Hc j Hj) as H.
  unfold identity_of in H. cbn [id name set_id] in H. congruence.
Qed.

Lemma RemovePicoById_lookups (m : PICO_MANAGER) (k : N) (w : World)
      (m' : PICO_MANAGER) (w' : World) (q : list ascii) :
  fits m -> RemovePicoById m k w = (true, m', w') -> lookups_shift m k m' q.
Proof.
  unfold lookups_shift. intros Hfit Hrun.
  destruct (N.lt_ge_cases k (entryCount m)) as [Hk|Hk].
  2:{ rewrite (RemovePicoById_miss m k w Hk) in Hrun. discriminate. }
  destruct (RemovePicoById_hit m k w Hfit Hk) as (m1 & w1 & Heq & Hc).
  rewrite Heq in Hrun. injection Hrun as <- <-.
  pose proof (compacted_name m k w m1 w1 Hfit Hk Hc) as Hname.
  assert (Hcount : N.to_nat (entryCount m1) = (N.to_nat (entryCount m) - 1)%nat).
  { destruct Hc as (Hcount & _). rewrite Hcount. lia. }
  assert (Hm : forall j, (j < N.to_nat (entryCount m1))%nat ->
             (name_matches q (entry_at (entries m1) j) <->
              name_matches q (entry_at (entries m)
                                (before_removal (N.to_nat k) j)))).
  { intros j Hj. unfold name_matches. now rewrite Hname. }
  assert (Hlo : forall j, (j < N.to_nat k)%nat ->
             before_removal (N.to_nat k) j = j).
  { intros j Hj. unfold before_removal.
    destruct (Nat.ltb_spec j (N.to_nat k)); [reflexivity | lia]. }
  assert (Hhi : forall j, (N.to_nat k <= j)%nat ->
             before_removal (N.to_nat k) j = S j).
  { intros j Hj. unfold before_removal.
    destruct (Nat.ltb_spec j (N.to_nat k)); [lia | reflexivity]. }
  assert (Hshift : forall j, (j < N.to_nat (entryCount m1))%nat ->
             (before_removal (N.to_nat k) j < N.to_nat (entryCount m))%nat).
  { intros j Hj. unfold before_removal.
    destruct (Nat.ltb_spec j (N.to_nat k)); lia. }
  destruct Hfit as [Hdw Hfit].
  destruct (GetPicoByName m (Some q)) as [i|] eqn:Hg.
  - apply GetPicoByName_Some in Hg as (Hlt & Hmi & Hfirst).
    split; [|split; [|split]].
    + intros Hik. apply GetPicoByName_Some. split; [lia|].
      split; [apply Hm; [lia|]; now rewrite Hlo|].
      intros j Hj Hmj. apply Hm in Hmj; [|lia]. rewrite Hlo in Hmj by lia.
      now apply (Hfirst j).
    + intros Hki. apply GetPicoByName_Some. split; [lia|].
      split.
      { apply Hm; [lia|]. rewrite Hhi by lia.
        now replace (S (i - 1)) with i by lia. }
      intros j Hj Hmj. apply Hm in Hmj; [|lia].
      apply (Hfirst (before_removal (N.to_nat k) j)); [|exact Hmj].
      unfold before_removal. destruct (Nat.ltb_spec j (N.to_nat k)); lia.
    + intros -> Hlater. apply GetPicoByName_None. intros j Hj Hmj.
      apply Hm in Hmj; [|exact Hj].
      destruct (Nat.lt_ge_cases j (N.to_nat k)) as [Hjk|Hjk].
      * rewrite Hlo in Hmj by exact Hjk. now apply (Hfirst j).
      * rewrite Hhi in Hmj by exact Hjk. apply (Hlater (S j)); [lia | exact Hmj].
    + intros -> j Hj Hmj Hbetween. apply GetPicoByName_Some. split; [lia|].
      split.
      { apply Hm; [lia|]. rewrite Hhi by lia.
        now replace (S (j - 1)) with j by lia. }
      intros j' Hj' Hmj'. apply Hm in Hmj'; [|lia].
      destruct (Nat.lt_ge_cases j' (N.to_nat k)) as [Hjk|Hjk].
      * rewrite Hlo in Hmj' by exact Hjk. now apply (Hfirst j').
      * rewrite Hhi in Hmj' by exact Hjk.
        apply (Hbetween (S j')); [lia | exact Hmj'].
  - rewrite GetPicoByName_None in Hg. apply GetPicoByName_None.
    intros j Hj Hmj. apply Hm in Hmj; [|exact Hj].
    apply (Hg _ (Hshift j Hj) Hmj).
Qed.

(** X4.  What a removal does to lookups by name.  Remove position [k]
    from a catalog that lies inside its array.  A name found before [k]
    is found at the same position; a name found after [k] is found one
    position lower; a name found nowhere is still found nowhere; and the
    name found at [k] is found nowhere when no later entry bears it, and
    otherwise at the position, lowered by one, of the next entry that
    does. *)
Theorem RemovePicoById_then_GetPicoByName (m : PICO_MANAGER) (k : N) (w : World)
        (m' : PICO_MANAGER) (w' : World) (q : list ascii) :
  fits m -> RemovePicoById m k w = (true, m', w') ->
  match GetPicoByName m (Some q) with
  | None => GetPicoByName m' (Some q) = None
  | Some i =>
      ((i < N.to_nat k)%nat -> GetPicoByName m' (Some q) = Some i) /\
      ((N.to_nat k < i)%nat -> GetPicoByName m' (Some q) = Some (i - 1)%nat) /\
      (i = N.to_nat k ->
       (forall j, (i < j < N.to_nat (entryCount m))%nat ->
          ~ name_matches q (entry_at (entries m) j)) ->
       GetPicoByName m' (Some q) = None) /\
      (i = N.to_nat k ->
       forall j, (i < j < N.to_nat (entryCount m))%nat ->
         name_matches q (entry_at (entries m) j) ->
         (forall j', (i < j' < j)%nat ->
            ~ name_matches q (entry_at (entries m) j')) ->
         GetPicoByName m' (Some q) = Some (j - 1)%nat)
  end.
Proof.
  intros Hfit Hrun. exact (RemovePicoById_lookups m k w m' w' q Hfit Hrun).
Qed.

Lemma RemovePicoById_then_GetPicoByName_witness :
  let r := RemovePicoById manager_ABC 1 (world_ex (always true)) in
  GetPicoByName (snd (fst r)) (Some (str "A")) = Some 0%nat /\
  GetPicoByName (snd (fst r)) (Some (str "C")) = Some 1%nat.
Proof.
  intros r.
  assert (Hfit : fits manager_ABC).
  { split; [reflexivity | vm_compute; repeat constructor]. }
  assert (Hrun : RemovePicoById manager_ABC 1 (world_ex (always true))
                 = (true, snd (fst r), snd r)) by (vm_compute; reflexivity).
  pose proof (RemovePicoById_then_GetPicoByName manager_ABC 1 _ _ _ (str "A")
                Hfit Hrun) as HA.
  pose proof (RemovePicoById_then_GetPicoByName manager_ABC 1 _ _ _ (str "C")
                Hfit Hrun) as HC.
  change (GetPicoByName manager_ABC (Some (str "A"))) with (Some 0%nat) in HA.
  change (GetPicoByName manager_ABC (Some (str "C"))) with (Some 2%nat) in HC.
  destruct HA as (HA & _). destruct HC as (_ & HC & _).
  split; [apply HA | apply HC]; vm_compute; repeat constructor.
Defined.

(** X5.  [RemovePicoByName] on a catalog that lies inside its array.  A
    name no entry bears is refused: [FALSE], nothing changes.  Otherwise
    the call returns [TRUE] and does what [RemovePicoById] does at the
    first position bearing the name: the later entries move down by one
    and are renumbered, the count drops by one, the data block of the
    removed entry is released.  When no other entry bears the name, a
    lookup of it then finds nothing. *)
Theorem RemovePicoByName_removes_first (m : PICO_MANAGER) (q : list ascii)
        (w : World) :
  fits m ->
  match GetPicoByName m (Some q) with
  | None => RemovePicoByName m (Some q) w = (false, m, w)
  | Some i =>
      exists m' w',
        RemovePicoByName m (Some q) w = (true, m', w') /\
        RemovePicoById m (N.of_nat i) w = (true, m', w') /\
        compacted m (N.of_nat i) w m' w' /\
        ((forall j, (i < j < N.to_nat (entryCount m))%nat ->
            ~ name_matches q (entry_at (entries m) j)) ->
         GetPicoByName m' (Some q) = None)
  end.
Proof.
  intros Hfit. unfold RemovePicoByName.
  destruct (GetPicoByName m (Some q)) as [i|] eqn:Hg; [|reflexivity].
  pose proof (GetPicoByName_in_catalog m _ _ Hg) as Hi.
  pose proof Hfit as [Hdw _].
  rewrite wrapD_small by lia.
  destruct (RemovePicoById_hit m (N.of_nat i) w Hfit ltac:(lia))
    as (m' & w' & Heq & Hc).
  exists m', w'. split; [exact Heq|]. split; [exact Heq|]. split; [exact Hc|].
  intros Hlater.
  pose proof (RemovePicoById_lookups m (N.of_nat i) w m' w' q Hfit Heq) as H.
  unfold lookups_shift in H. rewrite Hg in H. destruct H as (_ & _ & H & _).
  apply H; [lia | exact Hlater].
Qed.

Lemma RemovePicoByName_removes_first_witness :
  exists m' w',
    RemovePicoByName manager_ABC (Some (str "B")) (world_ex (always true))
    = (true, m', w') /\
    GetPicoByName m' (Some (str "B")) = None.
Proof.
  assert (Hfit : fits manager_ABC).
  { split; [reflexivity | vm_compute; repeat constructor]. }
  pose proof (RemovePicoByName_removes_first manager_ABC (str "B")
                (world_ex (always true)) Hfit) as H.
  change (GetPicoByName manager_ABC (Some (str "B"))) with (Some 1%nat) in H.
  destruct H as (m' & w' & Heq & _ & _ & Hgone).
  exists m', w'. split; [exact Heq|]. apply Hgone.
  intros j Hj Hm.
  assert (Hj2 : j = 2%nat) by (change (N.to_nat (entryCount manager_ABC)) with 3%nat in Hj; lia).
  subst j. vm_compute in Hm. discriminate Hm.
Defined.

(** ** What the catalog operations leave alone *)

Lemma AddPico_fields tcg m nm v ok m' :
  AddPico tcg m nm v = (ok, m') ->
  (baseAddress m', blockSize m', usedSize m', entryCapacity m',
   interPicoPadding m', List.length (entries m'))
  = (baseAddress m, blockSize m, usedSize m, entryCapacity m,
     interPicoPadding m, List.length (entries m)).
Proof.
  destruct nm as [nm|]; [|now intros [= <- <-]].
  destruct (is_null v) eqn:Hv.
  { unfold AddPico. rewrite Hv. now intros [= <- <-]. }
  rewrite AddPico_Some by exact Hv.
  destruct (entryCapacity m <=? entryCount m); intros [= <- <-]; [reflexivity|].
  cbn [baseAddress blockSize usedSize entryCapacity interPicoPadding entries
       set_entryCount set_entries].
  now rewrite length_insert.
Qed.

Lemma RemovePicoById_fields m k w ok m' w' :
  RemovePicoById m k w = (ok, m', w') ->
  (baseAddress m', blockSize m', usedSize m', entryCapacity m',
   interPicoPadding m', List.length (entries m'))
  = (baseAddress m, blockSize m, usedSize m, entryCapacity m,
     interPicoPadding m, List.length (entries m)).
Proof.
  unfold RemovePicoById. destruct (entryCount m <=? k); [now intros [= <- <- <-]|].
  destruct (is_null (data (entry_at (entries m) (N.to_nat k))));
    intros [= <- <- <-];
    cbn [baseAddress blockSize usedSize entryCapacity interPicoPadding entries
         set_entryCount set_entries];
    now rewrite ?length_insert, shift_loop_length, ?length_insert.
Qed.

Lemma RemovePicoByName_fields m nm w ok m' w' :
  RemovePicoByName m nm w = (ok, m', w') ->
  (baseAddress m', blockSize m', usedSize m', entryCapacity m',
   interPicoPadding m', List.length (entries m'))
  = (baseAddress m, blockSize m, usedSize m, entryCapacity m,
     interPicoPadding m, List.length (entries m)).
Proof.
  unfold RemovePicoByName. destruct nm as [q|]; [|now intros [= <- <- <-]].
  destruct (GetPicoByName m (Some q)); [|now intros [= <- <- <-]].
  apply RemovePicoById_fields.
Qed.

Lemma run_ops_fields tcg ops : forall m w oks m' w',
  run_ops tcg ops (m, w) = (oks, (m', w')) ->
  (baseAddress m', blockSize m', usedSize m', entryCapacity m',
   interPicoPadding m', List.length (entries m'))
  = (baseAddress m, blockSize m, usedSize m, entryCapacity m,
     interPicoPadding m, List.length (entries m)).
Proof.
  induction ops as [|op ops IH]; intros m w oks m' w'; cbn [run_ops].
  - now intros [= <- <- <-].
  - destruct (apply_op tcg op (m, w)) as [ok [m1 w1]] eqn:Hop.
    destruct (run_ops tcg ops (m1, w1)) as [oks1 [m2 w2]] eqn:Hrun.
    intros [= <- <- <-]. rewrite (IH _ _ _ _ _ Hrun).
    destruct op as [nm v|k|nm]; cbn [apply_op fst snd] in Hop.
    + destruct (AddPico tcg m nm v) as [ok1 m3] eqn:Heq.
      injection Hop as <- <- <-. exact (AddPico_fields _ _ _ _ _ _ Heq).
    + destruct (RemovePicoById m k w) as [[ok1 m3] w3] eqn:Heq.
      injection Hop as <- <- <-. exact (RemovePicoById_fields _ _ _ _ _ _ Heq).
    + destruct (RemovePicoByName m nm w) as [[ok1 m3] w3] eqn:Heq.
      injection Hop as <- <- <-. exact (RemovePicoByName_fields _ _ _ _ _ _ Heq).
Qed.

(** X6.  Registrations and removals never touch the bookkeeping of the
    executable block: after any sequence of [AddPico], [RemovePicoById]
    and [RemovePicoByName] calls, from any manager, [baseAddress],
    [blockSize], [usedSize], the capacity, the padding and the length of
    the array are what they were.  So on a manager that had no block
    (as after [PicoManagerInit]) every [LoadPico] fails at its first
    test and changes nothing. *)
Theorem catalog_ops_keep_block (tcg : LibTcg) (ops : list Op)
        (m : PICO_MANAGER) (w : World) (oks : list bool)
        (m' : PICO_MANAGER) (w' : World) :
  run_ops tcg ops (m, w) = (oks, (m', w')) ->
  (baseAddress m', blockSize m', usedSize m', entryCapacity m',
   interPicoPadding m', List.length (entries m'))
  = (baseAddress m, blockSize m, usedSize m, entryCapacity m,
     interPicoPadding m, List.length (entries m)) /\
  (is_null (baseAddress m) = true \/ blockSize m = 0 ->
   forall upToEntryId finalPadding funcs,
     LoadPico tcg m' upToEntryId finalPadding funcs w' = (NotAllocated, m', w')).
Proof.
  intros Hrun. pose proof (run_ops_fields tcg ops _ _ _ _ _ Hrun) as Hf.
  split; [exact Hf|]. injection Hf as Hb Hs _ _ _ _.
  intros Hno k fp funcs. apply LoadPico_not_allocated. now rewrite Hb, Hs.
Qed.

Lemma catalog_ops_keep_block_witness :
  let ops := [Register (Some (str "A")) vaultA; RemoveByName (Some (str "A"));
              Register (Some (str "B")) vaultB] in
  let r := run_ops tcg_ex ops
             (PicoManagerInit (repeat zero_entry 2) 2, world_ex (always true)) in
  LoadPico tcg_ex (fst (snd r)) DWORD_MINUS_ONE 0 NULL (snd (snd r))
  = (NotAllocated, fst (snd r), snd (snd r)).
Proof.
  intros ops r.
  refine (proj2 (catalog_ops_keep_block tcg_ex ops
                   (PicoManagerInit (repeat zero_entry 2) 2)
                   (world_ex (always true)) (fst r) (fst (snd r)) (snd (snd r)) _)
                _ _ _ _).
  - vm_compute. reflexivity.
  - left. reflexivity.
Defined.

(** ** A successful load *)

(** X7.  What a successful [LoadPico] leaves.  Let [n] be the number of
    positions walked (the boundary plus one, or the count).  [usedSize] is
    the offset replayed over the first [n] entries; no cell from [n] on
    is written; a cell below [n] that was placed, or is an empty slot, is
    untouched; every other cell below [n] now holds its module loaded at
    the offset replayed over the cells before it, with a data block of
    the module's data size that is reserved, the entry point LibTcg
    computes, and a relocation on record.  The other fields of the
    manager are unchanged. *)
Theorem LoadPico_success_layout
        (tcg : LibTcg) (m : PICO_MANAGER) (upToEntryId finalPadding : N)
        (funcs : ptr) (w : World) (m' : PICO_MANAGER) (w' : World) :
  LoadPico tcg m upToEntryId finalPadding funcs w = (LoadOk, m', w') ->
  let n := load_bound m upToEntryId in
  usedSize m' = replay (interPicoPadding m) (take n (entries m)) 0 /\
  (baseAddress m', blockSize m', entryCount m', entryCapacity m',
   interPicoPadding m')
  = (baseAddress m, blockSize m, entryCount m, entryCapacity m,
     interPicoPadding m) /\
  (forall j, (n <= j)%nat -> entries m' !! j = entries m !! j) /\
  (forall j, (j < n)%nat ->
     let e := entry_at (entries m) j in
     let off_j := replay (interPicoPadding m) (take j (entries m)) 0 in
     (placed e || negb (has_vault e) = true ->
      entries m' !! j = entries m !! j) /\
     (placed e = false -> has_vault e = true ->
      exists b,
        entries m' !! j = Some (loaded_entry tcg m e off_j (Ptr b 0)) /\
        In (mkRegion b (dataSize e) PAGE_READWRITE) (live w') /\
        In (mkRelocation funcs (vault e) (ptr_add (baseAddress m) off_j)
                         (Ptr b 0)) (relocated w'))).
Proof.
  intros H. apply LoadPico_cases in H as [(Ho & _) | (Hb & Hs & off & es & Hloop & ->)];
    [discriminate|].
  cbv zeta. cbn [BOOL_of usedSize entries baseAddress blockSize entryCount
                 entryCapacity interPicoPadding set_usedSize set_entries].
  pose proof (loop_frame _ _ _ _ _ _ _ _ _ _ _ _ _ Hloop) as (_ & Hf & _).
  apply loop_ok in Hloop as [Hoff Hj]. rewrite drop_0 in Hoff.
  split; [exact Hoff|]. split; [reflexivity|].
  split; [intros j Hge; apply Hf; lia|].
  intros j Hlt. specialize (Hj j ltac:(lia)).
  rewrite Nat.sub_0_r, drop_0 in Hj. exact Hj.
Qed.

Lemma LoadPico_success_layout_witness :
  let m := with_block manager_ABC (Ptr 7 0) 400 in
  let r := LoadPico tcg_ex m 1 0 NULL (world_ex (always true)) in
  usedSize (snd (fst r)) = 332 /\
  entries (snd (fst r)) !! 2%nat = entries m !! 2%nat.
Proof.
  intros m r.
  destruct (LoadPico_success_layout tcg_ex m 1 0 NULL (world_ex (always true))
              (snd (fst r)) (snd r)) as (Hu & _ & Hrest & _).
  - vm_compute. reflexivity.
  - split; [rewrite Hu; vm_compute; reflexivity|].
    apply Hrest. vm_compute. repeat constructor.
Defined.

(** ** What loading never changes *)

Lemma identity_insert es i x :
  identity_of x = identity_of (entry_at es i) ->
  forall j, identity_of (entry_at (<[i := x]> es) j) = identity_of (entry_at es j).
Proof.
  intros Hx j. destruct (Nat.eq_dec j i) as [->|Hne].
  - destruct (Nat.lt_ge_cases i (List.length es)) as [Hlt|Hge].
    + now rewrite entry_at_insert_eq.
    + now rewrite list_insert_ge.
  - now rewrite entry_at_insert_ne by congruence.
Qed.

Lemma loop_identity tcg m fp funcs n : forall i off es w o off' es' w',
  LoadPico_loop tcg m fp funcs n i off es w = (o, off', es', w') ->
  forall j, identity_of (entry_at es' j) = identity_of (entry_at es j).
Proof.
  induction n as [|n IH]; intros i off es w o off' es' w'.
  - now intros [= <- <- <- <-].
  - rewrite loop_step. cbv zeta.
    destruct (placed (entry_at es i)); [apply IH|].
    destruct (negb (has_vault (entry_at es i))); [apply IH|].
    destruct (blockSize m <? _); [now intros [= <- <- <- <-]|].
    destruct (VirtualAlloc _ _ _) as [d w1].
    destruct (is_null d).
    + intros [= <- <- <- <-]. now apply identity_insert.
    + intros H j. rewrite (IH _ _ _ _ _ _ _ _ H j). now apply identity_insert.
Qed.

Lemma TotalCodeSize_loop_identity m1 m2 n : forall i acc,
  entryCount m1 = entryCount m2 -> interPicoPadding m1 = interPicoPadding m2 ->
  (forall j, identity_of (entry_at (entries m1) j)
             = identity_of (entry_at (entries m2) j)) ->
  TotalCodeSize_loop m1 n i acc = TotalCodeSize_loop m2 n i acc.
Proof.
  intros i acc Hc Hp Hid. revert i acc.
  induction n as [|n IH]; intros i acc; cbn [TotalCodeSize_loop]; [reflexivity|].
  pose proof (Hid i) as Hi. unfold identity_of in Hi.
  injection Hi as _ _ Hcs _ Hv. rewrite Hv, Hcs, Hc, Hp, !IH. reflexivity.
Qed.

(** X8.  Loading changes placements only.  Whatever [LoadPico] returns,
    the count, the capacity, the padding, the block and the length of the
    array are unchanged, and so are the [id], the name, the two sizes and
    the vault of every cell.  Hence [TotalCodeSize] and every lookup by
    name give after the call what they gave before it. *)
Theorem LoadPico_keeps_identities
        (tcg : LibTcg) (m : PICO_MANAGER) (upToEntryId finalPadding : N)
        (funcs : ptr) (w : World) (o : LoadOutcome) (m' : PICO_MANAGER)
        (w' : World) :
  LoadPico tcg m upToEntryId finalPadding funcs w = (o, m', w') ->
  (baseAddress m', blockSize m', entryCount m', entryCapacity m',
   interPicoPadding m', List.length (entries m'))
  = (baseAddress m, blockSize m, entryCount m, entryCapacity m,
     interPicoPadding m, List.length (entries m)) /\
  (forall j,
     let e' := entry_at (entries m') j in
     let e := entry_at (entries m) j in
     (id e', name e', codeSize e', dataSize e', vault e')
     = (id e, name e, codeSize e, dataSize e, vault e)) /\
  TotalCodeSize m' = TotalCodeSize m /\
  (forall q, GetPicoByName m' (Some q) = GetPicoByName m (Some q)).
Proof.
  intros H.
  assert (Hall :
    (baseAddress m', blockSize m', entryCount m', entryCapacity m',
     interPicoPadding m', List.length (entries m'))
    = (baseAddress m, blockSize m, entryCount m, entryCapacity m,
       interPicoPadding m, List.length (entries m)) /\
    (forall j, identity_of (entry_at (entries m') j)
               = identity_of (entry_at (entries m) j))).
  { apply LoadPico_cases in H
      as [(_ & -> & _) | (Hb & Hs & off & es & Hloop & ->)]; [now split|].
    pose proof (loop_frame _ _ _ _ _ _ _ _ _ _ _ _ _ Hloop) as (Hl & _).
    pose proof (loop_identity _ _ _ _ _ _ _ _ _ _ _ _ _ Hloop) as Hid.
    destruct (BOOL_of o);
      cbn [baseAddress blockSize entryCount entryCapacity interPicoPadding
           entries set_usedSize set_entries]; rewrite Hl; now split. }
  destruct Hall as [Hf Hid]. split; [exact Hf|]. split; [exact Hid|].
  injection Hf as _ _ Hc _ Hp _.
  split.
  - unfold TotalCodeSize. rewrite Hc.
    now apply TotalCodeSize_loop_identity.
  - intros q. apply GetPicoByName_names; [exact Hc|].
    intros j _. pose proof (Hid j) as Hj. unfold identity_of in Hj. congruence.
Qed.

Lemma LoadPico_keeps_identities_witness :
  let m := with_block manager_ABC (Ptr 7 0) 381 in
  let r := LoadPico tcg_ex m DWORD_MINUS_ONE 0 NULL (world_ex (always true)) in
  TotalCodeSize (snd (fst r)) = TotalCodeSize m.
Proof.
  intros m r.
  refine (proj1 (proj2 (proj2 (LoadPico_keeps_identities tcg_ex m DWORD_MINUS_ONE 0
                                 NULL (world_ex (always true)) (fst (fst r))
                                 (snd (fst r)) (snd r) _)))).
  vm_compute. reflexivity.
Defined.

(** ** Loading in phases *)

Lemma loop_split tcg m fp funcs a : forall b i off es w,
  LoadPico_loop tcg m fp funcs (a + b) i off es w =
  let '(o, off1, es1, w1) := LoadPico_loop tcg m fp funcs a i off es w in
  match o with
  | LoadOk => LoadPico_loop tcg m fp funcs b (i + a) off1 es1 w1
  | _ => (o, off1, es1, w1)
  end.
Proof.
  induction a as [|a IH]; intros b i off es w.
  - cbn [Nat.add LoadPico_loop]. now rewrite Nat.add_0_r.
  - change (S a + b)%nat with (S (a + b)). rewrite !loop_step. cbv zeta.
    replace (i + S a)%nat with (S i + a)%nat by lia.
    destruct (placed (entry_at es i)); [apply IH|].
    destruct (negb (has_vault (entry_at es i))); [apply IH|].
    destruct (blockSize m <? _); [reflexivity|].
    destruct (VirtualAlloc _ _ _) as [d w1].
    destruct (is_null d); [reflexivity | apply IH].
Qed.

Lemma load_bound_mono m k1 k2 :
  k1 <= k2 -> k2 < 2 ^ 32 -> (load_bound m k1 <= load_bound m k2)%nat.
Proof.
  intros Hle Hdw. unfold load_bound, DWORD_MINUS_ONE.
  destruct (N.eqb_spec k2 (2 ^ 32 - 1)) as [->|Hk2].
  - lia.
  - destruct (N.eqb_spec k1 (2 ^ 32 - 1)) as [->|Hk1]; [lia|].
    rewrite !wrapD_small by lia. lia.
Qed.

(** X9.  Loading in phases is loading at once.  When a first call with
    boundary [k1] has returned [TRUE], a second call with a boundary
    [k2 >= k1] (or ALL) and the same final padding returns what a single
    call with boundary [k2] on the original manager and world returns:
    the same outcome, the same entries, the same world, and on success
    the same manager.  On failure the one difference is [usedSize],
    which the first phase has already set. *)
Theorem LoadPico_phases
        (tcg : LibTcg) (m : PICO_MANAGER) (k1 k2 finalPadding : N)
        (funcs : ptr) (w : World) (m1 : PICO_MANAGER) (w1 : World) :
  k1 <= k2 -> k2 < 2 ^ 32 ->
  LoadPico tcg m k1 finalPadding funcs w = (LoadOk, m1, w1) ->
  exists o m2 w2,
    LoadPico tcg m k2 finalPadding funcs w = (o, m2, w2) /\
    LoadPico tcg m1 k2 finalPadding funcs w1
    = (o, (if BOOL_of o then m2 else set_usedSize m2 (usedSize m1)), w2).
Proof.
  intros Hle Hdw H.
  pose proof (load_bound_mono m k1 k2 Hle Hdw) as Hmono.
  apply LoadPico_cases in H as [(Ho & _) | (Hb & Hs & off & es & Hloop & ->)];
    [discriminate|].
  cbn [BOOL_of].
  set (m1 := set_usedSize (set_entries m es) off).
  rewrite (LoadPico_allocated tcg finalPadding funcs m k2 w Hb Hs).
  rewrite (LoadPico_allocated tcg finalPadding funcs m1 k2 w1 Hb Hs).
  rewrite (loop_fields tcg finalPadding funcs m1 m) by reflexivity.
  change (load_bound m1 k2) with (load_bound m k2).
  change (entries m1) with es.
  replace (load_bound m k2)
    with (load_bound m k1 + (load_bound m k2 - load_bound m k1))%nat by lia.
  rewrite !loop_split.
  rewrite Hloop, (loop_again _ _ _ _ _ _ _ _ _ _ _ _ Hb Hloop).
  destruct (LoadPico_loop tcg m finalPadding funcs _ _ off es w1)
    as [[[o off2] es2] w2].
  exists o. destruct o; eexists _, _; split; reflexivity.
Qed.

Lemma LoadPico_phases_witness :
  let m := with_block manager_ABC (Ptr 7 0) 400 in
  let r1 := LoadPico tcg_ex m 0 0 NULL (world_ex (always true)) in
  LoadPico tcg_ex (snd (fst r1)) DWORD_MINUS_ONE 0 NULL (snd r1)
  = LoadPico tcg_ex m DWORD_MINUS_ONE 0 NULL (world_ex (always true)).
Proof.
  intros m r1.
  destruct (LoadPico_phases tcg_ex m 0 DWORD_MINUS_ONE 0 NULL
              (world_ex (always true)) (snd (fst r1)) (snd r1))
    as (o & m2 & w2 & Hone & Htwo).
  - vm_compute. discriminate.
  - reflexivity.
  - vm_compute. reflexivity.
  - rewrite Htwo, Hone.
    assert (Ho : o = LoadOk).
    { assert (Hf : fst (fst (LoadPico tcg_ex m DWORD_MINUS_ONE 0 NULL
                               (world_ex (always true)))) = LoadOk)
        by (vm_compute; reflexivity).
      rewrite Hone in Hf. exact Hf. }
    rewrite Ho. reflexivity.
Defined.

(** X10.  A boundary at or past the last position is ALL: for a DWORD
    boundary [k] with [entryCount <= k + 1], [LoadPico] with boundary [k]
    returns what it returns with boundary [(DWORD)-1]. *)
Theorem LoadPico_boundary_past_end
        (tcg : LibTcg) (m : PICO_MANAGER) (k finalPadding : N) (funcs : ptr)
        (w : World) :
  k < 2 ^ 32 -> entryCount m <= k + 1 ->
  LoadPico tcg m k finalPadding funcs w
  = LoadPico tcg m DWORD_MINUS_ONE finalPadding funcs w.
Proof.
  intros Hdw Hk.
  assert (Hbound : load_bound m k = load_bound m DWORD_MINUS_ONE).
  { unfold load_bound, DWORD_MINUS_ONE.
    destruct (N.eqb_spec k (2 ^ 32 - 1)) as [->|Hne]; [reflexivity|].
    rewrite wrapD_small by lia. change (2 ^ 32 - 1 =? 2 ^ 32 - 1) with true.
    cbv iota. lia. }
  destruct (is_null (baseAddress m)) eqn:Hb.
  { now rewrite !LoadPico_not_allocated by now left. }
  destruct (N.eq_dec (blockSize m) 0) as [Hs|Hs].
  { now rewrite !LoadPico_not_allocated by now right. }
  rewrite !LoadPico_allocated by assumption. now rewrite Hbound.
Qed.

Lemma LoadPico_boundary_past_end_witness :
  let m := with_block manager_ABC (Ptr 7 0) 400 in
  LoadPico tcg_ex m 2 0 NULL (world_ex (always true))
  = LoadPico tcg_ex m DWORD_MINUS_ONE 0 NULL (world_ex (always true)).
Proof.
  intros m. apply LoadPico_boundary_past_end.
  - reflexivity.
  - vm_compute. discriminate.
Defined.

(** ** Sizing the block and filling it *)

Lemma unloaded_in_array es j :
  unloaded (entry_at es j) = true -> es !! j = Some (entry_at es j).
Proof.
  unfold unloaded. intros H. apply andb_true_iff in H as [Hv _].
  apply occupied_in_array. now rewrite Hv, orb_true_r.
Qed.

Lemma footprint_total pad es :
  footprint pad es = code_total es + pad * N.of_nat (List.length es).
Proof.
  induction es as [|e es IH]; [cbn; lia|].
  unfold footprint, code_total in *. cbn [fold_right List.map List.length].
  rewrite IH. lia.
Qed.

(** A walk over unplaced modules that fit, with every allocation
    granted, places them all. *)
Lemma loop_places_all tcg m fp funcs n : forall i off es w,
  (forall j, (i <= j < i + n)%nat -> unloaded (entry_at es j) = true) ->
  (forall k, (k < n)%nat -> oracle w (allocs w + k) = true) ->
  off + footprint (interPicoPadding m) (take n (drop i es)) + fp <= blockSize m ->
  blockSize m < 2 ^ 64 ->
  exists es' w',
    LoadPico_loop tcg m fp funcs n i off es w
    = (LoadOk, off + footprint (interPicoPadding m) (take n (drop i es)), es', w').
Proof.
  induction n as [|n IH]; intros i off es w Hun Hor Hroom Hbs.
  - exists es, w. rewrite take_0. cbn. now rewrite N.add_0_r.
  - pose proof (unloaded_in_array es i (Hun i ltac:(lia))) as Hin.
    pose proof (Hun i ltac:(lia)) as Hu. unfold unloaded in Hu.
    apply andb_true_iff in Hu as [Hv Hp]. apply negb_true_iff in Hp.
    rewrite (drop_S _ _ _ Hin) in Hroom |- *.
    cbn [take firstn footprint fold_right] in Hroom |- *.
    fold (footprint (interPicoPadding m) (take n (drop (S i) es))) in Hroom |- *.
    set (e := entry_at es i) in *.
    set (rest := footprint (interPicoPadding m) (take n (drop (S i) es))) in *.
    assert (Hstep : wrapS (off + wrapS (codeSize e + interPicoPadding m))
                    = off + (codeSize e + interPicoPadding m)).
    { rewrite (wrapS_small (codeSize e + _)) by lia. apply wrapS_small. lia. }
    rewrite (loop_step_place tcg m fp funcs n i off es w e Hin Hp Hv).
    2:{ rewrite Hstep. rewrite wrapS_small by lia. lia. }
    2:{ specialize (Hor 0%nat ltac:(lia)). now rewrite Nat.add_0_r in Hor. }
    cbv zeta. rewrite Hstep.
    match goal with
    | |- exists es' w', LoadPico_loop _ _ _ _ _ _ _ ?es1 ?w1 = _ =>
        destruct (IH (S i) (off + (codeSize e + interPicoPadding m)) es1 w1)
          as (es' & w' & Heq)
    end.
    + intros j Hj. rewrite entry_at_insert_ne by lia. apply Hun. lia.
    + intros k Hk. cbn [oracle allocs PicoLoad].
      replace (S (allocs w) + k)%nat with (allocs w + S k)%nat by lia.
      apply Hor. lia.
    + rewrite drop_insert_lt by lia. fold rest. lia.
    + exact Hbs.
    + exists es', w'. rewrite Heq. rewrite drop_insert_lt by lia. fold rest.
      f_equal. f_equal. f_equal. lia.
Qed.

Lemma unloaded_range es n : forall i,
  (forall j, (i <= j < i + n)%nat -> unloaded (entry_at es j) = true) ->
  List.filter has_vault (take n (drop i es)) = take n (drop i es)
  /\ List.length (take n (drop i es)) = n.
Proof.
  induction n as [|n IH]; intros i Hi.
  - rewrite take_0. now split.
  - pose proof (unloaded_in_array _ i (Hi i ltac:(lia))) as Hin.
    pose proof (Hi i ltac:(lia)) as Hu. unfold unloaded in Hu.
    apply andb_true_iff in Hu as [Hv _].
    rewrite (drop_S _ _ _ Hin). cbn [take firstn List.filter List.length].
    rewrite Hv. destruct (IH (S i)) as [Hf Hl]; [intros j Hj; apply Hi; lia|].
    rewrite Hf, Hl. now split.
Qed.

Lemma catalog_all_live m :
  (forall j, (j < N.to_nat (entryCount m))%nat ->
     unloaded (entry_at (entries m) j) = true) ->
  live_entries m = catalog m /\
  List.length (catalog m) = N.to_nat (entryCount m).
Proof.
  intros Hun. unfold live_entries, catalog.
  pose proof (unloaded_range (entries m) (N.to_nat (entryCount m)) 0) as H.
  rewrite drop_0 in H. apply H. intros j Hj. apply Hun. lia.
Qed.

(** [PicoManagerAlloc] with one final padding, then [LoadPico] over the
    whole catalog with another. *)
Lemma alloc_then_load tcg m fpA fpL funcs w :
  entryCount m < 2 ^ 32 -> 1 <= entryCount m ->
  (forall j, (j < N.to_nat (entryCount m))%nat ->
     unloaded (entry_at (entries m) j) = true) ->
  0 < code_total (catalog m) + 2 * (entryCount m - 1) * interPicoPadding m + fpA ->
  code_total (catalog m) + 2 * (entryCount m - 1) * interPicoPadding m + fpA
    < 2 ^ 64 ->
  entryCount m * interPicoPadding m + fpL
    <= 2 * (entryCount m - 1) * interPicoPadding m + fpA ->
  (forall k, (k <= N.to_nat (entryCount m))%nat -> oracle w (allocs w + k) = true) ->
  exists m1 w1 m2 w2,
    PicoManagerAlloc m fpA w = (true, m1, w1) /\
    blockSize m1
    = code_total (catalog m) + 2 * (entryCount m - 1) * interPicoPadding m + fpA /\
    entries m1 = entries m /\
    LoadPico tcg m1 DWORD_MINUS_ONE fpL funcs w1 = (LoadOk, m2, w2) /\
    usedSize m2 = code_total (catalog m) + entryCount m * interPicoPadding m /\
    (forall j, (j < N.to_nat (entryCount m))%nat ->
       placed (entry_at (entries m2) j) = true).
Proof.
  intros Hdw Hone Hun Hpos Hbig Hfit Hor.
  destruct (catalog_all_live m Hun) as [Hlive Hlen].
  assert (Hlast : has_vault (entry_at (entries m) (N.to_nat (entryCount m) - 1)) = true).
  { specialize (Hun (N.to_nat (entryCount m) - 1)%nat ltac:(lia)).
    unfold unloaded in Hun. now apply andb_true_iff in Hun as [Hv _]. }
  assert (Htotal : TotalCodeSize m
                   = code_total (catalog m) + interPicoPadding m * (entryCount m - 1)).
  { rewrite (TotalCodeSize_spec_when_last_live m) by (try exact Hlast; lia).
    unfold totalCodeSize_spec. rewrite Hlive, length_map, Hlen.
    fold (code_total (catalog m)). rewrite wrapS_small; [f_equal; lia | nia]. }
  set (B := code_total (catalog m) + 2 * (entryCount m - 1) * interPicoPadding m + fpA)
    in *.
  assert (Hsize : wrapS (wrapS (TotalCodeSize m
                    + (if 0 <? entryCount m
                       then wrapS (interPicoPadding m * subD (entryCount m) 1)
                       else 0)) + fpA) = B).
  { destruct (N.ltb_spec 0 (entryCount m)); [|lia].
    rewrite subD_one by lia. rewrite Htotal.
    rewrite (wrapS_small (interPicoPadding m * _)) by nia.
    rewrite (wrapS_small (_ + interPicoPadding m * _)) by nia.
    unfold B. rewrite wrapS_small; nia. }
  unfold PicoManagerAlloc. rewrite Hsize.
  unfold VirtualAlloc.
  pose proof (Hor 0%nat ltac:(lia)) as Ho0. rewrite Nat.add_0_r in Ho0.
  rewrite Ho0. cbn [is_null].
  set (w1 := mkWorld (oracle w) (S (allocs w)) _ (relocated w)).
  set (m1 := set_usedSize (set_blockSize (set_baseAddress m _) B) 0).
  destruct (loop_places_all tcg m1 fpL funcs (N.to_nat (entryCount m)) 0 0
              (entries m) w1) as (es' & w2 & Hloop).
  { intros j Hj. apply Hun. lia. }
  { intros k Hk. cbn [w1 oracle allocs].
    replace (S (allocs w) + k)%nat with (allocs w + S k)%nat by lia.
    apply Hor. lia. }
  { rewrite drop_0. fold (catalog m). rewrite footprint_total, Hlen.
    cbn [m1 interPicoPadding blockSize set_usedSize set_blockSize set_baseAddress].
    unfold B. nia. }
  { exact Hbig. }
  rewrite drop_0 in Hloop. fold (catalog m) in Hloop.
  rewrite footprint_total, Hlen in Hloop.
  exists m1, w1, (set_usedSize (set_entries m1 es')
                    (0 + (code_total (catalog m)
                          + interPicoPadding m1 * N.of_nat (N.to_nat (entryCount m))))),
    w2.
  split; [reflexivity|]. split; [reflexivity|]. split; [reflexivity|].
  split.
  { rewrite LoadPico_allocated; [| reflexivity | cbn; lia].
    replace (load_bound m1 DWORD_MINUS_ONE) with (N.to_nat (entryCount m)).
    2:{ unfold load_bound. change (DWORD_MINUS_ONE =? DWORD_MINUS_ONE) with true.
        cbn [m1 entryCount set_usedSize set_blockSize set_baseAddress]. lia. }
    change (entries m1) with (entries m). rewrite Hloop. reflexivity. }
  split.
  { cbn [usedSize set_usedSize m1 interPicoPadding set_entries set_blockSize
         set_baseAddress]. lia. }
  intros j Hj. cbn [entries set_usedSize set_entries].
  apply loop_ok in Hloop as [_ Hcells].
  destruct (Hcells j ltac:(lia)) as [_ Hnew].
  pose proof (Hun j Hj) as Hu. unfold unloaded in Hu.
  apply andb_true_iff in Hu as [Hv Hp]. apply negb_true_iff in Hp.
  destruct (Hnew Hp Hv) as (b & Hcell & _).
  rewrite (entry_at_Some _ _ _ Hcell). reflexivity.
Qed.

(** X11.  A block sized by [PicoManagerAlloc] holds the catalog it was
    sized for, from two modules on.  Let the catalog hold [n >= 2]
    registered modules, none placed, and let the sizes not overflow
    [SIZE_T].  With every allocation granted, [PicoManagerAlloc] with
    final padding [fp] reserves a block of (sum of the code sizes)
    + 2 (n - 1) paddings + [fp] bytes: the inter-module padding is
    counted twice.  [LoadPico] over the whole catalog with the same
    final padding then returns [TRUE]; it places every module and leaves
    [usedSize] at (sum of the code sizes) + n paddings. *)
Theorem PicoManagerAlloc_then_LoadPico
        (tcg : LibTcg) (m : PICO_MANAGER) (finalPadding : N) (funcs : ptr)
        (w : World) :
  entryCount m < 2 ^ 32 -> 2 <= entryCount m ->
  (forall j, (j < N.to_nat (entryCount m))%nat ->
     unloaded (entry_at (entries m) j) = true) ->
  0 < code_total (catalog m) + 2 * (entryCount m - 1) * interPicoPadding m
      + finalPadding ->
  code_total (catalog m) + 2 * (entryCount m - 1) * interPicoPadding m
    + finalPadding < 2 ^ 64 ->
  (forall k, (k <= N.to_nat (entryCount m))%nat -> oracle w (allocs w + k) = true) ->
  exists m1 w1 m2 w2,
    PicoManagerAlloc m finalPadding w = (true, m1, w1) /\
    blockSize m1
    = code_total (catalog m) + 2 * (entryCount m - 1) * interPicoPadding m
      + finalPadding /\
    LoadPico tcg m1 DWORD_MINUS_ONE finalPadding funcs w1 = (LoadOk, m2, w2) /\
    usedSize m2 = code_total (catalog m) + entryCount m * interPicoPadding m /\
    (forall j, (j < N.to_nat (entryCount m))%nat ->
       placed (entry_at (entries m2) j) = true).
Proof.
  intros Hdw Htwo Hun Hpos Hbig Hor.
  destruct (alloc_then_load tcg m finalPadding finalPadding funcs w)
    as (m1 & w1 & m2 & w2 & Ha & Hb & _ & Hl & Hu & Hp);
    try assumption; [lia | nia |].
  exists m1, w1, m2, w2. auto.
Qed.

Lemma PicoManagerAlloc_then_LoadPico_witness :
  exists m1 w1 m2 w2,
    PicoManagerAlloc manager_ABC 10 (world_ex (always true)) = (true, m1, w1) /\
    blockSize m1 = 424 /\
    LoadPico tcg_ex m1 DWORD_MINUS_ONE 10 NULL w1 = (LoadOk, m2, w2) /\
    usedSize m2 = 398.
Proof.
  destruct (PicoManagerAlloc_then_LoadPico tcg_ex manager_ABC 10 NULL
              (world_ex (always true)))
    as (m1 & w1 & m2 & w2 & Ha & Hb & Hl & Hu & _).
  - reflexivity.
  - vm_compute. discriminate.
  - intros j Hj.
    assert (Hj3 : (j < 3)%nat) by exact Hj.
    destruct j as [|[|[|j]]]; [reflexivity | reflexivity | reflexivity | lia].
  - reflexivity.
  - reflexivity.
  - intros k _. reflexivity.
  - exists m1, w1, m2, w2. split; [exact Ha|]. split; [exact Hb|].
    split; [exact Hl | exact Hu].
Defined.

(** X12.  With a single module the block is too small.  Let the catalog
    hold one registered module, not placed, with a padding that is not
    zero (and sizes that do not overflow).  [PicoManagerAlloc] reserves
    code size + final padding bytes, and [LoadPico] with the same final
    padding then fails for lack of space, changing nothing: it wants room
    for the padding after the module as well. *)
Theorem PicoManagerAlloc_single_module_too_small
        (tcg : LibTcg) (m : PICO_MANAGER) (finalPadding : N) (funcs : ptr)
        (w : World) :
  entryCount m = 1 ->
  unloaded (entry_at (entries m) 0) = true ->
  0 < interPicoPadding m ->
  0 < codeSize (entry_at (entries m) 0) + finalPadding ->
  codeSize (entry_at (entries m) 0) + interPicoPadding m + finalPadding < 2 ^ 64 ->
  oracle w (allocs w) = true ->
  exists m1 w1,
    PicoManagerAlloc m finalPadding w = (true, m1, w1) /\
    blockSize m1 = codeSize (entry_at (entries m) 0) + finalPadding /\
    LoadPico tcg m1 DWORD_MINUS_ONE finalPadding funcs w1
    = (InsufficientSpace, m1, w1).
Proof.
  intros Hc Hun Hpad Hpos Hbig Hor.
  pose proof Hun as Hu. unfold unloaded in Hu.
  apply andb_true_iff in Hu as [Hv Hp]. apply negb_true_iff in Hp.
  set (e := entry_at (entries m) 0) in *.
  assert (Htotal : TotalCodeSize m = codeSize e).
  { unfold TotalCodeSize. rewrite Hc. change (N.to_nat 1) with 1%nat.
    cbn [TotalCodeSize_loop]. fold e. unfold has_vault in Hv.
    apply negb_true_iff in Hv. rewrite Hv, Hc.
    change (N.of_nat 0 <? subD 1 1) with false. cbv iota.
    apply wrapS_small. lia. }
  unfold PicoManagerAlloc. rewrite Htotal, Hc.
  change (0 <? 1) with true. cbv iota. change (subD 1 1) with 0.
  rewrite N.mul_0_r. change (wrapS 0) with 0. rewrite N.add_0_r.
  rewrite (wrapS_small (codeSize e)) by lia.
  rewrite (wrapS_small (codeSize e + finalPadding)) by lia.
  unfold VirtualAlloc. rewrite Hor. cbn [is_null].
  eexists _, _. split; [reflexivity|]. split; [reflexivity|].
  rewrite LoadPico_allocated; [| reflexivity | cbn; lia].
  match goal with |- context [load_bound ?m1 _] =>
    replace (load_bound m1 DWORD_MINUS_ONE) with 1%nat
      by (unfold load_bound; change (DWORD_MINUS_ONE =? DWORD_MINUS_ONE) with true;
          cbn [entryCount set_usedSize set_blockSize set_baseAddress];
          rewrite Hc; reflexivity)
  end.
  rewrite loop_step. cbv zeta.
  cbn [entries set_usedSize set_blockSize set_baseAddress interPicoPadding
       blockSize].
  fold e. rewrite Hp, Hv. cbn [negb].
  rewrite (wrapS_small (codeSize e + interPicoPadding m)) by lia.
  rewrite N.add_0_l.
  rewrite (wrapS_small (codeSize e + interPicoPadding m)) by lia.
  rewrite wrapS_small by lia.
  destruct (N.ltb_spec (codeSize e + finalPadding)
              (codeSize e + interPicoPadding m + finalPadding)) as [_|Hge]; [|lia].
  reflexivity.
Qed.

Lemma PicoManagerAlloc_single_module_too_small_witness :
  let m := snd (AddPico tcg_ex
                  (set_interPicoPadding (PicoManagerInit (repeat zero_entry 2) 2) 16)
                  (Some (str "A")) vaultA) in
  exists m1 w1,
    PicoManagerAlloc m 10 (world_ex (always true)) = (true, m1, w1) /\
    blockSize m1 = 110 /\
    LoadPico tcg_ex m1 DWORD_MINUS_ONE 10 NULL w1 = (InsufficientSpace, m1, w1).
Proof.
  intros m.
  destruct (PicoManagerAlloc_single_module_too_small tcg_ex m 10 NULL
              (world_ex (always true))) as (m1 & w1 & Ha & Hb & Hl);
    try reflexivity.
  exists m1, w1. split; [exact Ha|]. split; [exact Hb | exact Hl].
Defined.

(** ** [PicoManagerAlloc] by itself *)

Lemma PicoManagerAlloc_result (m : PICO_MANAGER) (finalPadding : N)
        (w : World) :
  exists ok m' w',
    PicoManagerAlloc m finalPadding w = (ok, m', w') /\
    (entries m', entryCount m', entryCapacity m', interPicoPadding m')
    = (entries m, entryCount m, entryCapacity m, interPicoPadding m) /\
    (forall r, In r (live w) -> In r (live w')) /\
    relocated w' = relocated w /\
    (ok = true ->
     exists b, baseAddress m' = Ptr b 0 /\ usedSize m' = 0 /\
       In (mkRegion b (blockSize m') PAGE_EXECUTE_READWRITE) (live w')) /\
    (ok = false ->
     baseAddress m' = NULL /\ blockSize m' = blockSize m /\
     usedSize m' = usedSize m /\ live w' = live w).
Proof.
  unfold PicoManagerAlloc.
  destruct (VirtualAlloc _ _ _) as [p w1] eqn:Ha.
  pose proof (VirtualAlloc_grows _ _ _ _ _ Ha) as (Hlive & Hrel & _ & _).
  destruct (is_null p) eqn:Hp.
  - apply VirtualAlloc_refused in Ha as (_ & -> & Hl & _); [|exact Hp].
    eexists _, _, _. split; [reflexivity|]. split; [reflexivity|].
    split; [exact Hlive|]. split; [exact Hrel|].
    split; [discriminate|]. intros _. now repeat split.
  - apply VirtualAlloc_granted in Ha as (_ & -> & Hin); [|exact Hp].
    eexists _, _, _. split; [reflexivity|]. split; [reflexivity|].
    split; [exact Hlive|]. split; [exact Hrel|].
    split; [|discriminate]. intros _. eexists. split; [reflexivity|].
    split; [reflexivity|]. exact Hin.
Qed.

(** X13.  What [PicoManagerAlloc] does to a manager that may already
    have a block.  It never changes the catalog and never releases
    anything: every region reserved before the call is reserved after
    it, the manager's former block included.  When the allocation is
    granted the manager points at the base of a new execute-read-write
    region of [blockSize] bytes and [usedSize] is zero.  When it is
    refused the call returns [FALSE] with [baseAddress] null, while
    [blockSize] and [usedSize] keep the values they had. *)
Theorem PicoManagerAlloc_outcomes (m : PICO_MANAGER) (finalPadding : N)
        (w : World) :
  exists ok m' w',
    PicoManagerAlloc m finalPadding w = (ok, m', w') /\
    (entries m', entryCount m', entryCapacity m', interPicoPadding m')
    = (entries m, entryCount m, entryCapacity m, interPicoPadding m) /\
    (forall r, In r (live w) -> In r (live w')) /\
    relocated w' = relocated w /\
    (ok = true ->
     exists b, baseAddress m' = Ptr b 0 /\ usedSize m' = 0 /\
       In (mkRegion b (blockSize m') PAGE_EXECUTE_READWRITE) (live w')) /\
    (ok = false ->
     baseAddress m' = NULL /\ blockSize m' = blockSize m /\
     usedSize m' = usedSize m /\ live w' = live w).
Proof. exact (PicoManagerAlloc_result m finalPadding w). Qed.

(** ** Duplication that succeeds *)

Lemma live_entries_have_vault m t e :
  live_entries m !! t = Some e -> has_vault e = true.
Proof.
  intros H. apply list_elem_of_lookup_2, list_elem_of_In in H.
  unfold live_entries in H. now apply filter_In in H as [_ Hv].
Qed.

Lemma live_entries_length m :
  (List.length (live_entries m) <= N.to_nat (entryCount m))%nat.
Proof.
  unfold live_entries, catalog.
  etransitivity; [apply filter_length_le|]. rewrite length_take. lia.
Qed.

(** The manager [DuplicateManager] hands to [PicoManagerAlloc], when
    every registration succeeded. *)
Lemma duplicate_registered tcg m es cap nm1 :
  cap < 2 ^ 32 -> (N.to_nat cap <= List.length es)%nat ->
  DuplicateManager_loop tcg m (N.to_nat (entryCount m)) 0
    (set_interPicoPadding (PicoManagerInit es cap) (interPicoPadding m))
  = (true, nm1) ->
  (baseAddress nm1, blockSize nm1, usedSize nm1, entryCapacity nm1,
   interPicoPadding nm1) = (NULL, 0, 0, cap, interPicoPadding m) /\
  N.to_nat (entryCount nm1) = List.length (live_entries m) /\
  entryCount nm1 < 2 ^ 32 /\
  (forall t, (t < N.to_nat (entryCount nm1))%nat ->
     exists e, live_entries m !! t = Some e /\
       entries nm1 !! t = Some (fresh_entry tcg (N.of_nat t) (name e) (vault e))).
Proof.
  intros Hcap Hlen Hrun.
  set (nm0 := set_interPicoPadding (PicoManagerInit es cap) (interPicoPadding m))
    in *.
  assert (Hs0 : sized nm0) by (split; assumption).
  assert (Hle0 : entryCount nm0 <= entryCapacity nm0) by (cbn; lia).
  destruct (dup_loop_spec tcg m _ _ _ _ _ Hs0 Hle0 Hrun)
    as (_ & Hle & Hfields & _ & _ & Hcells & Hend).
  rewrite drop_0 in Hcells, Hend. fold (catalog m) in Hcells, Hend.
  fold (live_entries m) in Hcells, Hend.
  change (entryCount nm0) with 0 in Hcells, Hend.
  rewrite Nat.sub_0_r in Hcells, Hend.
  split; [exact Hfields|]. split; [exact Hend|].
  injection Hfields as _ _ _ Hc _. change (entryCapacity nm0) with cap in Hc.
  split; [lia|]. exact Hcells.
Qed.

(** X14.  A duplication that returns [TRUE], on an array with room for
    the capacity announced.  The new manager holds exactly the live
    entries of the source, in order, each registered afresh: numbered
    from zero, unplaced, with the source's vault, sizes measured again
    and the (cut) name copied; no placement, data block or entry point
    is carried over.  It has the padding of the source, the capacity
    announced, [usedSize] zero and a new execute-read-write block whose
    base is also written to [*picoBlock]; no region of the world is
    released. *)
Theorem DuplicateManager_success
        (tcg : LibTcg) (m : PICO_MANAGER) (es : list PICO_ENTRY) (cap : N)
        (picoBlock : ptr) (w : World)
        (newManager : PICO_MANAGER) (picoBlock' : ptr) (w' : World) :
  cap < 2 ^ 32 -> (N.to_nat cap <= List.length es)%nat ->
  DuplicateManager tcg m es cap picoBlock w
  = (true, newManager, picoBlock', w') ->
  picoBlock' = baseAddress newManager /\
  (exists b, picoBlock' = Ptr b 0 /\
     In (mkRegion b (blockSize newManager) PAGE_EXECUTE_READWRITE) (live w')) /\
  (forall r, In r (live w) -> In r (live w')) /\
  usedSize newManager = 0 /\
  interPicoPadding newManager = interPicoPadding m /\
  entryCapacity newManager = cap /\
  N.to_nat (entryCount newManager) = List.length (live_entries m) /\
  (forall t, (t < N.to_nat (entryCount newManager))%nat ->
     exists e e',
       live_entries m !! t = Some e /\ entries newManager !! t = Some e' /\
       id e' = N.of_nat t /\ vault e' = vault e /\
       code e' = NULL /\ data e' = NULL /\ entryPoint e' = NULL /\
       codeSize e' = int_to_SIZE_T (PicoCodeSize tcg (vault e)) /\
       dataSize e' = int_to_SIZE_T (PicoDataSize tcg (vault e)) /\
       cstr (name e') = firstn 31 (cstr (name e))).
Proof.
  intros Hcap Hlen. unfold DuplicateManager.
  destruct (DuplicateManager_loop tcg m (N.to_nat (entryCount m)) 0 _)
    as [ok nm1] eqn:Hrun.
  destruct ok; cbn [negb]; [|discriminate].
  destruct (duplicate_registered tcg m es cap nm1 Hcap Hlen Hrun)
    as (Hfields & Hcount & _ & Hcells).
  injection Hfields as _ _ _ Hc Hp.
  destruct (PicoManagerAlloc_result nm1 (wrapS (entryCount m * interPicoPadding m)) w)
    as (ok & m' & w1 & Heq & Hsame & Hlive & _ & Hok & _).
  rewrite Heq. destruct ok; cbn [negb]; [|discriminate].
  intros [= <- <- <-]. injection Hsame as He Hn Hcap' Hpad'.
  destruct (Hok eq_refl) as (b & Hb & Hu & Hin).
  split; [reflexivity|].
  split; [exists b; split; [exact Hb | exact Hin]|].
  split; [exact Hlive|]. split; [exact Hu|].
  split; [congruence|]. split; [congruence|].
  rewrite Hn. split; [exact Hcount|].
  intros t Ht. destruct (Hcells t Ht) as (e & He1 & He2).
  exists e, (fresh_entry tcg (N.of_nat t) (name e) (vault e)).
  rewrite He. split; [exact He1|]. split; [exact He2|].
  destruct (fresh_entry_name tcg (N.of_nat t) (name e) (vault e)) as (_ & _ & Hn').
  repeat (split; [reflexivity|]). exact Hn'.
Qed.

Lemma DuplicateManager_success_witness :
  let r := DuplicateManager tcg_ex manager_ABC (repeat zero_entry 4) 4
             NULL (world_ex (always true)) in
  fst (fst (fst r)) = true /\
  snd (fst r) = baseAddress (snd (fst (fst r))) /\
  N.to_nat (entryCount (snd (fst (fst r)))) = List.length (live_entries manager_ABC).
Proof.
  intros r.
  pose proof (DuplicateManager_success tcg_ex manager_ABC (repeat zero_entry 4) 4
                NULL (world_ex (always true))
                (snd (fst (fst r))) (snd (fst r)) (snd r)) as H.
  destruct H as (Hpb & _ & _ & _ & _ & _ & Hcount & _).
  - reflexivity.
  - vm_compute. repeat constructor.
  - vm_compute. reflexivity.
  - split; [vm_compute; reflexivity|]. split; [exact Hpb | exact Hcount].
Defined.

(** X15.  Duplicate, then load.  After a duplication that returned
    [TRUE] and copied at least one module, [LoadPico] over the whole new
    catalog with final padding zero returns [TRUE] whenever the data
    blocks are granted and the sizes do not overflow: the block sized by
    the duplication always has room.  The first module is placed at the
    base written to [*picoBlock], every module is placed, and [usedSize]
    is the sum of the code sizes plus one padding per module. *)
Theorem DuplicateManager_then_LoadPico
        (tcg : LibTcg) (m : PICO_MANAGER) (es : list PICO_ENTRY) (cap : N)
        (picoBlock funcs : ptr) (w : World)
        (newManager : PICO_MANAGER) (picoBlock' : ptr) (w' : World) :
  cap < 2 ^ 32 -> (N.to_nat cap <= List.length es)%nat ->
  DuplicateManager tcg m es cap picoBlock w
  = (true, newManager, picoBlock', w') ->
  1 <= entryCount newManager ->
  code_total (catalog newManager)
  + 2 * (entryCount newManager - 1) * interPicoPadding m
  + entryCount m * interPicoPadding m < 2 ^ 64 ->
  0 < code_total (catalog newManager)
      + 2 * (entryCount newManager - 1) * interPicoPadding m
      + entryCount m * interPicoPadding m ->
  (forall k, (k <= N.to_nat (entryCount newManager))%nat ->
     oracle w (allocs w + k) = true) ->
  exists m2 w2,
    LoadPico tcg newManager DWORD_MINUS_ONE 0 funcs w' = (LoadOk, m2, w2) /\
    code (entry_at (entries m2) 0) = picoBlock' /\
    usedSize m2
    = code_total (catalog newManager)
      + entryCount newManager * interPicoPadding m /\
    (forall j, (j < N.to_nat (entryCount newManager))%nat ->
       placed (entry_at (entries m2) j) = true).
Proof.
  intros Hcap Hlen Hdup Hone Hbig Hpos Hor. unfold DuplicateManager in Hdup.
  destruct (DuplicateManager_loop tcg m (N.to_nat (entryCount m)) 0 _)
    as [ok nm1] eqn:Hrun.
  destruct ok; cbn [negb] in Hdup; [|discriminate].
  destruct (duplicate_registered tcg m es cap nm1 Hcap Hlen Hrun)
    as (Hfields & Hcount & Hdw & Hcells).
  injection Hfields as _ _ _ _ Hp.
  destruct (PicoManagerAlloc nm1 (wrapS (entryCount m * interPicoPadding m)) w)
    as [[ok nm2] w1] eqn:Ha.
  destruct ok; cbn [negb] in Hdup; [|discriminate].
  injection Hdup as <- <- <-.
  assert (Hsame : entries nm2 = entries nm1 /\ entryCount nm2 = entryCount nm1).
  { destruct (PicoManagerAlloc_result nm1
                (wrapS (entryCount m * interPicoPadding m)) w)
      as (ok & m' & w3 & Heq & Hs & _).
    rewrite Ha in Heq. injection Heq as <- <- <-. injection Hs as He Hn _ _.
    now split. }
  destruct Hsame as [He Hn].
  assert (Hcat : catalog nm2 = catalog nm1) by (unfold catalog; now rewrite He, Hn).
  rewrite Hcat, Hn in *.
  pose proof (live_entries_length m) as Hll.
  assert (Hun : forall j, (j < N.to_nat (entryCount nm1))%nat ->
                  unloaded (entry_at (entries nm1) j) = true).
  { intros j Hj. destruct (Hcells j Hj) as (e & He1 & He2).
    rewrite (entry_at_Some _ _ _ He2).
    pose proof (live_entries_have_vault m j e He1) as Hv.
    unfold unloaded, has_vault, placed, fresh_entry in *. cbn [vault code].
    now rewrite Hv. }
  assert (Hfp : wrapS (entryCount m * interPicoPadding m)
                = entryCount m * interPicoPadding m) by (apply wrapS_small; nia).
  destruct (alloc_then_load tcg nm1 (wrapS (entryCount m * interPicoPadding m)) 0
              funcs w)
    as (m1 & w1' & m2 & w2 & Ha' & Hb & He' & Hl & Hu & Hpl);
    try assumption; rewrite ?Hp, ?Hfp; try assumption; [nia|].
  rewrite Ha in Ha'. injection Ha' as <- <-.
  exists m2, w2. split; [exact Hl|]. rewrite Hp in Hu. split; [|split; assumption].
  pose proof Hl as Hl'.
  apply LoadPico_cases in Hl' as [(Ho & _) | (Hbase & _ & off & es2 & Hloop & ->)];
    [discriminate|].
  cbn [BOOL_of entries set_usedSize set_entries].
  apply loop_ok in Hloop as [_ Hcell].
  assert (H0 : (0 < load_bound nm2 DWORD_MINUS_ONE)%nat).
  { unfold load_bound. change (DWORD_MINUS_ONE =? DWORD_MINUS_ONE) with true.
    rewrite Hn. lia. }
  destruct (Hcell 0%nat ltac:(lia)) as [_ Hnew].
  rewrite He in Hnew.
  pose proof (Hun 0%nat ltac:(lia)) as Hu0. unfold unloaded in Hu0.
  apply andb_true_iff in Hu0 as [Hv0 Hp0]. apply negb_true_iff in Hp0.
  destruct (Hnew Hp0 Hv0) as (b & Hc0 & _).
  rewrite (entry_at_Some _ _ _ Hc0). rewrite Nat.sub_diag, take_0.
  cbn [replay loaded_entry code set_entryPoint set_data set_code].
  destruct (PicoManagerAlloc_result nm1
              (wrapS (entryCount m * interPicoPadding m)) w)
    as (ok & m' & w3 & Heq & _ & _ & _ & Hok & _).
  rewrite Ha in Heq. injection Heq as <- <- <-.
  destruct (Hok eq_refl) as (b0 & -> & _). reflexivity.
Qed.

Lemma DuplicateManager_then_LoadPico_witness :
  let r := DuplicateManager tcg_ex manager_ABC (repeat zero_entry 4) 4
             NULL (world_ex (always true)) in
  exists m2 w2,
    LoadPico tcg_ex (snd (fst (fst r))) DWORD_MINUS_ONE 0 NULL (snd r)
    = (LoadOk, m2, w2) /\
    code (entry_at (entries m2) 0) = snd (fst r) /\
    usedSize m2 = 398.
Proof.
  intros r.
  destruct (DuplicateManager_then_LoadPico tcg_ex manager_ABC (repeat zero_entry 4) 4
              NULL NULL (world_ex (always true))
              (snd (fst (fst r))) (snd (fst r)) (snd r))
    as (m2 & w2 & Hl & Hc & Hu & _).
  - reflexivity.
  - vm_compute. repeat constructor.
  - vm_compute. reflexivity.
  - vm_compute. discriminate.
  - vm_compute. reflexivity.
  - vm_compute. reflexivity.
  - intros k _. reflexivity.
  - exists m2, w2. split; [exact Hl|]. split; [exact Hc|].
    rewrite Hu. vm_compute. reflexivity.
Defined.

(** ** Exports after a load *)

(** X16.  Load, then ask for an export.  After a [LoadPico] that
    returned [TRUE], every position it walked over that has a vault is
    placed, with the vault it had (and the code pointer it had, if it
    was placed already), and [GetPicoExportById] at that position hands
    the vault, the code pointer and the tag to LibTcg's [PicoGetExport]
    and returns its answer; so does [GetPicoExportByName] for every name
    that [GetPicoByName] resolves to that position. *)
Theorem LoadPico_then_GetPicoExportById
        (tcg : LibTcg) (m : PICO_MANAGER) (upToEntryId finalPadding : N)
        (funcs : ptr) (w : World) (m' : PICO_MANAGER) (w' : World)
        (id' : N) (tag : Z) :
  LoadPico tcg m upToEntryId finalPadding funcs w = (LoadOk, m', w') ->
  (N.to_nat id' < load_bound m upToEntryId)%nat ->
  has_vault (entry_at (entries m) (N.to_nat id')) = true ->
  let e := entry_at (entries m) (N.to_nat id') in
  let e' := entry_at (entries m') (N.to_nat id') in
  placed e' = true /\ vault e' = vault e /\
  (placed e = true -> code e' = code e) /\
  GetPicoExportById tcg m' id' tag = PicoGetExport tcg (vault e) (code e') tag /\
  (forall q, GetPicoByName m' q = Some (N.to_nat id') ->
     GetPicoExportByName tcg m' q tag
     = PicoGetExport tcg (vault e) (code e') tag).
Proof.
  intros H Hid Hv. cbv zeta.
  apply LoadPico_cases in H as [(Ho & _) | (Hb & Hs & off & es & Hloop & ->)];
    [discriminate|].
  cbn [BOOL_of].
  assert (Hlt : id' < entryCount m) by (unfold load_bound in Hid; lia).
  apply loop_ok in Hloop as [_ Hcells].
  destruct (Hcells (N.to_nat id') ltac:(lia)) as [Hold Hnew].
  set (e := entry_at (entries m) (N.to_nat id')) in *.
  assert (Hcell : placed (entry_at es (N.to_nat id')) = true /\
                  vault (entry_at es (N.to_nat id')) = vault e /\
                  (placed e = true -> code (entry_at es (N.to_nat id')) = code e)).
  { destruct (placed e) eqn:Hp.
    - specialize (Hold eq_refl). unfold entry_at at 1 2 3. rewrite Hold.
      fold (entry_at (entries m) (N.to_nat id')). fold e. auto.
    - destruct (Hnew eq_refl Hv) as (b & Hc & _).
      rewrite (entry_at_Some _ _ _ Hc). split; [|split; [reflexivity|discriminate]].
      unfold placed, loaded_entry. cbn [code set_entryPoint set_data set_code].
      destruct (baseAddress m); [discriminate | reflexivity]. }
  destruct Hcell as (Hp' & Hv' & Hc').
  split; [exact Hp'|]. split; [exact Hv'|]. split; [exact Hc'|].
  unfold placed in Hp'. apply negb_true_iff in Hp'.
  unfold has_vault in Hv. apply negb_true_iff in Hv.
  split.
  - unfold GetPicoExportById.
    cbn [entryCount entries set_usedSize set_entries].
    destruct (N.leb_spec (entryCount m) id'); [lia|].
    rewrite Hv', Hv, Hp'. reflexivity.
  - intros q Hq. unfold GetPicoExportByName. rewrite Hq.
    cbn [entries set_usedSize set_entries].
    rewrite Hv', Hv, Hp'. reflexivity.
Qed.

Lemma LoadPico_then_GetPicoExportById_witness :
  let m := with_block manager_ABC (Ptr 7 0) 400 in
  let r := LoadPico tcg_ex m DWORD_MINUS_ONE 0 NULL (world_ex (always true)) in
  GetPicoExportById tcg_ex (snd (fst r)) 1 5 = Ptr 7 116.
Proof.
  intros m r.
  destruct (LoadPico_then_GetPicoExportById tcg_ex m DWORD_MINUS_ONE 0 NULL
              (world_ex (always true)) (snd (fst r)) (snd r) 1 5%Z)
    as (_ & _ & _ & He & _).
  - vm_compute. reflexivity.
  - vm_compute. repeat constructor.
  - reflexivity.
  - rewrite He. vm_compute. reflexivity.
Defined.

(** ** After the teardown *)

(** X17.  A destroyed manager is an empty one.  After [DestroyManager]
    every lookup by number or by name finds nothing, every removal is
    refused, [TotalCodeSize] is zero, every [LoadPico] fails at its
    first test, and all of them leave the manager and the world as the
    teardown left them; the array itself still holds the old entries. *)
Theorem DestroyManager_then_empty (tcg : LibTcg) (m : PICO_MANAGER)
        (picoBlock : ptr) (w : World) :
  let m' := snd (fst (DestroyManager m picoBlock w)) in
  let w' := snd (DestroyManager m picoBlock w) in
  entries m' = entries m /\
  (forall k, GetPicoById m' k = None) /\
  (forall q, GetPicoByName m' q = None) /\
  (forall k tag, GetPicoExportById tcg m' k tag = NULL) /\
  (forall k, RemovePicoById m' k w' = (false, m', w')) /\
  (forall q, RemovePicoByName m' q w' = (false, m', w')) /\
  TotalCodeSize m' = 0 /\
  (forall k fp funcs, LoadPico tcg m' k fp funcs w' = (NotAllocated, m', w')).
Proof.
  cbv zeta. unfold DestroyManager. cbn [fst snd].
  set (m' := set_entryCount _ 0). set (w' := if is_null picoBlock then w else _).
  assert (Hname : forall q, GetPicoByName m' q = None).
  { intros [q|]; reflexivity. }
  assert (Hzero : forall k, (entryCount m' <=? k) = true).
  { intros k. apply N.leb_le. cbn [m' entryCount set_entryCount]. lia. }
  split; [reflexivity|].
  split; [intros k; unfold GetPicoById; now rewrite Hzero|].
  split; [exact Hname|].
  split; [intros k tag; unfold GetPicoExportById; now rewrite Hzero|].
  split; [intros k; unfold RemovePicoById; now rewrite Hzero|].
  split.
  { intros q. unfold RemovePicoByName. rewrite Hname. now destruct q. }
  split; [reflexivity|].
  intros k fp funcs. apply LoadPico_not_allocated. now left.
Qed.

(** ** [TotalCodeSize] on every manager *)

Lemma tally_general m n : forall i,
  entryCount m < 2 ^ 32 ->
  (i + n = N.to_nat (entryCount m))%nat ->
  tally m n i =
  code_total (List.filter has_vault (take n (drop i (entries m))))
  + interPicoPadding m
    * N.of_nat (List.length
                  (List.filter has_vault (take (n - 1) (drop i (entries m))))).
Proof.
  induction n as [|n IH]; intros i Hdw Hi.
  - change (0 - 1)%nat with 0%nat. rewrite !take_0. unfold code_total.
    cbn [tally List.filter List.map fold_right List.length]. lia.
  - cbn [tally]. rewrite (IH (S i) Hdw ltac:(lia)).
    rewrite (pending_step m n i). rewrite subD_one by lia.
    replace (S n - 1)%nat with n by lia.
    destruct n as [|n'].
    + rewrite !take_0.
      destruct (N.ltb_spec (N.of_nat i) (entryCount m - 1)); [lia|].
      destruct (has_vault (entry_at (entries m) i));
        unfold code_total; cbn [List.filter List.map fold_right List.length]; lia.
    + replace (S n' - 1)%nat with n' by lia.
      rewrite (pending_step m n' i).
      destruct (N.ltb_spec (N.of_nat i) (entryCount m - 1)); [|lia].
      destruct (has_vault (entry_at (entries m) i));
        unfold code_total; cbn [List.map fold_right List.length]; lia.
Qed.

(** X18.  What [TotalCodeSize] returns, on every manager whose count is
    a DWORD: the code sizes of the catalog entries that have a vault,
    plus one padding for each such entry that is not at the last catalog
    position, reduced modulo 2^64.  Placements play no part, and an
    empty catalog gives zero. *)
Theorem TotalCodeSize_general (m : PICO_MANAGER) :
  entryCount m < 2 ^ 32 ->
  TotalCodeSize m
  = wrapS (code_total (live_entries m)
           + interPicoPadding m
             * N.of_nat (List.length
                 (List.filter has_vault
                    (take (N.to_nat (entryCount m) - 1) (entries m))))).
Proof.
  intros Hdw. rewrite TotalCodeSize_tally. f_equal.
  rewrite (tally_general m (N.to_nat (entryCount m)) 0 Hdw eq_refl).
  now rewrite !drop_0.
Qed.

Lemma TotalCodeSize_general_witness :
  TotalCodeSize manager_A_gap = wrapS (100 + 16 * 1).
Proof.
  rewrite (TotalCodeSize_general manager_A_gap); [|reflexivity].
  vm_compute. reflexivity.
Defined.

(** ** Catalogs built through the interface have no empty slot *)

Lemma AddPico_no_empty_slot tcg m nm v ok m' :
  sized m -> catalog_inv m -> no_empty_slot m ->
  AddPico tcg m nm v = (ok, m') -> no_empty_slot m'.
Proof.
  intros [Hcap Hlen] [Hle _] Hlive.
  destruct nm as [nm|]; [|now intros [= <- <-]].
  destruct (is_null v) eqn:Hv.
  { unfold AddPico. rewrite Hv. now intros [= <- <-]. }
  destruct (N.le_gt_cases (entryCapacity m) (entryCount m)) as [Hfull|Hroom].
  { rewrite AddPico_Some by exact Hv.
    destruct (N.leb_spec (entryCapacity m) (entryCount m)); [|lia].
    now intros [= <- <-]. }
  rewrite (AddPico_success tcg m nm v Hv Hroom Hcap). intros [= <- <-].
  intros i Hi. cbn [entryCount entries] in Hi |- *.
  destruct (Nat.eq_dec i (N.to_nat (entryCount m))) as [->|Hne].
  - rewrite entry_at_insert_eq by lia. unfold has_vault, fresh_entry.
    cbn [vault]. now rewrite Hv.
  - rewrite entry_at_insert_ne by congruence. apply Hlive. lia.
Qed.

Lemma RemovePicoById_no_empty_slot m k w ok m' w' :
  sized m -> catalog_inv m -> no_empty_slot m ->
  RemovePicoById m k w = (ok, m', w') -> no_empty_slot m'.
Proof.
  intros Hs Hinv Hlive Hrun.
  destruct (N.lt_ge_cases k (entryCount m)) as [Hk|Hk].
  - pose proof (sized_fits m Hs Hinv) as Hfit.
    destruct (RemovePicoById_hit m k w Hfit Hk) as (m1 & w1 & Heq & Hc).
    rewrite Heq in Hrun. injection Hrun as <- <- <-.
    intros i Hi.
    pose proof (compacted_names m k w m1 w1 Hfit Hk Hc i Hi) as Hid.
    unfold identity_of in Hid. cbn [vault set_id] in Hid.
    injection Hid as _ _ _ Hv. unfold has_vault. rewrite Hv.
    apply Hlive. destruct Hc as (Hcount & _). rewrite Hcount in Hi.
    unfold before_removal. destruct (Nat.ltb_spec i (N.to_nat k)); lia.
  - rewrite (RemovePicoById_miss m k w Hk) in Hrun.
    now injection Hrun as <- <- <-.
Qed.

Lemma run_ops_no_empty_slot tcg ops : forall m w oks m' w',
  sized m -> catalog_inv m -> no_empty_slot m ->
  run_ops tcg ops (m, w) = (oks, (m', w')) ->
  sized m' /\ catalog_inv m' /\ no_empty_slot m'.
Proof.
  induction ops as [|op ops IH]; intros m w oks m' w' Hs Hinv Hlive;
    cbn [run_ops].
  - intros [= <- <- <-]. auto.
  - destruct (apply_op tcg op (m, w)) as [ok [m1 w1]] eqn:Hop.
    destruct (run_ops tcg ops (m1, w1)) as [oks1 [m2 w2]] eqn:Hrun.
    intros [= <- <- <-].
    destruct (apply_op_inv _ _ _ _ _ _ _ Hs Hinv Hop) as [Hs1 Hinv1].
    refine (IH _ _ _ _ _ Hs1 Hinv1 _ Hrun).
    destruct op as [nm v|k|nm]; cbn [apply_op fst snd] in Hop.
    + destruct (AddPico tcg m nm v) as [ok1 m3] eqn:Heq.
      injection Hop as <- <- <-.
      exact (AddPico_no_empty_slot _ _ _ _ _ _ Hs Hinv Hlive Heq).
    + destruct (RemovePicoById m k w) as [[ok1 m3] w3] eqn:Heq.
      injection Hop as <- <- <-.
      exact (RemovePicoById_no_empty_slot _ _ _ _ _ _ Hs Hinv Hlive Heq).
    + unfold RemovePicoByName in Hop.
      destruct nm as [q|]; [|now injection Hop as <- <- <-].
      destruct (GetPicoByName m (Some q)); [|now injection Hop as <- <- <-].
      destruct (RemovePicoById m _ w) as [[ok1 m3] w3] eqn:Heq.
      injection Hop as <- <- <-.
      exact (RemovePicoById_no_empty_slot _ _ _ _ _ _ Hs Hinv Hlive Heq).
Qed.

Lemma no_empty_slot_range es n : forall i,
  (forall j, (i <= j < i + n)%nat -> has_vault (entry_at es j) = true) ->
  List.filter has_vault (take n (drop i es)) = take n (drop i es)
  /\ List.length (take n (drop i es)) = n.
Proof.
  induction n as [|n IH]; intros i Hi.
  - rewrite take_0. now split.
  - pose proof (Hi i ltac:(lia)) as Hv.
    assert (Hin : es !! i = Some (entry_at es i)).
    { apply occupied_in_array. now rewrite Hv, orb_true_r. }
    rewrite (drop_S _ _ _ Hin). cbn [take firstn List.filter List.length].
    rewrite Hv. destruct (IH (S i)) as [Hf Hl]; [intros j Hj; apply Hi; lia|].
    rewrite Hf, Hl. now split.
Qed.

(** X19.  On a manager built through the interface [TotalCodeSize] is
    the total of the specification.  Start from [PicoManagerInit] on an
    array with room for the capacity, set the padding, and run any
    sequence of [AddPico], [RemovePicoById] and [RemovePicoByName]
    calls.  Then no catalog position is an empty slot, and
    [TotalCodeSize] returns the sum of the code sizes of the catalog
    plus ([entryCount] - 1) paddings, modulo 2^64, and zero when the
    catalog is empty. *)
Theorem TotalCodeSize_after_ops (tcg : LibTcg) (es : list PICO_ENTRY)
        (cap pad : N) (w : World) (ops : list Op) (oks : list bool)
        (m' : PICO_MANAGER) (w' : World) :
  cap < 2 ^ 32 -> (N.to_nat cap <= List.length es)%nat ->
  run_ops tcg ops (set_interPicoPadding (PicoManagerInit es cap) pad, w)
  = (oks, (m', w')) ->
  (forall i, (i < N.to_nat (entryCount m'))%nat ->
     has_vault (entry_at (entries m') i) = true) /\
  TotalCodeSize m'
  = wrapS (code_total (catalog m') + pad * (entryCount m' - 1)).
Proof.
  intros Hcap Hlen Hrun.
  set (m0 := set_interPicoPadding (PicoManagerInit es cap) pad) in *.
  assert (Hs0 : sized m0) by (split; assumption).
  assert (Hinv0 : catalog_inv m0).
  { split; [cbn; lia|]. cbn. intros i Hi. lia. }
  assert (Hlive0 : no_empty_slot m0) by (intros i Hi; cbn in Hi; lia).
  destruct (run_ops_no_empty_slot tcg ops _ _ _ _ _ Hs0 Hinv0 Hlive0 Hrun)
    as (Hs & Hinv & Hlive).
  pose proof (run_ops_fields tcg ops _ _ _ _ _ Hrun) as Hf.
  injection Hf as _ _ _ _ Hp _. change (interPicoPadding m0) with pad in Hp.
  split; [exact Hlive|].
  pose proof (sized_fits m' Hs Hinv) as [Hdw Hfit].
  destruct (N.eq_dec (entryCount m') 0) as [Hz|Hnz].
  - unfold TotalCodeSize, catalog. rewrite Hz.
    change (N.to_nat 0) with 0%nat. rewrite take_0.
    change (0 - 1) with 0. rewrite N.mul_0_r. reflexivity.
  - rewrite (TotalCodeSize_spec_when_last_live m');
      [| lia | apply Hlive; lia].
    unfold totalCodeSize_spec, live_entries, catalog.
    destruct (no_empty_slot_range (entries m') (N.to_nat (entryCount m')) 0)
      as [Hfil Hl].
    { intros j Hj. apply Hlive. lia. }
    rewrite drop_0 in Hfil, Hl. rewrite Hfil, length_map, Hl, Hp.
    unfold code_total. f_equal. f_equal. f_equal. lia.
Qed.

Lemma TotalCodeSize_after_ops_witness :
  let ops := [Register (Some (str "A")) vaultA;
              Register (Some (str "B")) vaultB;
              Register (Some (str "C")) vaultC;
              RemoveById 0] in
  let r := run_ops tcg_ex ops
             (set_interPicoPadding (PicoManagerInit (repeat zero_entry 4) 4) 16,
              world_ex (always true)) in
  TotalCodeSize (fst (snd r)) = 266.
Proof.
  intros ops r.
  destruct (TotalCodeSize_after_ops tcg_ex (repeat zero_entry 4) 4 16
              (world_ex (always true)) ops (fst r) (fst (snd r)) (snd (snd r)))
    as [_ H].
  - reflexivity.
  - vm_compute. repeat constructor.
  - vm_compute. reflexivity.
  - rewrite H. vm_compute. reflexivity.
Defined.

(** ** The refused data block *)

(** X20.  Whenever [LoadPico] returns through the refused allocation of
    a data block, [usedSize] and the other scalar fields are unchanged
    and some catalog entry that was an unplaced module before the call
    is left with its code pointer set, no data block and the entry point
    it had: it is marked as placed without having been loaded. *)
Theorem LoadPico_AllocationFailed_state
        (tcg : LibTcg) (m : PICO_MANAGER) (upToEntryId finalPadding : N)
        (funcs : ptr) (w : World) (m' : PICO_MANAGER) (w' : World) :
  LoadPico tcg m upToEntryId finalPadding funcs w = (AllocationFailed, m', w') ->
  (baseAddress m', blockSize m', usedSize m', entryCount m', entryCapacity m',
   interPicoPadding m')
  = (baseAddress m, blockSize m, usedSize m, entryCount m, entryCapacity m,
     interPicoPadding m) /\
  exists (k : nat) (e' : PICO_ENTRY),
    (k < N.to_nat (entryCount m))%nat /\
    placed (entry_at (entries m) k) = false /\
    has_vault (entry_at (entries m) k) = true /\
    entries m' !! k = Some e' /\
    placed e' = true /\ data e' = NULL /\
    entryPoint e' = entryPoint (entry_at (entries m) k).
Proof.
  intros H. split.
  - apply LoadPico_cases in H
      as [(Ho & _) | (_ & _ & off & es & _ & ->)]; [discriminate | reflexivity].
  - exact (LoadPico_AllocationFailed_marks_placed _ _ _ _ _ _ _ _ H).
Qed.

Lemma LoadPico_AllocationFailed_state_witness :
  let m := with_block manager_ABC (Ptr 7 0) 400 in
  let r := LoadPico tcg_ex m DWORD_MINUS_ONE 0 NULL (world_ex first_refused) in
  fst (fst r) = AllocationFailed /\ usedSize (snd (fst r)) = usedSize m.
Proof.
  intros m r.
  destruct (LoadPico_AllocationFailed_state tcg_ex m DWORD_MINUS_ONE 0 NULL
              (world_ex first_refused) (snd (fst r)) (snd r)) as [Hf _].
  - vm_compute. reflexivity.
  - split; [vm_compute; reflexivity|].
    exact (f_equal (fun t => snd (fst (fst (fst t)))) Hf).
Defined.

(** ** Loading after a removal *)

(** X21.  The replay does not see the gap a removal leaves.  Let the
    catalog hold two placed modules A and B and remove A (position 0):
    B moves to position 0 and keeps its code pointer.  Register a module
    C and load again, with room in the block and the data block
    granted.  The call returns [TRUE] and places C at the offset
    [codeSize B + padding] from the base, the offset replayed over the
    compacted catalog, wherever the code of B really lies.  (When B was
    placed by [LoadPico] behind A it lies at [codeSize A + padding]; so
    when [0 < codeSize A <= codeSize B] the first byte of C falls inside
    the code of B.) *)
Theorem LoadPico_after_removal_replays_compacted
        (tcg : LibTcg) (m : PICO_MANAGER) (eA eB : PICO_ENTRY)
        (rest : list PICO_ENTRY) (nC : list ascii) (vC : ptr)
        (finalPadding : N) (funcs : ptr) (w : World) :
  entries m = eA :: eB :: rest -> entryCount m = 2 ->
  2 <= entryCapacity m -> entryCapacity m < 2 ^ 32 ->
  placed eA = true -> placed eB = true ->
  is_null (baseAddress m) = false -> 0 < blockSize m -> blockSize m < 2 ^ 64 ->
  is_null vC = false ->
  codeSize eB + interPicoPadding m
  + int_to_SIZE_T (PicoCodeSize tcg vC) + interPicoPadding m + finalPadding
    <= blockSize m ->
  oracle w (allocs w) = true ->
  exists m1 w1 m2 m3 w3,
    RemovePicoById m 0 w = (true, m1, w1) /\
    AddPico tcg m1 (Some nC) vC = (true, m2) /\
    LoadPico tcg m2 DWORD_MINUS_ONE finalPadding funcs w1 = (LoadOk, m3, w3) /\
    entries m3 !! 0%nat = Some (set_id eB 0) /\
    vault (entry_at (entries m3) 1) = vC /\
    code (entry_at (entries m3) 1)
    = ptr_add (baseAddress m) (codeSize eB + interPicoPadding m) /\
    usedSize m3
    = codeSize eB + interPicoPadding m
      + int_to_SIZE_T (PicoCodeSize tcg vC) + interPicoPadding m.
Proof.
  intros Hes Hc Hcap Hdw HpA HpB Hbase Hbs0 Hbs HvC Hroom Hor.
  set (pad := interPicoPadding m) in *.
  set (cC := int_to_SIZE_T (PicoCodeSize tcg vC)) in *.
  set (w1 := if is_null (data eA) then w else VirtualFree (data eA) w).
  assert (Hw1 : oracle w1 (allocs w1) = true).
  { unfold w1. destruct (is_null (data eA)); [exact Hor|].
    destruct (data eA) as [|b [|o]]; exact Hor. }
  set (m1 := mkManager (baseAddress m) (blockSize m) (usedSize m)
                       (set_id eB 0 :: zero_entry :: rest) 1
                       (entryCapacity m) pad).
  assert (Hrem : RemovePicoById m 0 w = (true, m1, w1)).
  { unfold RemovePicoById. rewrite Hc, Hes.
    change (2 <=? 0) with false. cbv iota.
    change (N.to_nat 0) with 0%nat. change (subD 2 1) with 1.
    change (N.to_nat 1) with 1%nat.
    change (entry_at (eA :: eB :: rest) 0) with eA.
    unfold w1, m1, set_entryCount, set_entries.
    cbn [baseAddress blockSize usedSize entries entryCapacity interPicoPadding].
    destruct (is_null (data eA)); reflexivity. }
  set (fC := fresh_entry tcg 1 nC vC).
  set (m2 := mkManager (baseAddress m) (blockSize m) (usedSize m)
                       (set_id eB 0 :: fC :: rest) 2 (entryCapacity m) pad).
  assert (Hadd : AddPico tcg m1 (Some nC) vC = (true, m2)).
  { rewrite (AddPico_success tcg m1 nC vC HvC); [reflexivity | |];
      unfold m1; cbn [entryCount entryCapacity]; lia. }
  assert (HcC : codeSize fC = cC) by reflexivity.
  assert (HoffB : wrapS (0 + wrapS (codeSize eB + pad)) = codeSize eB + pad).
  { rewrite N.add_0_l. now rewrite !(wrapS_small (codeSize eB + pad)) by lia. }
  set (d := Ptr (N.of_nat (S (allocs w1))) 0).
  set (w3 := PicoLoad funcs vC (ptr_add (baseAddress m) (codeSize eB + pad)) d
               (mkWorld (oracle w1) (S (allocs w1))
                  (mkRegion (N.of_nat (S (allocs w1))) (dataSize fC) PAGE_READWRITE
                   :: live w1) (relocated w1))).
  exists m1, w1, m2,
    (set_usedSize
       (set_entries m2
          (set_id eB 0 :: loaded_entry tcg m2 fC (codeSize eB + pad) d :: rest))
       (codeSize eB + pad + (cC + pad))), w3.
  split; [exact Hrem|]. split; [exact Hadd|].
  split.
  2:{ cbn [entries set_usedSize set_entries usedSize].
      split; [reflexivity|]. split; [reflexivity|]. split; [reflexivity|]. lia. }
  rewrite LoadPico_allocated; [| exact Hbase | cbn [m2 blockSize]; lia].
  change (load_bound m2 DWORD_MINUS_ONE) with 2%nat.
  change (entries m2) with (set_id eB 0 :: fC :: rest).
  rewrite loop_step. cbv zeta.
  change (entry_at (set_id eB 0 :: fC :: rest) 0) with (set_id eB 0).
  change (placed (set_id eB 0)) with (placed eB). rewrite HpB.
  change (codeSize (set_id eB 0)) with (codeSize eB).
  change (interPicoPadding m2) with pad. rewrite HoffB.
  rewrite (loop_step_place tcg m2 finalPadding funcs 0 1 (codeSize eB + pad)
             _ w1 fC); [| reflexivity | reflexivity | | | exact Hw1].
  - cbv zeta. change (interPicoPadding m2) with pad. rewrite HcC.
    rewrite (wrapS_small (cC + pad)) by lia.
    rewrite (wrapS_small (codeSize eB + pad + (cC + pad))) by lia.
    reflexivity.
  - unfold has_vault, fC, fresh_entry. cbn [vault]. now rewrite HvC.
  - change (interPicoPadding m2) with pad. change (blockSize m2) with (blockSize m).
    rewrite HcC. rewrite (wrapS_small (cC + pad)) by lia.
    rewrite (wrapS_small (codeSize eB + pad + (cC + pad))) by lia.
    rewrite wrapS_small by lia. lia.
Qed.

Lemma LoadPico_after_removal_replays_compacted_witness :
  let m := set_interPicoPadding (PicoManagerInit (repeat zero_entry 4) 4) 16 in
  let m := snd (AddPico tcg_ex m (Some (str "A")) vaultA) in
  let m := snd (AddPico tcg_ex m (Some (str "B")) vaultB) in
  let r := LoadPico tcg_ex (with_block m (Ptr 7 0) 400) DWORD_MINUS_ONE 0 NULL
             (world_ex (always true)) in
  let m0 := snd (fst r) in
  exists m1 w1 m2 m3 w3,
    code (entry_at (entries m0) 1) = Ptr 7 116 /\
    codeSize (entry_at (entries m0) 1) = 200 /\
    RemovePicoById m0 0 (snd r) = (true, m1, w1) /\
    AddPico tcg_ex m1 (Some (str "C")) vaultC = (true, m2) /\
    LoadPico tcg_ex m2 DWORD_MINUS_ONE 0 NULL w1 = (LoadOk, m3, w3) /\
    code (entry_at (entries m3) 0) = Ptr 7 116 /\
    code (entry_at (entries m3) 1) = Ptr 7 216.
Proof.
  intros m ma mb r m0.
  destruct (LoadPico_after_removal_replays_compacted tcg_ex m0
              (entry_at (entries m0) 0) (entry_at (entries m0) 1)
              (skipn 2 (entries m0)) (str "C") vaultC 0 NULL (snd r))
    as (m1 & w1 & m2 & m3 & w3 & Hr & Ha & Hl & H0 & _ & H1 & _);
    try (vm_compute; reflexivity).
  - vm_compute. discriminate.
  - vm_compute. discriminate.
  - exists m1, w1, m2, m3, w3.
    split; [vm_compute; reflexivity|]. split; [vm_compute; reflexivity|].
    split; [exact Hr|]. split; [exact Ha|]. split; [exact Hl|].
    split.
    + rewrite (entry_at_Some _ _ _ H0). vm_compute. reflexivity.
    + rewrite H1. vm_compute. reflexivity.
Defined.
